(** * zmpack: the staged packaging pipeline of [src/index.ts]

    A shallow embedding of the pipeline executor: the six stages of
    [processConfig], the action runner [processActions], the recursive
    filesystem walkers [copyDirectory] and [rmDirectoryRecursive], and the
    top-level [main].  The filesystem, the process working directory, the
    wall clock, the log4js loggers and the console are explicit state; the
    shell and the zip archiver are oracles. *)

From Stdlib Require Import Ascii String.
From stdpp Require Import gmap strings list fin_maps pretty.

Local Open Scope string_scope.
Local Open Scope list_scope.

(** ** Strings as JavaScript has them *)

(** [s.padStart(n, c)] for a one-character pad string. *)
Fixpoint replicate_char (n : nat) (c : ascii) : string :=
  match n with
  | O => EmptyString
  | S n' => String c (replicate_char n' c)
  end.

Definition padStart (n : nat) (c : ascii) (s : string) : string :=
  replicate_char (n - String.length s) c +:+ s.

(** [Number.prototype.toString] on a non-negative integer. *)
Definition toString (n : nat) : string := pretty n.

Fixpoint last_char (s : string) : option ascii :=
  match s with
  | EmptyString => None
  | String c EmptyString => Some c
  | String _ s' => last_char s'
  end.

Definition slash : ascii := "/"%char.

Definition is_slash (c : ascii) : bool := Ascii.eqb c slash.

Definition isAbsolute (s : string) : bool :=
  match s with
  | String c _ => is_slash c
  | EmptyString => false
  end.

Definition trailingSeparator (s : string) : bool :=
  match last_char s with
  | Some c => is_slash c
  | None => false
  end.

(** ** Node's POSIX [path.join] *)

(** The segments of a path string between its separators. *)
Fixpoint split_slash (s : string) : list string :=
  match s with
  | EmptyString => [EmptyString]
  | String c s' =>
      if is_slash c then EmptyString :: split_slash s'
      else match split_slash s' with
           | [] => [String c EmptyString]
           | x :: xs => String c x :: xs
           end
  end.

Fixpoint join_slash (segs : list string) : string :=
  match segs with
  | [] => EmptyString
  | [x] => x
  | x :: rest => x +:+ "/" +:+ join_slash rest
  end.

(** One step of [normalizeString]: the stack holds the segments kept so far,
    innermost first.  Empty and [.] segments are dropped; [..] pops the last
    real segment, and is kept only where [allowAboveRoot] holds and nothing
    is left to pop. *)
Definition norm_step (allowAboveRoot : bool) (stack : list string) (seg : string)
  : list string :=
  if bool_decide (seg = "") then stack
  else if bool_decide (seg = ".") then stack
  else if bool_decide (seg = "..") then
    match stack with
    | top :: below =>
        if bool_decide (top = "..") then
          (if allowAboveRoot then seg :: stack else stack)
        else below
    | [] => if allowAboveRoot then [seg] else []
    end
  else seg :: stack.

Definition norm_stack (allowAboveRoot : bool) (stack : list string)
    (segs : list string) : list string :=
  fold_left (norm_step allowAboveRoot) segs stack.

Definition Path_normalize (p : string) : string :=
  if bool_decide (p = "") then "."
  else
    let isAbs := isAbsolute p in
    let trailing := trailingSeparator p in
    let body := join_slash (rev (norm_stack (negb isAbs) [] (split_slash p))) in
    if bool_decide (body = "") then
      (if isAbs then "/" else if trailing then "./" else ".")
    else
      (if isAbs then "/" else "") +:+ body +:+ (if trailing then "/" else "").

(** [Path.join(a, b)]: the non-empty arguments joined by a separator, then
    normalised. *)
Definition Path_join (a b : string) : string :=
  let joined :=
    if bool_decide (a = "") then b
    else if bool_decide (b = "") then a
    else a +:+ "/" +:+ b in
  if bool_decide (joined = "") then "." else Path_normalize joined.

(** ** The wall clock *)

(** What the accessors of a JavaScript [Date] return: [getMonth] is the
    month index 0..11, [getDate] the day of the month 1..31, [getDay] the day
    of the week 0..6 (0 is Sunday). *)
Record Date := mkDate {
  getFullYear : nat;
  getMonth : nat;
  getDate : nat;
  getDay : nat;
  getHours : nat;
  getMinutes : nat;
  getSeconds : nat
}.

(** [timeText] of [processConfig]. *)
Definition timeText (timeNow : Date) : string :=
  toString (getFullYear timeNow) +:+
  padStart 2 "0" (toString (getMonth timeNow)) +:+
  padStart 2 "0" (toString (getDay timeNow)) +:+
  padStart 2 "0" (toString (getHours timeNow)) +:+
  padStart 2 "0" (toString (getMinutes timeNow)) +:+
  padStart 2 "0" (toString (getSeconds timeNow)).

(** The timestamp as the specification words it: year, calendar month,
    day of the month, hour, minute, second. *)
Definition spec_timestamp (timeNow : Date) : string :=
  toString (getFullYear timeNow) +:+
  padStart 2 "0" (toString (S (getMonth timeNow))) +:+
  padStart 2 "0" (toString (getDate timeNow)) +:+
  padStart 2 "0" (toString (getHours timeNow)) +:+
  padStart 2 "0" (toString (getMinutes timeNow)) +:+
  padStart 2 "0" (toString (getSeconds timeNow)).

(** ** The filesystem *)

(** A resolved path: the names from the root down. *)
Abbreviation fspath := (list string).

(** What a path names: a regular file with its bytes, a directory, or
    anything else (FIFO, socket, device node).  This is the filesystem
    without symbolic links; permissions are left out: a call fails only
    for what is, or is not, at the paths it is given.  Module [Links]
    below has the filesystem with symbolic links, which [FS.stat] and
    [FS.readdir] follow, and the removal of a directory tree on it; the
    two agree wherever no link is met ([linked_rm_agrees]). *)
Inductive entry :=
| File (content : string)
| Dir
| Other.

Global Instance entry_eq_dec : EqDecision entry.
Proof. solve_decision. Defined.

(** [fs.Stats], as far as the program asks. *)
Record Stats := mkStats { isFile : bool; isDirectory : bool }.

Definition stats_of (e : entry) : Stats :=
  match e with
  | File _ => mkStats true false
  | Dir => mkStats false true
  | Other => mkStats false false
  end.

(** ** Loggers, errors and the state of the process *)

Inductive Logger := mainLogger | actionLogger | copyLogger | archiverLogger.

Inductive Level := TRACE | INFO | WARN | ERROR.

Global Instance Logger_eq_dec : EqDecision Logger.
Proof. solve_decision. Defined.

Global Instance Level_eq_dec : EqDecision Level.
Proof. solve_decision. Defined.

Record LogEvent := mkLog { logger : Logger; level : Level; message : string }.

Global Instance LogEvent_eq_dec : EqDecision LogEvent.
Proof. solve_decision. Defined.

(** What can be thrown: the errno of a failed filesystem call, a
    [TypeError] of the runtime, [new Error(msg)] of the program itself, and
    the failures of the collaborators. *)
Inductive error :=
| ENOENT
| ENOTDIR
| EISDIR
| EEXIST
| ENOTEMPTY
| EBUSY
| ENOTSUP
| TypeError
| Error_ (msg : string)
| SyntaxError
| ExecError (msg : string)
| ArchiverError (msg : string)
| ELOOP.

Global Instance error_eq_dec : EqDecision error.
Proof. solve_decision. Defined.

Definition error_text (e : error) : string :=
  match e with
  | ENOENT => "ENOENT"
  | ENOTDIR => "ENOTDIR"
  | EISDIR => "EISDIR"
  | EEXIST => "EEXIST"
  | ENOTEMPTY => "ENOTEMPTY"
  | EBUSY => "EBUSY"
  | ENOTSUP => "ENOTSUP"
  | TypeError => "TypeError"
  | Error_ msg => "Error: " +:+ msg
  | SyntaxError => "SyntaxError"
  | ExecError msg => "Error: " +:+ msg
  | ArchiverError msg => "ArchiverError: " +:+ msg
  | ELOOP => "ELOOP"
  end.

(** The world a run works in: the filesystem as a map from resolved paths
    to what is there, the working directory of the process, the clock, what
    the loggers have been handed so far and what was printed. *)
Record World := mkWorld {
  fs : gmap fspath entry;
  cwd : fspath;
  now : Date;
  log : list LogEvent;
  console : list string
}.

Definition set_fs (m : gmap fspath entry) (w : World) : World :=
  mkWorld m (cwd w) (now w) (log w) (console w).

Definition set_cwd (p : fspath) (w : World) : World :=
  mkWorld (fs w) p (now w) (log w) (console w).

Definition set_now (d : Date) (w : World) : World :=
  mkWorld (fs w) (cwd w) d (log w) (console w).

Definition add_log (ev : LogEvent) (w : World) : World :=
  mkWorld (fs w) (cwd w) (now w) (log w ++ [ev]) (console w).

Definition add_console (line : string) (w : World) : World :=
  mkWorld (fs w) (cwd w) (now w) (log w) (console w ++ [line]).

(** ** The monad of the asynchronous functions

    An [async] function either resolves with a value or rejects with an
    error, and has changed the world by then.  [Uncaught] is an exception
    thrown outside the promise chain, from an event listener: nothing can
    catch it and the process dies of it.  [OutOfFuel] stands for a recursion
    deeper than the fuel given. *)
Inductive outcome (A : Type) :=
| Val (a : A)
| Throw (e : error)
| Uncaught (e : error)
| OutOfFuel.

Arguments Val {A} a.
Arguments Throw {A} e.
Arguments Uncaught {A} e.
Arguments OutOfFuel {A}.

Definition M (A : Type) : Type := World → outcome A * World.

Global Instance M_ret : MRet M := λ A a w, (Val a, w).

Global Instance M_bind : MBind M := λ A B f m w,
  match m w with
  | (Val a, w') => f a w'
  | (Throw e, w') => (Throw e, w')
  | (Uncaught e, w') => (Uncaught e, w')
  | (OutOfFuel, w') => (OutOfFuel, w')
  end.

Definition throw {A} (e : error) : M A := λ w, (Throw e, w).

Definition uncaught {A} (e : error) : M A := λ w, (Uncaught e, w).

Definition out_of_fuel {A} : M A := λ w, (OutOfFuel, w).

(** [for (const x of l) { await body(x) }] *)
Fixpoint forM_ {A} (l : list A) (body : A → M unit) : M unit :=
  match l with
  | [] => mret tt
  | x :: l' => body x ;; forM_ l' body
  end.

Definition log_to (lg : Logger) (lv : Level) (msg : string) : M unit :=
  λ w, (Val tt, add_log (mkLog lg lv msg) w).

Definition console_log (line : string) : M unit :=
  λ w, (Val tt, add_console line w).

(** The double quote, and a template literal's [${x}] between quotes. *)
Definition dq : string := String (ascii_of_nat 34) EmptyString.

Definition quoted (s : string) : string := dq +:+ s +:+ dq.

(** A template literal prints a missing array element as [undefined]. *)
Definition js_str (o : option string) : string := default "undefined" o.

(** ** Filesystem calls *)

(** The kernel's walk from the root (or from the working directory, for a
    relative path) to the place a path string names. *)
Definition resolve (base : fspath) (s : string) : fspath :=
  rev (norm_stack false (if isAbsolute s then [] else rev base) (split_slash s)).

(** What is at a path string: nothing for the empty string, and nothing for
    a path with a trailing separator that names a non-directory. *)
Definition stat_entry (w : World) (s : string) : option entry :=
  if bool_decide (s = "") then None
  else match fs w !! resolve (cwd w) s with
       | Some Dir => Some Dir
       | Some e => if trailingSeparator s then None else Some e
       | None => None
       end.

Fixpoint strip_prefix (p q : fspath) : option fspath :=
  match p, q with
  | [], _ => Some q
  | x :: p', y :: q' => if bool_decide (x = y) then strip_prefix p' q' else None
  | _ :: _, [] => None
  end.

Definition child_name (p q : fspath) : option string :=
  match strip_prefix p q with
  | Some [n] => Some n
  | _ => None
  end.

(** The names directly inside directory [p]. *)
Definition children (p : fspath) (m : gmap fspath entry) : list string :=
  omap (child_name p) (elements (dom m)).

Definition parent_of (p : fspath) : fspath := take (length p - 1) p.

(** [FS.access(path, F_OK)], wrapped so that it never throws. *)
Definition fsExist (path : string) : M bool :=
  λ w, (Val (bool_decide (is_Some (stat_entry w path))), w).

Definition fsStat (path : string) : M Stats :=
  λ w, match stat_entry w path with
       | Some e => (Val (stats_of e), w)
       | None => (Throw ENOENT, w)
       end.

Definition fsReadFile (path : string) : M string :=
  λ w, match stat_entry w path with
       | Some (File c) => (Val c, w)
       | Some Dir => (Throw EISDIR, w)
       | Some Other => (Throw ENOTSUP, w)
       | None => (Throw ENOENT, w)
       end.

Definition fsReaddir (path : string) : M (list string) :=
  λ w, match stat_entry w path with
       | Some Dir => (Val (children (resolve (cwd w) path) (fs w)), w)
       | Some _ => (Throw ENOTDIR, w)
       | None => (Throw ENOENT, w)
       end.

Definition fsUnlink (path : string) : M unit :=
  λ w, match stat_entry w path with
       | Some Dir => (Throw EISDIR, w)
       | Some _ => (Val tt, set_fs (delete (resolve (cwd w) path) (fs w)) w)
       | None => (Throw ENOENT, w)
       end.

Definition fsRmdir (path : string) : M unit :=
  λ w, let p := resolve (cwd w) path in
       match stat_entry w path with
       | Some Dir =>
           if bool_decide (p = []) then (Throw EBUSY, w)
           else if bool_decide (children p (fs w) = []) then
             (Val tt, set_fs (delete p (fs w)) w)
           else (Throw ENOTEMPTY, w)
       | Some _ => (Throw ENOTDIR, w)
       | None => (Throw ENOENT, w)
       end.

(** Single-level create: the parent has to be a directory already. *)
Definition fsMkdir (path : string) : M unit :=
  λ w, let p := resolve (cwd w) path in
       if bool_decide (path = "") then (Throw ENOENT, w)
       else match fs w !! p with
            | Some _ => (Throw EEXIST, w)
            | None =>
                match fs w !! parent_of p with
                | Some Dir => (Val tt, set_fs (<[p := Dir]> (fs w)) w)
                | Some _ => (Throw ENOTDIR, w)
                | None => (Throw ENOENT, w)
                end
            end.

Definition fsCopyFile (src dest : string) : M unit :=
  λ w, match stat_entry w src with
       | Some (File c) =>
           let p := resolve (cwd w) dest in
           if bool_decide (dest = "") then (Throw ENOENT, w)
           else match fs w !! p with
                | Some Dir => (Throw EISDIR, w)
                | Some Other => (Throw ENOTSUP, w)
                | Some (File _) =>
                    if trailingSeparator dest then (Throw ENOTDIR, w)
                    else (Val tt, set_fs (<[p := File c]> (fs w)) w)
                | None =>
                    if trailingSeparator dest then (Throw EISDIR, w)
                    else match fs w !! parent_of p with
                         | Some Dir => (Val tt, set_fs (<[p := File c]> (fs w)) w)
                         | Some _ => (Throw ENOTDIR, w)
                         | None => (Throw ENOENT, w)
                         end
                end
       | Some Dir => (Throw EISDIR, w)
       | Some Other => (Throw ENOTSUP, w)
       | None => (Throw ENOENT, w)
       end.

(** [process.chdir] *)
Definition chdir (directory : string) : M unit :=
  λ w, match stat_entry w directory with
       | Some Dir => (Val tt, set_cwd (resolve (cwd w) directory) w)
       | Some _ => (Throw ENOTDIR, w)
       | None => (Throw ENOENT, w)
       end.

(** ** Configuration and collaborators *)

Record Configuration := mkConfiguration {
  name : string;
  targetPath : string;
  copyBefore : list (list string);
  copyAfter : list (list string);
  files : list string;
  packBefore : list (list string);
  packAfter : list (list string)
}.

(** What running a command line through the shell comes to: a command may
    have rewritten the filesystem and taken time whether it exits with
    zero or not. *)
Inductive ExecResult :=
| ExecOk (fs' : gmap fspath entry) (now' : Date) (stdout stderr : string)
| ExecFail (fs' : gmap fspath entry) (now' : Date) (msg : string).

(** What archiving a directory comes to: the warnings the archiver
    emitted, and either its [close] event with the byte count (if it emits
    one) or its [error] event. *)
Inductive ArchiveResult :=
| ArchiveOk (fs' : gmap fspath entry) (now' : Date)
    (warnings : list string) (closed : option nat)
| ArchiveFail (fs' : gmap fspath entry) (now' : Date)
    (warnings : list string) (msg : string).

(** The host of a run: the shell, the archiver library and [JSON.parse],
    the directory the tool was started in ([process.cwd()] when the module
    is loaded) and [OS.tmpdir()]. *)
Record Host := mkHost {
  host_exec : string → string → World → ExecResult;
  host_archiver : string → string → World → ArchiveResult;
  host_JSON_parse : string → option Configuration;
  host_cwd : string;
  host_tmpdir : string
}.

Definition configFileName : string := "zmpack.json".

Section Pipeline.

Variable host : Host.

Definition workingPath : string := host_cwd host.

(** [childProcessExec(commandLine, { cwd })] *)
Definition childProcessExec (commandLine cwd : string) : M (string * string) :=
  λ w, match host_exec host commandLine cwd w with
       | ExecOk m d out err => (Val (out, err), set_now d (set_fs m w))
       | ExecFail m d msg => (Throw (ExecError msg), set_now d (set_fs m w))
       end.

(** [Path.join] on an array element that may be missing: the runtime
    rejects a non-string argument. *)
Definition Path_join_js (a : string) (b : option string) : M string :=
  match b with
  | Some b' => mret (Path_join a b')
  | None => throw TypeError
  end.

(** The message of the error [rmDirectoryRecursive] throws. *)
Definition cannot_remove (itemPath : string) : string :=
  "cannot remove " +:+ quoted itemPath +:+ ", is not either a file or directory".

Definition rmDirectoryRecursive_item (rec : string → M unit)
    (dirPath itemName : string) : M unit :=
  let itemPath := Path_join dirPath itemName in
  itemStat ← fsStat itemPath;
  if isFile itemStat then fsUnlink itemPath
  else if isDirectory itemStat then rec itemPath
  else throw (Error_ (cannot_remove itemPath)).

Fixpoint rmDirectoryRecursive (fuel : nat) (dirPath : string) : M unit :=
  match fuel with
  | O => out_of_fuel
  | S fuel' =>
      files ← fsReaddir dirPath;
      forM_ files (rmDirectoryRecursive_item (rmDirectoryRecursive fuel') dirPath) ;;
      fsRmdir dirPath
  end.

Definition processAction (fuel : nat) (stageName workingPath : string)
    (action : list string) : M unit :=
  let actionType := action !! 0%nat in
  if bool_decide (actionType = Some "delete") then
    let itemName := action !! 1%nat in
    log_to actionLogger INFO ("DELETE " +:+ quoted (js_str itemName)) ;;
    itemPath ← Path_join_js workingPath itemName;
    itemExists ← fsExist itemPath;
    if (itemExists : bool) then
      stat ← fsStat itemPath;
      if isFile stat then fsUnlink itemPath
      else if isDirectory stat then rmDirectoryRecursive fuel itemPath
      else log_to actionLogger WARN
             ("path " +:+ quoted itemPath +:+ " is not either file or directory")
    else mret tt
  else if bool_decide (actionType = Some "command") then
    let commandLine := action !! 1%nat in
    log_to actionLogger INFO ("COMMAND " +:+ quoted (js_str commandLine)) ;;
    match commandLine with
    | Some commandLine' =>
        execResult ← childProcessExec commandLine' workingPath;
        console_log (fst execResult) ;;
        console_log (snd execResult)
    | None => throw TypeError
    end
  else
    log_to mainLogger WARN
      ("unknown action " +:+ quoted (js_str actionType) +:+ " in " +:+ stageName).

Definition processActions (fuel : nat) (stageName workingPath : string)
    (actions : list (list string)) : M unit :=
  log_to actionLogger TRACE ("chdir to " +:+ quoted workingPath) ;;
  chdir workingPath ;;
  forM_ actions (processAction fuel stageName workingPath).

Definition copyDirectory_item (rec : string → string → M unit)
    (sourcePath targetPath itemName : string) : M unit :=
  let sourceItemPath := Path_join sourcePath itemName in
  let targetItemPath := Path_join targetPath itemName in
  itemStat ← fsStat sourceItemPath;
  if isFile itemStat then fsCopyFile sourceItemPath targetItemPath
  else if isDirectory itemStat then rec sourceItemPath targetItemPath
  else mret tt.

Fixpoint copyDirectory (fuel : nat) (sourcePath targetPath : string) : M unit :=
  match fuel with
  | O => out_of_fuel
  | S fuel' =>
      targetExists ← fsExist targetPath;
      (if (targetExists : bool) then mret tt else fsMkdir targetPath) ;;
      files ← fsReaddir sourcePath;
      forM_ files (copyDirectory_item (copyDirectory fuel') sourcePath targetPath)
  end.

Definition processCopy_item (fuel : nat) (workingPath targetPath itemName : string)
  : M unit :=
  let sourceItemPath := Path_join workingPath itemName in
  let targetItemPath := Path_join targetPath itemName in
  sourceExists ← fsExist sourceItemPath;
  if (sourceExists : bool) then
    stat ← fsStat sourceItemPath;
    if isFile stat then
      log_to copyLogger TRACE ("copy file " +:+ quoted itemName) ;;
      fsCopyFile sourceItemPath targetItemPath
    else if isDirectory stat then
      log_to copyLogger TRACE ("copy directory " +:+ quoted itemName) ;;
      copyDirectory fuel sourceItemPath targetItemPath
    else
      log_to copyLogger WARN
        ("item " +:+ quoted sourceItemPath +:+ " is not either a file or a directory")
  else
    log_to copyLogger WARN ("item " +:+ quoted sourceItemPath +:+ " not exists, skip").

Definition processCopy (fuel : nat) (workingPath targetPath : string)
    (files : list string) : M unit :=
  targetExists ← fsExist targetPath;
  (if (targetExists : bool) then mret tt else fsMkdir targetPath) ;;
  forM_ files (processCopy_item fuel workingPath targetPath).

(** The archiver at work between [Archiver('zip', ...)] and the end of
    [archive.finalize()]: the events it emits, in the world it leaves. *)
Definition archiver_events (workingPath targetFilePath : string)
  : M (list string * (option nat + string)) :=
  λ w, match host_archiver host workingPath targetFilePath w with
       | ArchiveOk m d warnings closed =>
           (Val (warnings, inl closed), set_now d (set_fs m w))
       | ArchiveFail m d warnings msg =>
           (Val (warnings, inr msg), set_now d (set_fs m w))
       end.

(** [processPack]: the listeners on the archiver's [warning], [close] and
    [error] events around [archive.finalize()].  The [error] listener logs
    and throws; it is the archiver that calls it, not the promise chain of
    [processPack], so what it throws is caught by nobody. *)
Definition processPack (workingPath targetFilePath : string) : M unit :=
  log_to actionLogger TRACE ("chdir to " +:+ quoted workingPath) ;;
  events ← archiver_events workingPath targetFilePath;
  forM_ (fst events) (log_to archiverLogger WARN) ;;
  match snd events with
  | inl (Some bytes) =>
      log_to archiverLogger INFO ("finalized, total " +:+ toString bytes +:+ " bytes")
  | inl None => mret tt
  | inr msg =>
      log_to archiverLogger ERROR (error_text (ArchiverError msg)) ;;
      uncaught (ArchiverError msg)
  end.

(** [new Date()] *)
Definition new_Date : M Date := λ w, (Val (now w), w).

Definition processConfig (fuel : nat) (config : Configuration) : M string :=
  log_to mainLogger INFO "run copyBefore" ;;
  processActions fuel "copyBefore" workingPath (copyBefore config) ;;
  let tempPath := host_tmpdir host in
  timeNow ← new_Date;
  let timeText := timeText timeNow in
  let tempDirName := name config +:+ "-" +:+ timeText in
  let tempDirPath := Path_join tempPath tempDirName in
  log_to mainLogger INFO "run copy" ;;
  processCopy fuel workingPath tempDirPath (files config) ;;
  log_to mainLogger INFO "run copyAfter" ;;
  processActions fuel "copyAfter" workingPath (copyAfter config) ;;
  log_to mainLogger INFO "run packBefore" ;;
  processActions fuel "copyBefore" tempDirPath (packBefore config) ;;
  let targetFileName := name config +:+ "." +:+ timeText +:+ ".zip" in
  let targetFilePath := Path_join (targetPath config) targetFileName in
  log_to mainLogger INFO "run pack" ;;
  processPack tempDirPath targetFilePath ;;
  log_to mainLogger INFO "run packAfter" ;;
  processActions fuel "copyBefore" tempDirPath (packAfter config) ;;
  chdir workingPath ;;
  rmDirectoryRecursive fuel tempDirPath ;;
  mret targetFilePath.

Definition readConfig (configName : string) : M Configuration :=
  let configFilePath := Path_join workingPath configName in
  isConfigExists ← fsExist configFilePath;
  if (isConfigExists : bool) then
    configJson ← fsReadFile configFilePath;
    match host_JSON_parse host configJson with
    | Some config => mret config
    | None => throw SyntaxError
    end
  else throw (Error_ (quoted "zmpack.json" +:+ " is required")).

Definition main (fuel : nat) : M unit :=
  config ← readConfig configFileName;
  targetFilePath ← processConfig fuel config;
  log_to mainLogger INFO ("packed on " +:+ quoted targetFilePath).

(** The process from start to exit: [main().catch(err => mainLogger.error(err))].
    The program assigns no exit code and never calls [process.exit], so once
    the promise has settled, either way, the process ends with code 0; an
    uncaught exception ends it with code 1.  [None] when the fuel does not
    reach. *)
Definition run (fuel : nat) (w : World) : option (World * nat) :=
  match main fuel w with
  | (Val _, w') => Some (w', 0%nat)
  | (Throw err, w') =>
      Some (add_log (mkLog mainLogger ERROR (error_text err)) w', 0%nat)
  | (Uncaught _, w') => Some (w', 1%nat)
  | (OutOfFuel, _) => None
  end.

End Pipeline.

(** ** The pipeline as the specification words it

    The orchestrator of the specification: [copyBefore] against the project
    root; then, with the timestamp taken, the stages [copy], [copyAfter],
    [packBefore], [pack] and [packAfter] in this order, each announced and
    each attempted only if all before it succeeded; then the working
    directory goes back to the project root and the staging directory is
    deleted.  [label] is the stage name the action runner is handed for its
    warnings. *)

Inductive Stage := Copy | CopyAfter | PackBefore | Pack | PackAfter.

Definition stage_name (s : Stage) : string :=
  match s with
  | Copy => "copy"
  | CopyAfter => "copyAfter"
  | PackBefore => "packBefore"
  | Pack => "pack"
  | PackAfter => "packAfter"
  end.

Definition later_stages : list Stage := [Copy; CopyAfter; PackBefore; Pack; PackAfter].

Section SpecPipeline.

Variable host : Host.
Variable fuel : nat.
Variable label : string → string.
Variable config : Configuration.

Definition projectRoot : string := host_cwd host.

Definition stagingDirectory (timestamp : string) : string :=
  Path_join (host_tmpdir host) (name config +:+ "-" +:+ timestamp).

Definition targetArchivePath (timestamp : string) : string :=
  Path_join (targetPath config) (name config +:+ "." +:+ timestamp +:+ ".zip").

Definition announce (stage : string) : M unit :=
  log_to mainLogger INFO ("run " +:+ stage).

Definition stage_copyBefore : M unit :=
  announce "copyBefore" ;;
  processActions host fuel (label "copyBefore") projectRoot (copyBefore config).

Definition stage_body (timestamp : string) (s : Stage) : M unit :=
  match s with
  | Copy =>
      processCopy fuel projectRoot (stagingDirectory timestamp) (files config)
  | CopyAfter =>
      processActions host fuel (label "copyAfter") projectRoot (copyAfter config)
  | PackBefore =>
      processActions host fuel (label "packBefore") (stagingDirectory timestamp)
        (packBefore config)
  | Pack =>
      processPack host (stagingDirectory timestamp) (targetArchivePath timestamp)
  | PackAfter =>
      processActions host fuel (label "packAfter") (stagingDirectory timestamp)
        (packAfter config)
  end.

Definition run_stage (timestamp : string) (s : Stage) : M unit :=
  announce (stage_name s) ;; stage_body timestamp s.

Definition cleanup (timestamp : string) : M unit :=
  chdir projectRoot ;;
  rmDirectoryRecursive fuel (stagingDirectory timestamp).

Definition spec_pipeline : M string :=
  stage_copyBefore ;;
  timeNow ← new_Date;
  let timestamp := timeText timeNow in
  forM_ later_stages (run_stage timestamp) ;;
  cleanup timestamp ;;
  mret (targetArchivePath timestamp).

End SpecPipeline.

(** The labels [processConfig] hands to the runner: the two pack stages go
    under the name of [copyBefore]. *)
Definition code_label (stage : string) : string :=
  if bool_decide (stage = "copyAfter") then "copyAfter" else "copyBefore".

(** What a log says about the stages: the INFO lines of the main logger,
    which announce a stage before it starts (and report the archive at the
    end of [main]). *)
Definition is_announcement (ev : LogEvent) : Prop :=
  logger ev = mainLogger ∧ level ev = INFO.

Global Instance is_announcement_dec ev : Decision (is_announcement ev).
Proof. unfold is_announcement. apply _. Defined.

Definition announced (l : list LogEvent) : list string :=
  message <$> filter is_announcement l.

Definition stage_line (s : Stage) : string := "run " +:+ stage_name s.

Definition spec_announcements : list string :=
  "run copyBefore" :: (stage_line <$> later_stages).

(** The one line of the top-level [catch]. *)
Definition is_top_error (ev : LogEvent) : Prop :=
  logger ev = mainLogger ∧ level ev = ERROR.

(** What the runner and the walkers may log: of the main logger, warnings
    only. *)
Definition is_stage_event (ev : LogEvent) : Prop :=
  logger ev = mainLogger → level ev = WARN.

(** The INFO lines an action announces itself with. *)
Definition delete_line (itemName : string) : LogEvent :=
  mkLog actionLogger INFO ("DELETE " +:+ quoted itemName).

Definition command_line (commandLine : string) : LogEvent :=
  mkLog actionLogger INFO ("COMMAND " +:+ quoted commandLine).

(** The warning of the top-level copy about a source that is neither a
    file nor a directory. *)
Definition not_regular_line (sourceItemPath : string) : LogEvent :=
  mkLog copyLogger WARN
    ("item " +:+ quoted sourceItemPath +:+ " is not either a file or a directory").

Definition packed_line (targetFilePath : string) : LogEvent :=
  mkLog mainLogger INFO ("packed on " +:+ quoted targetFilePath).

(** ** Well-formed filesystems *)

Fixpoint no_slash (s : string) : bool :=
  match s with
  | EmptyString => true
  | String c s' => negb (is_slash c) && no_slash s'
  end.

(** A name a directory can hold: not empty, not [.] or [..], no separator. *)
Definition valid_name (n : string) : Prop :=
  n ≠ "" ∧ n ≠ "." ∧ n ≠ ".." ∧ no_slash n = true.

Global Instance valid_name_dec n : Decision (valid_name n).
Proof. unfold valid_name. apply _. Defined.

Definition names_ok (m : gmap fspath entry) : Prop :=
  map_Forall (λ p _, Forall valid_name p) m.

(** Whatever is not the root sits in a directory. *)
Definition tree_closed (m : gmap fspath entry) : Prop :=
  map_Forall (λ p _, p = [] ∨ m !! parent_of p = Some Dir) m.

Definition wf_fs (m : gmap fspath entry) : Prop := tree_closed m ∧ names_ok m.

Global Instance names_ok_dec m : Decision (names_ok m).
Proof. unfold names_ok. apply _. Defined.

Global Instance tree_closed_dec m : Decision (tree_closed m).
Proof. unfold tree_closed. apply _. Defined.

Global Instance wf_fs_dec m : Decision (wf_fs m).
Proof. unfold wf_fs. apply _. Defined.

(** Nothing at or below [p] lies [fuel] levels or more below it. *)
Definition depth_within (p : fspath) (fuel : nat) (m : gmap fspath entry) : Prop :=
  map_Forall (λ q _, p `prefix_of` q → length q < length p + fuel) m.

Global Instance depth_within_dec p fuel m : Decision (depth_within p fuel m).
Proof. unfold depth_within. apply _. Defined.

(** No entry at or below [p] is anything but a file or a directory. *)
Definition regular_under (p : fspath) (m : gmap fspath entry) : Prop :=
  map_Forall (λ q e, p `prefix_of` q → e ≠ Other) m.

(** The filesystem without [p] and all below it. *)
Definition remove_tree (p : fspath) (m : gmap fspath entry) : gmap fspath entry :=
  filter (λ kv, ¬ p `prefix_of` kv.1) m.

Global Instance regular_under_dec (p : fspath) (m : gmap fspath entry) :
  Decision (regular_under p m).
Proof. unfold regular_under. apply _. Defined.

(** The filesystem after the entries [names] of [p] have gone, one after
    the other, each with all below it. *)
Definition remove_entries (p : fspath) (names : list string)
    (m : gmap fspath entry) : gmap fspath entry :=
  foldl (λ m' n, remove_tree (p ++ [n]) m') m names.

(** What [rmDirectoryRecursive] with [fuel] comes to on a directory no
    deeper than the fuel: the tree is gone, or, where something in it is
    neither file nor directory, the program's own error. *)
Definition rm_spec (fuel : nat) : Prop :=
  ∀ dirPath w,
    isAbsolute dirPath = true → wf_fs (fs w) →
    fs w !! resolve [] dirPath = Some Dir → resolve [] dirPath ≠ [] →
    (∀ q, resolve [] dirPath `prefix_of` q → is_Some (fs w !! q) →
          length q < length (resolve [] dirPath) + fuel) →
    (regular_under (resolve [] dirPath) (fs w) →
       rmDirectoryRecursive fuel dirPath w
       = (Val tt, set_fs (remove_tree (resolve [] dirPath) (fs w)) w))
    ∧ (¬ regular_under (resolve [] dirPath) (fs w) →
       ∃ itemPath w',
         rmDirectoryRecursive fuel dirPath w
         = (Throw (Error_ (cannot_remove itemPath)), w')).

(** From [w] to [w'] nothing was written but at or below [t], and the
    names are still names. *)
Definition frame (t : fspath) (w w' : World) : Prop :=
  names_ok (fs w') ∧ ∀ q, ¬ t `prefix_of` q → fs w' !! q = fs w !! q.

(** [post R m]: whatever [m] comes to, the world it leaves is [R]-related
    to the world it started in. *)
Definition post {A} (R : relation World) (m : M A) : Prop :=
  ∀ w o w', m w = (o, w') → R w w'.

(** The log only grows, and what a step adds satisfies [P]. *)
Definition log_grows (P : LogEvent → Prop) : relation World :=
  λ w w', ∃ l, log w' = log w ++ l ∧ Forall P l.

(** The working directory stays where it is. *)
Definition same_cwd : relation World := λ w w', cwd w' = cwd w.

(** ** A concrete host and world

    The project of the specification's scenario: [/proj] holds [a.txt] and
    [sub/b.txt]; [/tmp] and [/out] exist.  The shell runs [true] and fails
    on anything else; the archiver writes the archive file. *)

Definition demo_fs : gmap fspath entry :=
  list_to_map
    [([], Dir); (["proj"], Dir); (["proj"; "zmpack.json"], File "{}");
     (["proj"; "a.txt"], File "hi"); (["proj"; "sub"], Dir);
     (["proj"; "sub"; "b.txt"], File "x"); (["proj"; "pipe"], Other);
     (["x"], File "outside");
     (["tmp"], Dir); (["out"], Dir)].

(** Friday 15 March 2024, 10:20:30. *)
Definition demo_now : Date := mkDate 2024 2 15 5 10 20 30.

Definition demo_world : World := mkWorld demo_fs ["proj"] demo_now [] [].

Definition demo_config : Configuration :=
  mkConfiguration "demo" "/out" [] [] ["a.txt"; "sub"] [] [].

Definition demo_exec (commandLine cwd : string) (w : World) : ExecResult :=
  if bool_decide (commandLine = "true") then ExecOk (fs w) (now w) "" ""
  else ExecFail (fs w) (now w) "Command failed".

Definition demo_archiver (workingPath targetFilePath : string) (w : World)
  : ArchiveResult :=
  ArchiveOk (<[resolve (cwd w) targetFilePath := File "PK"]> (fs w)) (now w) [] None.

Definition demo_host_with (config : Configuration) : Host :=
  mkHost demo_exec demo_archiver (λ _, Some config) "/proj" "/tmp".

Definition demo_host : Host := demo_host_with demo_config.

(** The same place with no configuration file in it. *)
Definition bare_world : World :=
  mkWorld (delete ["proj"; "zmpack.json"] demo_fs) ["proj"] demo_now [] [].

(** A configuration with an action of an unknown kind in [packBefore]. *)
Definition noop_config : Configuration :=
  mkConfiguration "demo" "/out" [] [] ["a.txt"; "sub"] [["noop"]] [].

(** A configuration whose first action fails and whose second would delete
    a file of the project. *)
Definition failing_config : Configuration :=
  mkConfiguration "demo" "/out" [["command"; "false"]; ["delete"; "a.txt"]] []
    ["a.txt"; "sub"] [] [].

(** ** More of what the log and the filesystem show *)

(** The warning of the action runner about a tag it does not know. *)
Definition unknown_line (stageName : string) (actionType : option string)
  : LogEvent :=
  mkLog mainLogger WARN
    ("unknown action " +:+ quoted (js_str actionType) +:+ " in " +:+ stageName).

(** The warning of a [delete] action about a path that is neither file nor
    directory. *)
Definition not_deletable_line (itemPath : string) : LogEvent :=
  mkLog actionLogger WARN
    ("path " +:+ quoted itemPath +:+ " is not either file or directory").

(** The warning of the top-level copy about a source that is not there. *)
Definition not_exists_line (sourceItemPath : string) : LogEvent :=
  mkLog copyLogger WARN ("item " +:+ quoted sourceItemPath +:+ " not exists, skip").

(** The trace lines of the runner and of the top-level copy. *)
Definition chdir_line (workingPath : string) : LogEvent :=
  mkLog actionLogger TRACE ("chdir to " +:+ quoted workingPath).

Definition copy_file_line (itemName : string) : LogEvent :=
  mkLog copyLogger TRACE ("copy file " +:+ quoted itemName).

(** What [copyDirectory] makes of a source entry: files and directories
    are mirrored, anything else is passed over. *)
Definition mirror_entry (o : option entry) : option entry :=
  match o with
  | Some Other => None
  | _ => o
  end.

(** The filesystem with the tree at [S] mirrored at [T], read at [q]. *)
Definition mirrored (S T : fspath) (m : gmap fspath entry) (q : fspath)
  : option entry :=
  if decide (T `prefix_of` q) then mirror_entry (m !! (S ++ drop (length T) q))
  else m !! q.


(** Nothing is at or below [t]. *)
Definition fresh_at (t : fspath) (m : gmap fspath entry) : Prop :=
  map_Forall (λ q _, ¬ t `prefix_of` q) m.

Global Instance fresh_at_dec t m : Decision (fresh_at t m).
Proof. unfold fresh_at. apply _. Defined.

(** What is at [q] once the entries [names] of directory [S] have been
    copied into the new directory [T]: [T] itself, under it the files and
    directories [S] has under these names, and outside it what was there. *)
Definition staged (S T : fspath) (names : list string) (m : gmap fspath entry)
    (q : fspath) : option entry :=
  if decide (T `prefix_of` q) then
    match drop (length T) q with
    | [] => Some Dir
    | n :: r => if decide (n ∈ names) then mirror_entry (m !! (S ++ n :: r)) else None
    end
  else m !! q.

(** From [w] to [w'] nothing was added or altered, nothing outside [t]
    removed, and the log and the working directory are as they were. *)
Definition only_removed_below (t : fspath) (w w' : World) : Prop :=
  (∀ q, fs w' !! q = fs w !! q ∨ (t `prefix_of` q ∧ fs w' !! q = None))
  ∧ log w' = log w ∧ cwd w' = cwd w.

(** What [copyDirectory] with [fuel] comes to on a source directory no
    deeper than the fuel and a target that is not there yet: it returns,
    and the filesystem is the old one with the target directory staged
    from all the source directory holds. *)
Definition copy_spec (fuel : nat) : Prop :=
  ∀ sourcePath targetPath w,
    isAbsolute sourcePath = true → isAbsolute targetPath = true →
    wf_fs (fs w) →
    fs w !! resolve [] sourcePath = Some Dir →
    fs w !! parent_of (resolve [] targetPath) = Some Dir →
    fresh_at (resolve [] targetPath) (fs w) →
    ¬ resolve [] sourcePath `prefix_of` resolve [] targetPath →
    depth_within (resolve [] sourcePath) fuel (fs w) →
    ∃ w', copyDirectory fuel sourcePath targetPath w = (Val tt, w')
          ∧ ∀ q, fs w' !! q
                 = staged (resolve [] sourcePath) (resolve [] targetPath)
                     (children (resolve [] sourcePath) (fs w)) (fs w) q.

(** ** The filesystem with symbolic links

    The program classifies what it finds with [FS.stat], which follows
    symbolic links, as does [FS.readdir]; [FS.unlink] and [FS.rmdir] act on
    the name they are given.  [rmDirectoryRecursive] is embedded a second
    time on a world that holds, beside the files, directories and other
    objects, the symbolic links with the path text they hold. *)

(** The path string of a place: [/a/b] for [a; b]. *)
Definition path_string (q : fspath) : string := "/" +:+ join_slash q.

Module Links.

Inductive node :=
| Object (e : entry)
| Symlink (target : string).

Record LinkedWorld := mkLinked {
  plain : World;
  links : gmap fspath string
}.

Definition set_plain (w : World) (lw : LinkedWorld) : LinkedWorld :=
  mkLinked w (links lw).

Definition set_links (ls : gmap fspath string) (lw : LinkedWorld) : LinkedWorld :=
  mkLinked (plain lw) ls.

Definition node_at (lw : LinkedWorld) (q : fspath) : option node :=
  match links lw !! q with
  | Some target => Some (Symlink target)
  | None => Object <$> fs (plain lw) !! q
  end.

(** The number of symbolic links the kernel follows in one path walk. *)
Definition MAXSYMLINKS : nat := 40.

(** The kernel's walk along the components of a path from directory
    [cur]: [.] and empty components stay, [..] goes to the parent as the
    filesystem has it, a directory is entered, a symbolic link met before
    the end (or at the end, when [follow] is set) is replaced by the
    components of its target, up to [MAXSYMLINKS] times.  The walk yields
    the place of the last component, whether something is there or not. *)
Fixpoint walk (budget : nat) (lw : LinkedWorld) (follow : bool)
    (cur : fspath) (comps : list string) {struct budget} : error + fspath :=
  match budget with
  | O => inl ELOOP
  | S budget' =>
      (fix go (cur : fspath) (comps : list string) {struct comps} : error + fspath :=
         match comps with
         | [] => inr cur
         | c :: rest =>
             if bool_decide (c = "" ∨ c = ".") then go cur rest
             else if bool_decide (c = "..") then go (parent_of cur) rest
             else
               match node_at lw (cur ++ [c]) with
               | Some (Object Dir) => go (cur ++ [c]) rest
               | Some (Object _) =>
                   if bool_decide (rest = []) then inr (cur ++ [c]) else inl ENOTDIR
               | Some (Symlink target) =>
                   if bool_decide (rest = []) && negb follow then inr (cur ++ [c])
                   else if bool_decide (target = "") then inl ENOENT
                   else walk budget' lw follow
                          (if isAbsolute target then [] else cur)
                          (split_slash target ++ rest)
               | None =>
                   if bool_decide (rest = []) then inr (cur ++ [c]) else inl ENOENT
               end
         end) cur comps
  end.

(** The components without the empty ones at the end: a call that acts
    on a name ([unlink], [rmdir]) looks up the parent and then the last
    name, whatever separators follow it. *)
Fixpoint trim (comps : list string) : list string :=
  match comps with
  | [] => []
  | c :: rest =>
      match trim rest with
      | [] => if bool_decide (c = "") then [] else [c]
      | rest' => c :: rest'
      end
  end.

Definition namei (follow : bool) (lw : LinkedWorld) (path : string)
  : error + fspath :=
  if bool_decide (path = "") then inl ENOENT
  else walk (S MAXSYMLINKS) lw follow
         (if isAbsolute path then [] else cwd (plain lw))
         (if follow then split_slash path else trim (split_slash path)).

(** What [FS.stat] finds at a path, links followed. *)
Definition stat_entry (lw : LinkedWorld) (path : string) : error + entry :=
  match namei true lw path with
  | inl e => inl e
  | inr p =>
      match node_at lw p with
      | Some (Object e) => inr e
      | Some (Symlink _) => inl ELOOP
      | None => inl ENOENT
      end
  end.

(** The names directly inside directory [p]: objects and links. *)
Definition link_names (p : fspath) (lw : LinkedWorld) : list string :=
  omap (child_name p) (elements (dom (links lw))).

Definition entries (p : fspath) (lw : LinkedWorld) : list string :=
  children p (fs (plain lw)) ++ link_names p lw.

Definition L (A : Type) : Type := LinkedWorld → outcome A * LinkedWorld.

#[local] Instance L_ret : MRet L := λ A a lw, (Val a, lw).

#[local] Instance L_bind : MBind L := λ A B f m lw,
  match m lw with
  | (Val a, lw') => f a lw'
  | (Throw e, lw') => (Throw e, lw')
  | (Uncaught e, lw') => (Uncaught e, lw')
  | (OutOfFuel, lw') => (OutOfFuel, lw')
  end.

Definition throw {A : Type} (e : error) : L A := λ lw, (Throw e, lw).

Definition out_of_fuel {A : Type} : L A := λ lw, (OutOfFuel, lw).

Fixpoint forM_ {A : Type} (l : list A) (body : A → L unit) : L unit :=
  match l with
  | [] => mret tt
  | x :: l' => body x ;; forM_ l' body
  end.

Definition fsStat (path : string) : L Stats :=
  λ lw, match stat_entry lw path with
        | inr e => (Val (stats_of e), lw)
        | inl err => (Throw err, lw)
        end.

Definition fsReaddir (path : string) : L (list string) :=
  λ lw, match namei true lw path with
        | inl err => (Throw err, lw)
        | inr p =>
            match node_at lw p with
            | Some (Object Dir) => (Val (entries p lw), lw)
            | Some _ => (Throw ENOTDIR, lw)
            | None => (Throw ENOENT, lw)
            end
        end.

(** [unlink] removes the name: a symbolic link goes, not its target. *)
Definition fsUnlink (path : string) : L unit :=
  λ lw, match namei false lw path with
        | inl err => (Throw err, lw)
        | inr p =>
            match node_at lw p with
            | Some (Object Dir) => (Throw EISDIR, lw)
            | Some (Object _) =>
                if trailingSeparator path then (Throw ENOTDIR, lw)
                else (Val tt, set_plain (set_fs (delete p (fs (plain lw))) (plain lw)) lw)
            | Some (Symlink _) =>
                if trailingSeparator path then (Throw ENOTDIR, lw)
                else (Val tt, set_links (delete p (links lw)) lw)
            | None => (Throw ENOENT, lw)
            end
        end.

(** [rmdir] on a symbolic link fails, whatever the link leads to. *)
Definition fsRmdir (path : string) : L unit :=
  λ lw, match namei false lw path with
        | inl err => (Throw err, lw)
        | inr p =>
            match node_at lw p with
            | Some (Object Dir) =>
                if bool_decide (p = []) then (Throw EBUSY, lw)
                else if bool_decide (entries p lw = []) then
                  (Val tt, set_plain (set_fs (delete p (fs (plain lw))) (plain lw)) lw)
                else (Throw ENOTEMPTY, lw)
            | Some _ => (Throw ENOTDIR, lw)
            | None => (Throw ENOENT, lw)
            end
        end.

Definition rmDirectoryRecursive_item (rec : string → L unit)
    (dirPath itemName : string) : L unit :=
  let itemPath := Path_join dirPath itemName in
  itemStat ← fsStat itemPath;
  if isFile itemStat then fsUnlink itemPath
  else if isDirectory itemStat then rec itemPath
  else throw (Error_ (cannot_remove itemPath)).

Fixpoint rmDirectoryRecursive (fuel : nat) (dirPath : string) : L unit :=
  match fuel with
  | O => out_of_fuel
  | S fuel' =>
      files ← fsReaddir dirPath;
      forM_ files (rmDirectoryRecursive_item (rmDirectoryRecursive fuel') dirPath) ;;
      fsRmdir dirPath
  end.

(** A run of the link-free embedding, seen with the links there are. *)
Definition lift {A : Type} (ls : gmap fspath string) (r : outcome A * World)
  : outcome A * LinkedWorld :=
  (r.1, mkLinked r.2 ls).

(** From [lw] to [lw'] nothing was added or altered: every object and
    every link is as it was, or gone; the log, the working directory, the
    clock and the console are as they were. *)
Definition only_removed (lw lw' : LinkedWorld) : Prop :=
  (∀ q, fs (plain lw') !! q = fs (plain lw) !! q ∨ fs (plain lw') !! q = None)
  ∧ (∀ q, links lw' !! q = links lw !! q ∨ links lw' !! q = None)
  ∧ log (plain lw') = log (plain lw) ∧ cwd (plain lw') = cwd (plain lw)
  ∧ now (plain lw') = now (plain lw) ∧ console (plain lw') = console (plain lw).

(** No symbolic link on the way to [p], at [p] or below it. *)
Definition no_link_near (p : fspath) (lw : LinkedWorld) : Prop :=
  map_Forall (λ q _, ¬ q `prefix_of` p ∧ ¬ p `prefix_of` q) (links lw).

Global Instance no_link_near_dec p lw : Decision (no_link_near p lw).
Proof. unfold no_link_near. apply _. Defined.

End Links.

(** A project with a tree that holds a file and a symbolic link to the
    directory [/out], which holds a file of its own. *)
Definition linked_world : Links.LinkedWorld :=
  Links.mkLinked
    (mkWorld
       (list_to_map
          [([], Dir); (["proj"], Dir); (["proj"; "tree"], Dir);
           (["proj"; "tree"; "a.txt"], File "hi");
           (["out"], Dir); (["out"; "keep.txt"], File "keep")])
       ["proj"] demo_now [] [])
    (list_to_map [(["proj"; "tree"; "link"], "/out")]).

(** The demo project seen as a world with links, of which it has none. *)
Definition demo_linked : Links.LinkedWorld := Links.mkLinked demo_world ∅.

(** ** What the stages come to *)

Definition announcement (stage : string) : LogEvent :=
  mkLog mainLogger INFO ("run " +:+ stage).

(** The world an action stage runs its actions in: the trace line is
    logged and the process stands in the stage's directory. *)
Definition in_directory (directory : string) (w : World) : World :=
  set_cwd (resolve (cwd w) directory) (add_log (chdir_line directory) w).

(** The directory and the actions of the action stages after the copy:
    [copyAfter] against the project root, the two pack stages against the
    staging directory. *)
Definition action_stage (host : Host) (config : Configuration) (timestamp : string)
    (s : Stage) : option (string * list (list string)) :=
  match s with
  | CopyAfter => Some (projectRoot host, copyAfter config)
  | PackBefore => Some (stagingDirectory host config timestamp, packBefore config)
  | PackAfter => Some (stagingDirectory host config timestamp, packAfter config)
  | Copy | Pack => None
  end.

(** What the archiver's listeners log for its warnings and its [close]
    event. *)
Definition archiver_lines (warnings : list string) (closed : option nat)
  : list LogEvent :=
  (mkLog archiverLogger WARN <$> warnings)
  ++ match closed with
     | Some bytes =>
         [mkLog archiverLogger INFO
            ("finalized, total " +:+ toString bytes +:+ " bytes")]
     | None => []
     end.

(** The line of the archiver's [error] listener. *)
Definition archiver_error_line (msg : string) : LogEvent :=
  mkLog archiverLogger ERROR (error_text (ArchiverError msg)).

(** An exception nobody catches comes from the archiver's [error]
    listener: it is the archiver's error, its line is the last of the log,
    and no line of the top-level [catch] was logged since [w]. *)
Definition archiver_failed (w : World) (e : error) (w' : World) : Prop :=
  ∃ msg l, e = ArchiverError msg
           ∧ log w' = log w ++ l ++ [archiver_error_line msg]
           ∧ Forall (λ ev, ¬ is_top_error ev) l.

Definition uncaught_only_as (P : World → error → World → Prop) {A : Type}
    (m : M A) : Prop :=
  ∀ w e w', m w = (Uncaught e, w') → P w e w'.

(** ** More of the demo project *)

(** An archiver that writes into the archive the names it finds in the
    directory it is given. *)
Definition listing_archiver (workingPath targetFilePath : string) (w : World)
  : ArchiveResult :=
  ArchiveOk
    (<[resolve (cwd w) targetFilePath :=
         File (join_slash (children (resolve (cwd w) workingPath) (fs w)))]> (fs w))
    (now w) [] None.

Definition listing_host : Host :=
  mkHost demo_exec listing_archiver (λ _, Some demo_config) "/proj" "/tmp".

(** The demo project at a moment when the temporary directory holds a
    directory of the staging directory's name already, left by an earlier
    run of the same second. *)
Definition stale_world : World :=
  mkWorld
    (<[["tmp"; "demo-20240205102030"; "stale.txt"] := File "old"]>
       (<[["tmp"; "demo-20240205102030"] := Dir]> demo_fs))
    ["proj"] demo_now [] [].

(** A configuration whose last action deletes the staging directory. *)
Definition self_deleting_config : Configuration :=
  mkConfiguration "demo" "/out" [] [] ["a.txt"; "sub"] [] [["delete"; "."]].

(** An archiver that fails. *)
Definition failing_archiver (workingPath targetFilePath : string) (w : World)
  : ArchiveResult :=
  ArchiveFail (fs w) (now w) [] "disk full".

Definition failing_archiver_host : Host :=
  mkHost demo_exec failing_archiver (λ _, Some demo_config) "/proj" "/tmp".
(** * Properties *)

Section Proofs.

Variable host : Host.

(** ** The monad *)

Lemma bind_eq {A B} (m : M A) (f : A → M B) w :
  (m ≫= f) w = match m w with
               | (Val a, w') => f a w'
               | (Throw e, w') => (Throw e, w')
               | (Uncaught e, w') => (Uncaught e, w')
               | (OutOfFuel, w') => (OutOfFuel, w')
               end.
Proof. reflexivity. Qed.

Lemma bind_val {A B} (m : M A) (f : A → M B) w a w' :
  m w = (Val a, w') → (m ≫= f) w = f a w'.
Proof. intros H. rewrite bind_eq, H. reflexivity. Qed.

Lemma bind_throw {A B} (m : M A) (f : A → M B) w e w' :
  m w = (Throw e, w') → (m ≫= f) w = (Throw e, w').
Proof. intros H. rewrite bind_eq, H. reflexivity. Qed.

Lemma bind_assoc {A B C} (m : M A) (f : A → M B) (g : B → M C) w :
  ((m ≫= f) ≫= g) w = (m ≫= λ a, f a ≫= g) w.
Proof. rewrite !bind_eq. destruct (m w) as [[a|e|e|] w']; reflexivity. Qed.

Lemma forM_cons {A} (x : A) l body w :
  forM_ (x :: l) body w = (body x ≫= λ _, forM_ l body) w.
Proof. reflexivity. Qed.

Lemma forM_app {A} (l1 l2 : list A) body w :
  forM_ (l1 ++ l2) body w = (forM_ l1 body ≫= λ _, forM_ l2 body) w.
Proof.
  revert w. induction l1 as [|x l1 IH]; intros w; simpl.
  - reflexivity.
  - rewrite !bind_eq. destruct (body x w) as [[[]|e|e|] w1]; try reflexivity.
    rewrite IH. reflexivity.
Qed.

Lemma fsExist_eq p w :
  fsExist p w = (Val (bool_decide (is_Some (stat_entry w p))), w).
Proof. reflexivity. Qed.

Lemma stat_entry_add_log ev w s : stat_entry (add_log ev w) s = stat_entry w s.
Proof. reflexivity. Qed.

Lemma fsExist_some p w e :
  stat_entry w p = Some e → fsExist p w = (Val true, w).
Proof.
  intros H. rewrite fsExist_eq, H, bool_decide_eq_true_2; eauto.
Qed.

Lemma fsExist_none p w :
  stat_entry w p = None → fsExist p w = (Val false, w).
Proof.
  intros H. rewrite fsExist_eq, H, bool_decide_eq_false_2; [done|].
  intros [x Hx]. discriminate.
Qed.

Lemma fsStat_some p w e :
  stat_entry w p = Some e → fsStat p w = (Val (stats_of e), w).
Proof. intros H. unfold fsStat. rewrite H. reflexivity. Qed.

(** ** The action runner *)

(** C7: a [delete] action whose resolved path does not exist raises no
    error and logs no warning: it leaves the world as it was but for its
    own INFO line, and the loop goes on with the next action. *)
Theorem delete_missing_is_silent_noop fuel stageName workingPath itemName rest
    actions w :
  stat_entry w (Path_join workingPath itemName) = None →
  processAction host fuel stageName workingPath ("delete" :: itemName :: rest) w
    = (Val tt, add_log (delete_line itemName) w)
  ∧ forM_ (("delete" :: itemName :: rest) :: actions)
          (processAction host fuel stageName workingPath) w
    = forM_ actions (processAction host fuel stageName workingPath)
          (add_log (delete_line itemName) w).
Proof.
  intros Hnone.
  assert (Hstep : processAction host fuel stageName workingPath
                    ("delete" :: itemName :: rest) w
                  = (Val tt, add_log (delete_line itemName) w)).
  { unfold processAction. simpl.
    rewrite bind_eq. simpl. rewrite bind_eq. simpl.
    rewrite bind_eq, fsExist_none; [reflexivity|].
    rewrite stat_entry_add_log. exact Hnone. }
  split; [exact Hstep|].
  rewrite forM_cons. erewrite bind_val by exact Hstep. reflexivity.
Qed.

(** When the shell fails on a [command] action the loop rejects with that
    failure in the world the command left; the actions that follow are not
    looked at. *)
Lemma command_failure_stops_loop fuel stageName workingPath pre commandLine rest
    post w w1 m d msg :
  forM_ pre (processAction host fuel stageName workingPath) w = (Val tt, w1) →
  host_exec host commandLine workingPath (add_log (command_line commandLine) w1)
    = ExecFail m d msg →
  forM_ (pre ++ ("command" :: commandLine :: rest) :: post)
        (processAction host fuel stageName workingPath) w
    = (Throw (ExecError msg),
       set_now d (set_fs m (add_log (command_line commandLine) w1))).
Proof.
  intros Hpre Hfail.
  rewrite forM_app. erewrite bind_val by exact Hpre.
  rewrite forM_cons. apply bind_throw.
  unfold processAction. simpl.
  rewrite bind_eq. simpl. rewrite bind_eq.
  unfold childProcessExec. unfold command_line in Hfail. simpl in Hfail.
  rewrite Hfail. reflexivity.
Qed.

(** ** The pipeline is the sequence of its stages *)

Lemma log_to_bind {B} lg lv msg (f : unit → M B) w :
  (log_to lg lv msg ≫= f) w = f tt (add_log (mkLog lg lv msg) w).
Proof. reflexivity. Qed.

Lemma new_Date_bind {B} (f : Date → M B) w :
  (new_Date ≫= f) w = f (now w) w.
Proof. reflexivity. Qed.

Lemma bind_cong {A B} (m : M A) (f g : A → M B) w :
  (∀ a w', f a w' = g a w') → (m ≫= f) w = (m ≫= g) w.
Proof.
  intros H. rewrite !bind_eq. destruct (m w) as [[a|e|e|] w']; auto.
Qed.

Lemma ret_bind {A B} (a : A) (f : A → M B) w : (mret a ≫= f) w = f a w.
Proof. reflexivity. Qed.

Ltac pipeline_step :=
  rewrite ?bind_assoc;
  first [ rewrite !log_to_bind
        | rewrite !new_Date_bind
        | rewrite !ret_bind
        | apply bind_cong; intros [] ? ].

Lemma processConfig_spec_pipeline fuel config w :
  processConfig host fuel config w = spec_pipeline host fuel code_label config w.
Proof.
  unfold processConfig, spec_pipeline, stage_copyBefore, announce, later_stages,
    forM_, run_stage, stage_body, announce, cleanup, stage_name, projectRoot,
    stagingDirectory, targetArchivePath, workingPath.
  change (code_label "copyBefore") with "copyBefore".
  change (code_label "copyAfter") with "copyAfter".
  change (code_label "packBefore") with "copyBefore".
  change (code_label "packAfter") with "copyBefore".
  repeat pipeline_step. reflexivity.
Qed.

(** ** What every step of a computation preserves *)

Section Post.

Context (R : relation World) `{!Reflexive R, !Transitive R}.

Lemma post_ret {A} (a : A) : post R (mret a).
Proof. intros w o w' [= <- <-]. reflexivity. Qed.

Lemma post_throw {A} e : post R (@throw A e).
Proof. intros w o w' [= <- <-]. reflexivity. Qed.

Lemma post_uncaught {A} e : post R (@uncaught A e).
Proof. intros w o w' [= <- <-]. reflexivity. Qed.

Lemma post_out_of_fuel {A} : post R (@out_of_fuel A).
Proof. intros w o w' [= <- <-]. reflexivity. Qed.

Lemma post_bind {A B} (m : M A) (f : A → M B) :
  post R m → (∀ a, post R (f a)) → post R (m ≫= f).
Proof.
  intros Hm Hf w o w'. rewrite bind_eq.
  destruct (m w) as [[a|e|e|] w1] eqn:E; specialize (Hm _ _ _ E).
  - intros Hfa. etransitivity; [exact Hm|]. eapply Hf, Hfa.
  - intros [= <- <-]. exact Hm.
  - intros [= <- <-]. exact Hm.
  - intros [= <- <-]. exact Hm.
Qed.

Lemma post_forM {A} (l : list A) (body : A → M unit) :
  (∀ x, post R (body x)) → post R (forM_ l body).
Proof.
  intros Hbody. induction l as [|x l IH]; simpl.
  - apply post_ret.
  - apply post_bind; [apply Hbody | intros _; exact IH].
Qed.

(** A step that leaves the world untouched, or changes of it only what
    [R] does not look at. *)
Lemma post_pure {A} (m : M A) :
  (∀ w, R w (m w).2) → post R m.
Proof. intros H w o w' E. specialize (H w). rewrite E in H. exact H. Qed.

End Post.

Global Instance log_grows_refl P : Reflexive (log_grows P).
Proof. intros w. exists []. by rewrite app_nil_r. Qed.

Global Instance log_grows_trans P : Transitive (log_grows P).
Proof.
  intros w1 w2 w3 (l1 & E1 & H1) (l2 & E2 & H2). exists (l1 ++ l2).
  split; [by rewrite E2, E1, app_assoc | by apply Forall_app].
Qed.

Lemma log_grows_same P w w' : log w' = log w → log_grows P w w'.
Proof. intros E. exists []. by rewrite app_nil_r. Qed.

Lemma log_grows_mono (P Q : LogEvent → Prop) w w' :
  (∀ ev, P ev → Q ev) → log_grows P w w' → log_grows Q w w'.
Proof.
  intros HPQ (l & E & H). exists l. split; [done|].
  eapply Forall_impl; eauto.
Qed.

Section LogInvariant.

Variable P : LogEvent → Prop.

Lemma post_log_to lg lv msg : P (mkLog lg lv msg) → post (log_grows P) (log_to lg lv msg).
Proof.
  intros HP w o w' [= <- <-]. exists [mkLog lg lv msg]. split; [done|].
  by constructor.
Qed.

Lemma post_log_fsExist p : post (log_grows P) (fsExist p).
Proof. intros w o w' [= <- <-]. reflexivity. Qed.

Lemma post_log_fsStat p : post (log_grows P) (fsStat p).
Proof.
  apply post_pure. intros w. unfold fsStat.
  destruct (stat_entry w p); reflexivity.
Qed.

Lemma post_log_fsReadFile p : post (log_grows P) (fsReadFile p).
Proof.
  apply post_pure. intros w. unfold fsReadFile.
  destruct (stat_entry w p) as [[]|]; reflexivity.
Qed.

Lemma post_log_fsReaddir p : post (log_grows P) (fsReaddir p).
Proof.
  apply post_pure. intros w. unfold fsReaddir.
  destruct (stat_entry w p) as [[]|]; reflexivity.
Qed.

Lemma post_log_fsUnlink p : post (log_grows P) (fsUnlink p).
Proof.
  apply post_pure. intros w. unfold fsUnlink.
  destruct (stat_entry w p) as [[]|]; simpl; by apply log_grows_same.
Qed.

Lemma post_log_fsRmdir p : post (log_grows P) (fsRmdir p).
Proof.
  apply post_pure. intros w. unfold fsRmdir.
  destruct (stat_entry w p) as [[]|]; simpl; try by apply log_grows_same.
  repeat case_bool_decide; simpl; by apply log_grows_same.
Qed.

Lemma post_log_fsMkdir p : post (log_grows P) (fsMkdir p).
Proof.
  apply post_pure. intros w. unfold fsMkdir.
  case_bool_decide; simpl; [by apply log_grows_same|].
  destruct (fs w !! resolve (cwd w) p); simpl; [by apply log_grows_same|].
  destruct (fs w !! parent_of (resolve (cwd w) p)) as [[]|]; simpl;
    by apply log_grows_same.
Qed.

Lemma post_log_fsCopyFile s d : post (log_grows P) (fsCopyFile s d).
Proof.
  apply post_pure. intros w. unfold fsCopyFile.
  destruct (stat_entry w s) as [[]|]; simpl; try by apply log_grows_same.
  case_bool_decide; simpl; [by apply log_grows_same|].
  destruct (fs w !! resolve (cwd w) d) as [[]|]; simpl;
    try destruct (trailingSeparator d); simpl; try by apply log_grows_same.
  destruct (fs w !! parent_of (resolve (cwd w) d)) as [[]|]; simpl;
    by apply log_grows_same.
Qed.

Lemma post_log_chdir d : post (log_grows P) (chdir d).
Proof.
  apply post_pure. intros w. unfold chdir.
  destruct (stat_entry w d) as [[]|]; simpl; by apply log_grows_same.
Qed.

Lemma post_log_console_log s : post (log_grows P) (console_log s).
Proof. intros w o w' [= <- <-]. by apply log_grows_same. Qed.

Lemma post_log_new_Date : post (log_grows P) new_Date.
Proof. intros w o w' [= <- <-]. reflexivity. Qed.

Lemma post_log_childProcessExec c d : post (log_grows P) (childProcessExec host c d).
Proof.
  apply post_pure. intros w. unfold childProcessExec.
  destruct (host_exec host c d w); simpl; by apply log_grows_same.
Qed.

Lemma post_log_archiver_events s t : post (log_grows P) (archiver_events host s t).
Proof.
  apply post_pure. intros w. unfold archiver_events.
  destruct (host_archiver host s t w); simpl; by apply log_grows_same.
Qed.

Create HintDb post_log.

Hint Resolve post_log_fsExist post_log_fsStat post_log_fsReadFile
  post_log_fsReaddir post_log_fsUnlink post_log_fsRmdir post_log_fsMkdir
  post_log_fsCopyFile post_log_chdir post_log_console_log post_log_new_Date
  post_log_childProcessExec post_log_archiver_events : post_log.

Ltac post_log_step :=
  first
    [ apply post_bind; try apply _; [ | intros ?]
    | apply post_forM; try apply _; intros ?
    | apply post_ret; apply _
    | apply post_throw; apply _
    | apply post_uncaught; apply _
    | apply post_out_of_fuel; apply _
    | apply post_log_to
    | solve [eauto with post_log]
    | match goal with
      | |- post _ (if ?b then _ else _) => destruct b
      | |- post _ (match ?x with _ => _ end) => destruct x
      end ].

Lemma post_log_rmDirectoryRecursive fuel dirPath :
  post (log_grows P) (rmDirectoryRecursive fuel dirPath).
Proof.
  revert dirPath. induction fuel as [|fuel IH]; intros dirPath; simpl.
  - post_log_step.
  - unfold rmDirectoryRecursive_item. repeat post_log_step.
Qed.

Lemma post_log_copyDirectory fuel sourcePath targetPath :
  post (log_grows P) (copyDirectory fuel sourcePath targetPath).
Proof.
  revert sourcePath targetPath.
  induction fuel as [|fuel IH]; intros sourcePath targetPath; simpl.
  - post_log_step.
  - unfold copyDirectory_item. repeat post_log_step.
Qed.

Hypothesis P_sub : ∀ ev, (logger ev = mainLogger → level ev = WARN) → P ev.

Lemma post_log_processAction fuel stageName workingPath action :
  post (log_grows P) (processAction host fuel stageName workingPath action).
Proof.
  unfold processAction, Path_join_js.
  repeat post_log_step; try (apply P_sub; simpl; congruence).
  all: try apply post_log_rmDirectoryRecursive.
Qed.

Lemma post_log_processActions fuel stageName workingPath actions :
  post (log_grows P) (processActions host fuel stageName workingPath actions).
Proof.
  unfold processActions.
  repeat post_log_step; try (apply P_sub; simpl; congruence).
  apply post_log_processAction.
Qed.

Lemma post_log_processCopy fuel workingPath targetPath files :
  post (log_grows P) (processCopy fuel workingPath targetPath files).
Proof.
  unfold processCopy, processCopy_item.
  repeat post_log_step; try (apply P_sub; simpl; congruence).
  all: try apply post_log_copyDirectory.
Qed.

Lemma post_log_processPack workingPath targetFilePath :
  post (log_grows P) (processPack host workingPath targetFilePath).
Proof.
  unfold processPack.
  repeat post_log_step; try (apply P_sub; simpl; congruence).
Qed.

End LogInvariant.

(** ** What a run logs *)

Lemma announced_app l1 l2 : announced (l1 ++ l2) = announced l1 ++ announced l2.
Proof. unfold announced. by rewrite filter_app, fmap_app. Qed.

Lemma announced_stage_events l : Forall is_stage_event l → announced l = [].
Proof.
  unfold announced. induction 1 as [|ev l Hev _ IH]; [done|].
  rewrite filter_cons_False; [exact IH|].
  intros [Hl Hv]. specialize (Hev Hl). congruence.
Qed.

Lemma stage_events_no_top_error l :
  Forall is_stage_event l → Forall (λ ev, ¬ is_top_error ev) l.
Proof.
  intros H. eapply Forall_impl; [exact H|].
  intros ev Hev [Hl Hv]. specialize (Hev Hl). congruence.
Qed.

Lemma stage_body_log fuel label config timestamp s :
  post (log_grows is_stage_event) (stage_body host fuel label config timestamp s).
Proof.
  destruct s; simpl.
  - apply post_log_processCopy; auto.
  - apply post_log_processActions; auto.
  - apply post_log_processActions; auto.
  - apply post_log_processPack; auto.
  - apply post_log_processActions; auto.
Qed.

Lemma cleanup_log fuel config timestamp :
  post (log_grows is_stage_event) (cleanup host fuel config timestamp).
Proof.
  unfold cleanup. apply post_bind; try apply _.
  - apply post_log_chdir.
  - intros _. apply post_log_rmDirectoryRecursive.
Qed.

(** The announcements of a run of stages: one per stage started, in the
    order of the list; all of them if every stage succeeded. *)
Lemma run_stages_announced fuel label config timestamp stages w o w' :
  forM_ stages (run_stage host fuel label config timestamp) w = (o, w') →
  ∃ l, log w' = log w ++ l
       ∧ Forall (λ ev, ¬ is_top_error ev) l
       ∧ announced l `prefix_of` (stage_line <$> stages)
       ∧ (o = Val tt → announced l = stage_line <$> stages).
Proof.
  revert w. induction stages as [|s stages IH]; intros w.
  { intros [= <- <-]. exists []. rewrite app_nil_r. repeat split; auto. }
  rewrite forM_cons, fmap_cons.
  set (ev := mkLog mainLogger INFO ("run " +:+ stage_name s)).
  assert (Hrs : run_stage host fuel label config timestamp s w
                = stage_body host fuel label config timestamp s (add_log ev w))
    by reflexivity.
  rewrite bind_eq, Hrs. clear Hrs.
  assert (Hev : ¬ is_top_error ev) by (intros [_ Hx]; discriminate).
  destruct (stage_body host fuel label config timestamp s (add_log ev w))
    as [[[]|e|e|] w1] eqn:E;
    destruct (stage_body_log _ _ _ _ _ _ _ _ E) as (l1 & E1 & H1); simpl in E1.
  2-4: intros [= <- <-]; exists (ev :: l1); rewrite E1;
    (split; [by rewrite <- app_assoc|]);
    (split; [constructor; [done|by apply stage_events_no_top_error]|]);
    change (ev :: l1) with ([ev] ++ l1); rewrite announced_app;
    rewrite (announced_stage_events l1) by done;
    (split; [|done]); apply prefix_cons, prefix_nil.
  intros Hrest. destruct (IH _ Hrest) as (l2 & E2 & H2 & Hp & Hv).
  exists ((ev :: l1) ++ l2). rewrite E2, E1.
  split; [by rewrite <- !app_assoc|].
  split.
  { apply Forall_app. split; [|done].
    constructor; [done|by apply stage_events_no_top_error]. }
  rewrite announced_app. change (ev :: l1) with ([ev] ++ l1).
  rewrite announced_app, (announced_stage_events l1) by done.
  split; [by apply prefix_cons|]. intros Ho. simpl. by rewrite Hv.
Qed.

Lemma processConfig_log fuel config w o w' :
  processConfig host fuel config w = (o, w') →
  ∃ l, log w' = log w ++ l
       ∧ Forall (λ ev, ¬ is_top_error ev) l
       ∧ announced l `prefix_of` spec_announcements
       ∧ (∀ v, o = Val v → announced l = spec_announcements).
Proof.
  rewrite processConfig_spec_pipeline. unfold spec_pipeline, spec_announcements.
  set (ev := mkLog mainLogger INFO "run copyBefore").
  assert (Hev : ¬ is_top_error ev) by (intros [_ Hx]; discriminate).
  assert (Hfail : ∀ l1, Forall is_stage_event l1 →
            Forall (λ ev, ¬ is_top_error ev) (ev :: l1)
            ∧ announced (ev :: l1) `prefix_of`
                "run copyBefore" :: (stage_line <$> later_stages)).
  { intros l1 H1. split.
    - constructor; [done|]. by apply stage_events_no_top_error.
    - change (ev :: l1) with ([ev] ++ l1). rewrite announced_app.
      rewrite (announced_stage_events l1) by done.
      apply prefix_cons, prefix_nil. }
  assert (Hcb : stage_copyBefore host fuel code_label config w
                = processActions host fuel "copyBefore" (host_cwd host)
                    (copyBefore config) (add_log ev w)) by reflexivity.
  rewrite bind_eq, Hcb. clear Hcb.
  destruct (processActions host fuel "copyBefore" (host_cwd host)
              (copyBefore config) (add_log ev w)) as [[[]|e|e|] w1] eqn:E1;
    destruct (post_log_processActions is_stage_event (λ _ H, H) _ _ _ _ _ _ _ E1)
      as (l1 & El1 & H1); simpl in El1;
    destruct (Hfail l1 H1) as [Hf1 Hf2].
  2-4: intros [= <- <-]; exists (ev :: l1); rewrite El1, <- app_assoc;
       repeat split; auto; intros v; discriminate.
  rewrite new_Date_bind, bind_eq.
  destruct (forM_ later_stages
              (run_stage host fuel code_label config (timeText (now w1))) w1)
    as [[[]|e|e|] w2] eqn:E2;
    destruct (run_stages_announced _ _ _ _ _ _ _ _ E2) as (l2 & El2 & H2 & Hp2 & Hv2).
  2-4: intros [= <- <-]; exists ((ev :: l1) ++ l2); rewrite El2, El1, <- !app_assoc;
       (split; [done|]); (split; [by apply Forall_app|]);
       (split; [|intros v; discriminate]);
       change (ev :: l1) with ([ev] ++ l1); rewrite !announced_app;
       rewrite (announced_stage_events l1) by done;
       apply prefix_cons; exact Hp2.
  rewrite bind_eq.
  destruct (cleanup host fuel config (timeText (now w1)) w2)
    as [[[]|e|e|] w3] eqn:E3;
    destruct (cleanup_log _ _ _ _ _ _ E3) as (l3 & El3 & H3);
    intros [= <- <-]; exists (((ev :: l1) ++ l2) ++ l3);
    rewrite El3, El2, El1, <- !app_assoc.
  all: split; [done|].
  all: assert (Hann : announced ((ev :: l1) ++ l2 ++ l3)
                      = "run copyBefore" :: (stage_line <$> later_stages)).
  1,3,5,7: change (ev :: l1) with ([ev] ++ l1);
    rewrite !announced_app, (announced_stage_events l1),
      (announced_stage_events l3) by done;
    rewrite app_nil_r, Hv2 by done; reflexivity.
  all: split; [repeat (apply Forall_app; split);
               auto using stage_events_no_top_error|].
  all: rewrite Hann; split; done.
Qed.

(** ** What the process logs from start to exit *)

Lemma readConfig_log configName :
  post (log_grows (λ ev, ¬ is_top_error ev)) (readConfig host configName).
Proof.
  unfold readConfig.
  apply post_bind; try apply _; [apply post_log_fsExist|intros []].
  - apply post_bind; try apply _; [apply post_log_fsReadFile|intros configJson].
    destruct (host_JSON_parse host configJson);
      [apply post_ret | apply post_throw]; apply _.
  - apply post_throw; apply _.
Qed.

Lemma main_log fuel w o w' :
  main host fuel w = (o, w') →
  ∃ l, Forall (λ ev, ¬ is_top_error ev) l ∧
    match o with
    | Val _ => ∃ targetFilePath, log w' = log w ++ l ++ [packed_line targetFilePath]
    | _ => log w' = log w ++ l
    end.
Proof.
  unfold main. rewrite bind_eq.
  destruct (readConfig host configFileName w) as [[config|e|e|] w1] eqn:E1;
    destruct (readConfig_log _ _ _ _ E1) as (l1 & El1 & H1).
  2-4: intros [= <- <-]; exists l1; auto.
  rewrite bind_eq.
  destruct (processConfig host fuel config w1) as [[p|e|e|] w2] eqn:E2;
    destruct (processConfig_log _ _ _ _ _ E2) as (l2 & El2 & H2 & _).
  2-4: intros [= <- <-]; exists (l1 ++ l2); split; [by apply Forall_app|];
       by rewrite El2, El1, app_assoc.
  intros [= <- <-]. exists (l1 ++ l2). split; [by apply Forall_app|].
  exists p. simpl. by rewrite El2, El1, !app_assoc.
Qed.

(** ** The working directory and the staging directory after removal *)

Global Instance same_cwd_refl : Reflexive same_cwd.
Proof. by intros w. Qed.

Global Instance same_cwd_trans : Transitive same_cwd.
Proof. unfold same_cwd. intros w1 w2 w3 H1 H2. congruence. Qed.

Lemma rmDirectoryRecursive_same_cwd fuel dirPath :
  post same_cwd (rmDirectoryRecursive fuel dirPath).
Proof.
  revert dirPath. induction fuel as [|fuel IH]; intros dirPath; simpl.
  - apply post_out_of_fuel; apply _.
  - apply post_bind; try apply _.
    { apply post_pure. intros w. unfold fsReaddir.
      destruct (stat_entry w dirPath) as [[]|]; reflexivity. }
    intros files. apply post_bind; try apply _.
    { apply post_forM; try apply _. intros itemName.
      unfold rmDirectoryRecursive_item. apply post_bind; try apply _.
      { apply post_pure. intros w. unfold fsStat.
        destruct (stat_entry w _); reflexivity. }
      intros itemStat. destruct (isFile itemStat).
      { apply post_pure. intros w. unfold fsUnlink.
        destruct (stat_entry w _) as [[]|]; reflexivity. }
      destruct (isDirectory itemStat); [apply IH|].
      apply post_throw; apply _. }
    intros _. apply post_pure. intros w. unfold fsRmdir.
    destruct (stat_entry w dirPath) as [[]|]; try reflexivity.
    repeat case_bool_decide; reflexivity.
Qed.

(** Where [rmDirectoryRecursive] returns, the directory is gone. *)
Lemma rmDirectoryRecursive_gone fuel dirPath w w' :
  rmDirectoryRecursive fuel dirPath w = (Val tt, w') →
  stat_entry w' dirPath = None ∧ cwd w' = cwd w.
Proof.
  intros H. split; [|exact (rmDirectoryRecursive_same_cwd _ _ _ _ _ H)].
  destruct fuel as [|fuel]; [discriminate|]. simpl in H.
  rewrite bind_eq in H.
  destruct (fsReaddir dirPath w) as [[files|e|e|] w1]; try discriminate.
  rewrite bind_eq in H.
  destruct (forM_ files _ w1) as [[[]|e|e|] w2]; try discriminate.
  unfold fsRmdir in H.
  destruct (stat_entry w2 dirPath) as [[]|] eqn:Hst; try discriminate.
  repeat case_bool_decide; try discriminate.
  injection H as <-. unfold stat_entry in *. simpl.
  case_bool_decide; [done|]. by rewrite lookup_delete_eq.
Qed.

Lemma resolve_absolute base s :
  isAbsolute s = true → resolve base s = resolve [] s.
Proof. unfold resolve. by intros ->. Qed.


(** ** Path strings *)

Lemma split_slash_nonempty s : split_slash s ≠ [].
Proof.
  destruct s as [|c s]; simpl; [done|].
  destruct (is_slash c); [done|]. by destruct (split_slash s).
Qed.

Lemma split_slash_app a b :
  split_slash (a +:+ String "/" b) = split_slash a ++ split_slash b.
Proof.
  induction a as [|c a IH]; simpl.
  - reflexivity.
  - destruct (is_slash c); [by rewrite IH|].
    rewrite IH. pose proof (split_slash_nonempty a).
    by destruct (split_slash a).
Qed.

Lemma split_slash_no_slash s : Forall (λ x, no_slash x = true) (split_slash s).
Proof.
  induction s as [|c s IH]; simpl.
  - by constructor.
  - destruct (is_slash c) eqn:Hc; [by constructor|].
    destruct (split_slash s) as [|x xs]; [by constructor; [simpl; rewrite Hc|]|].
    inversion IH; subst. constructor; [|done]. simpl. by rewrite Hc.
Qed.

Lemma split_slash_name n : no_slash n = true → split_slash n = [n].
Proof.
  induction n as [|c n IH]; simpl; [done|].
  intros [Hc Hn]%andb_prop. apply negb_true_iff in Hc. rewrite Hc.
  by rewrite IH.
Qed.

Lemma split_slash_join segs :
  Forall (λ x, no_slash x = true) segs → segs ≠ [] →
  split_slash (join_slash segs) = segs.
Proof.
  induction 1 as [|x segs Hx Hsegs IH]; [done|]. intros _.
  destruct segs as [|y segs]; simpl.
  - by apply split_slash_name.
  - change (split_slash (x +:+ String "/" (join_slash (y :: segs))) = x :: y :: segs).
    rewrite split_slash_app, IH by done. by rewrite split_slash_name.
Qed.

Lemma norm_step_name b stack n : valid_name n → norm_step b stack n = n :: stack.
Proof.
  intros (H1 & H2 & H3 & _). unfold norm_step.
  by rewrite !bool_decide_eq_false_2.
Qed.

Lemma norm_stack_names b stack segs :
  Forall valid_name segs → norm_stack b stack segs = rev segs ++ stack.
Proof.
  unfold norm_stack. revert stack.
  induction segs as [|n segs IH]; intros stack; [done|].
  intros [Hn Hsegs]%Forall_cons. simpl.
  rewrite norm_step_name, IH by done. by rewrite <- app_assoc.
Qed.

Lemma norm_stack_app b stack xs ys :
  norm_stack b stack (xs ++ ys) = norm_stack b (norm_stack b stack xs) ys.
Proof. unfold norm_stack. apply fold_left_app. Qed.

Lemma norm_step_valid stack seg :
  Forall valid_name stack → no_slash seg = true →
  Forall valid_name (norm_step false stack seg).
Proof.
  intros Hstack Hseg. unfold norm_step.
  repeat case_bool_decide; try done.
  - destruct stack as [|top below]; [done|].
    case_bool_decide; [done|]. by inversion Hstack.
  - by constructor.
Qed.

Lemma norm_stack_valid stack segs :
  Forall valid_name stack → Forall (λ x, no_slash x = true) segs →
  Forall valid_name (norm_stack false stack segs).
Proof.
  unfold norm_stack. intros Hstack Hsegs. revert stack Hstack.
  induction Hsegs as [|seg segs Hseg _ IH]; intros stack Hstack; [done|].
  simpl. apply IH. by apply norm_step_valid.
Qed.

(** Without [..] among the segments, the stack only grows. *)
Lemma norm_stack_grows b stack segs :
  ".." ∉ segs → ∃ more, norm_stack b stack segs = more ++ stack.
Proof.
  unfold norm_stack. revert stack.
  induction segs as [|seg segs IH]; intros stack Hdots.
  - by exists [].
  - apply not_elem_of_cons in Hdots as [Hseg Hdots]. simpl.
    destruct (IH (norm_step b stack seg) Hdots) as (more & ->).
    unfold norm_step. repeat case_bool_decide; try done; eauto.
    exists (more ++ [seg]). by rewrite <- app_assoc.
Qed.

Lemma resolve_valid s : Forall valid_name (resolve [] s).
Proof.
  unfold resolve. apply Forall_rev.
  replace (if isAbsolute s then [] else rev []) with (@nil string)
    by by destruct (isAbsolute s).
  apply norm_stack_valid; [done|apply split_slash_no_slash].
Qed.

Lemma string_app_empty_r s : s +:+ "" = s.
Proof.
  induction s as [|c s IH]; [done|].
  change (String c (s +:+ "") = String c s). by rewrite IH.
Qed.

Lemma string_app_assoc a b c : a +:+ (b +:+ c) = (a +:+ b) +:+ c.
Proof.
  induction a as [|x a IH]; [done|].
  change (String x (a +:+ (b +:+ c)) = String x ((a +:+ b) +:+ c)).
  by rewrite IH.
Qed.

Lemma string_app_eq_empty a b : a +:+ b = "" → a = "" ∧ b = "".
Proof. by destruct a. Qed.

Lemma join_slash_empty segs :
  Forall valid_name segs → join_slash segs = "" → segs = [].
Proof.
  intros Hsegs. destruct segs as [|x segs]; [done|].
  apply Forall_cons in Hsegs as [(Hx & _) _]. simpl.
  destruct segs; [done|]. by intros [? _]%string_app_eq_empty.
Qed.

Lemma valid_name_no_slash segs :
  Forall valid_name segs → Forall (λ x, no_slash x = true) segs.
Proof. intros H. eapply Forall_impl; [exact H|]. by intros x (_ & _ & _ & ?). Qed.

Lemma split_slash_join_names n names :
  Forall valid_name (n :: names) →
  split_slash (join_slash (n :: names)) = n :: names.
Proof.
  intros H. apply split_slash_join; [by apply valid_name_no_slash|done].
Qed.

Lemma isAbsolute_nonempty s : isAbsolute s = true → s ≠ "".
Proof. by destruct s. Qed.

Lemma resolve_absolute_eq base s :
  isAbsolute s = true →
  resolve base s = rev (norm_stack false [] (split_slash s)).
Proof. unfold resolve. by intros ->. Qed.

(** Segments that are names already resolve to themselves, with or
    without a trailing separator. *)
Lemma resolve_rendered base names (trailing : bool) :
  Forall valid_name names →
  resolve base ("/" +:+ join_slash names +:+ (if trailing then "/" else "")) = names.
Proof.
  intros Hnames. rewrite resolve_absolute_eq by done.
  change ("/" +:+ join_slash names +:+ (if trailing then "/" else ""))
    with ("" +:+ String "/" (join_slash names +:+ (if trailing then "/" else ""))).
  rewrite split_slash_app. simpl split_slash at 1.
  rewrite norm_stack_app. change (norm_stack false [] [""]) with (@nil string).
  destruct names as [|n names].
  { by destruct trailing. }
  destruct trailing.
  - change (join_slash (n :: names) +:+ "/")
      with (join_slash (n :: names) +:+ String "/" "").
    rewrite split_slash_app, norm_stack_app.
    rewrite split_slash_join_names by done.
    rewrite (norm_stack_names false [] (n :: names)) by done. rewrite app_nil_r.
    change (norm_stack false (rev (n :: names)) (split_slash ""))
      with (rev (n :: names)).
    apply rev_involutive.
  - rewrite string_app_empty_r.
    rewrite split_slash_join_names by done.
    rewrite norm_stack_names by done. rewrite app_nil_r. apply rev_involutive.
Qed.

Lemma resolve_Path_normalize base x :
  isAbsolute x = true → resolve base (Path_normalize x) = resolve base x.
Proof.
  intros Habs. unfold Path_normalize.
  rewrite bool_decide_eq_false_2 by by apply isAbsolute_nonempty.
  rewrite Habs. simpl negb.
  rewrite (resolve_absolute_eq base x) by done.
  pose proof (norm_stack_valid [] (split_slash x) (Forall_nil_2 _)
                (split_slash_no_slash x)) as Hvalid.
  apply Forall_rev in Hvalid.
  set (names := rev (norm_stack false [] (split_slash x))) in *.
  case_bool_decide as Hbody.
  - apply join_slash_empty in Hbody; [|done]. by rewrite Hbody.
  - by apply resolve_rendered.
Qed.

Lemma isAbsolute_Path_normalize x :
  isAbsolute x = true → isAbsolute (Path_normalize x) = true.
Proof.
  intros Habs. unfold Path_normalize.
  rewrite bool_decide_eq_false_2 by by apply isAbsolute_nonempty.
  rewrite Habs. by case_bool_decide.
Qed.

Lemma last_char_app a b : b ≠ "" → last_char (a +:+ b) = last_char b.
Proof.
  intros Hb. induction a as [|c a IH]; [done|].
  change (last_char (String c (a +:+ b)) = last_char b). simpl.
  destruct (a +:+ b) eqn:E; [|done].
  by apply string_app_eq_empty in E as [_ ?].
Qed.

Lemma trailingSeparator_name n : valid_name n → trailingSeparator n = false.
Proof.
  intros (Hne & _ & _ & Hn). unfold trailingSeparator.
  induction n as [|c n IH]; [done|]. simpl in Hn.
  apply andb_prop in Hn as [Hc Hn]. apply negb_true_iff in Hc.
  destruct n as [|c' n']; [by simpl; rewrite Hc|].
  change (last_char (String c (String c' n'))) with (last_char (String c' n')).
  by apply IH.
Qed.

Lemma join_slash_snoc names n :
  ∃ before, join_slash (names ++ [n]) = before +:+ n.
Proof.
  induction names as [|x names (before & IH)].
  - by exists "".
  - destruct names as [|y names].
    + exists (x +:+ "/"). simpl. by rewrite string_app_assoc.
    + exists (x +:+ "/" +:+ before).
      change (join_slash ((x :: y :: names) ++ [n]))
        with (x +:+ "/" +:+ join_slash ((y :: names) ++ [n])).
      rewrite IH. by rewrite !string_app_assoc.
Qed.

(** The string [Path.join] normalises, for an absolute first argument. *)
Lemma Path_join_absolute a s :
  isAbsolute a = true →
  ∃ joined, Path_join a s = Path_normalize joined
            ∧ isAbsolute joined = true
            ∧ norm_stack false [] (split_slash joined)
              = norm_stack false (norm_stack false [] (split_slash a)) (split_slash s)
            ∧ (s ≠ "" → trailingSeparator joined = trailingSeparator s).
Proof.
  intros Habs. pose proof (isAbsolute_nonempty _ Habs) as Hne.
  unfold Path_join. cbv zeta.
  rewrite (bool_decide_eq_false_2 (a = "")) by done.
  destruct (decide (s = "")) as [->|Hs].
  - exists a. rewrite (bool_decide_eq_true_2 ("" = "")) by done.
    rewrite bool_decide_eq_false_2 by done. repeat split; done.
  - exists (a +:+ "/" +:+ s).
    rewrite !(bool_decide_eq_false_2 (s = "")) by done.
    rewrite bool_decide_eq_false_2 by (by destruct a).
    split; [done|]. split; [by destruct a|]. split.
    + change (a +:+ "/" +:+ s) with (a +:+ String "/" s).
      by rewrite split_slash_app, norm_stack_app.
    + intros _. unfold trailingSeparator.
      rewrite string_app_assoc. by rewrite last_char_app.
Qed.

Lemma isAbsolute_Path_join a s :
  isAbsolute a = true → isAbsolute (Path_join a s) = true.
Proof.
  intros Habs. destruct (Path_join_absolute a s Habs) as (joined & -> & Hj & _).
  by apply isAbsolute_Path_normalize.
Qed.

(** Where [Path.join(a, s)] is: [s] walked from where [a] is. *)
Lemma resolve_Path_join base a s :
  isAbsolute a = true →
  resolve base (Path_join a s)
  = rev (norm_stack false (rev (resolve [] a)) (split_slash s)).
Proof.
  intros Habs. destruct (Path_join_absolute a s Habs) as (joined & -> & Hj & Hn & _).
  rewrite resolve_Path_normalize, resolve_absolute_eq by done.
  rewrite Hn, (resolve_absolute_eq [] a) by done. by rewrite rev_involutive.
Qed.

Lemma resolve_Path_join_name base a n :
  isAbsolute a = true → valid_name n →
  resolve base (Path_join a n) = resolve [] a ++ [n].
Proof.
  intros Habs Hn. rewrite resolve_Path_join by done.
  rewrite split_slash_name by apply Hn.
  unfold norm_stack. simpl. rewrite norm_step_name by done.
  simpl. by rewrite rev_involutive.
Qed.

Lemma trailingSeparator_Path_join_name a n :
  isAbsolute a = true → valid_name n →
  trailingSeparator (Path_join a n) = false.
Proof.
  intros Habs Hn.
  destruct (Path_join_absolute a n Habs) as (joined & -> & Hj & Hnorm & Ht).
  rewrite (split_slash_name n) in Hnorm by apply Hn.
  unfold norm_stack at 2 in Hnorm. simpl in Hnorm.
  rewrite norm_step_name in Hnorm by done.
  unfold Path_normalize.
  rewrite bool_decide_eq_false_2 by by apply isAbsolute_nonempty.
  rewrite Hj. simpl negb. rewrite Hnorm. simpl rev.
  rewrite Ht by apply Hn. rewrite (trailingSeparator_name n) by done.
  destruct (join_slash_snoc (rev (norm_stack false [] (split_slash a))) n)
    as (before & ->).
  assert (n ≠ "") by apply Hn.
  rewrite bool_decide_eq_false_2.
  2:{ intros [_ ?]%string_app_eq_empty. done. }
  rewrite string_app_empty_r.
  unfold trailingSeparator. rewrite string_app_assoc.
  rewrite last_char_app by done. by apply trailingSeparator_name.
Qed.

(** With no [..] in [s], [Path.join(a, s)] is at or below [a]. *)
Lemma resolve_Path_join_below base a s :
  isAbsolute a = true → ".." ∉ split_slash s →
  resolve [] a `prefix_of` resolve base (Path_join a s).
Proof.
  intros Habs Hdots. rewrite resolve_Path_join by done.
  destruct (norm_stack_grows false (rev (resolve [] a)) _ Hdots) as (more & ->).
  rewrite rev_app_distr, rev_involutive. by apply prefix_app_r.
Qed.

(** ** Directories and their entries *)

Lemma strip_prefix_Some (p q r : fspath) : strip_prefix p q = Some r ↔ q = p ++ r.
Proof.
  revert q. induction p as [|x p IH]; intros q; simpl.
  - split; [by intros [= ->]|by intros ->].
  - destruct q as [|y q]; [done|].
    case_bool_decide as Hxy.
    + subst y. rewrite IH. split; [by intros ->|by intros [= ->]].
    + split; [done|]. by intros [= ? _].
Qed.

Lemma child_name_Some (p q : fspath) (n : string) : child_name p q = Some n ↔ q = p ++ [n].
Proof.
  unfold child_name. destruct (strip_prefix p q) as [r|] eqn:E.
  - apply strip_prefix_Some in E as ->.
    destruct r as [|x [|y r]]; split; try done.
    + intros [=]%(inj (app p)). 
    + by intros [= ->].
    + by intros [= ->]%(inj (app p)).
    + intros [=]%(inj (app p)).
  - split; [done|]. intros ->.
    assert (strip_prefix p (p ++ [n]) = Some [n]) by by apply strip_prefix_Some.
    congruence.
Qed.

Lemma elem_of_children (p : fspath) (m : gmap fspath entry) (n : string) :
  n ∈ children p m ↔ is_Some (m !! (p ++ [n])).
Proof.
  unfold children. rewrite list_elem_of_omap. split.
  - intros (q & Hq & ->%child_name_Some).
    by apply elem_of_elements, elem_of_dom in Hq.
  - intros H. exists (p ++ [n]). split.
    + by apply elem_of_elements, elem_of_dom.
    + by apply child_name_Some.
Qed.

Lemma NoDup_omap_inj {A B} (f : A → option B) l :
  (∀ x1 x2 y, f x1 = Some y → f x2 = Some y → x1 = x2) →
  NoDup l → NoDup (omap f l).
Proof.
  intros Hinj. induction 1 as [|x l Hx Hl IH]; simpl; [constructor|].
  destruct (f x) as [y|] eqn:E; [|done].
  constructor; [|done].
  intros (x' & Hx' & E')%list_elem_of_omap.
  by rewrite (Hinj _ _ _ E E') in Hx.
Qed.

Lemma NoDup_children (p : fspath) (m : gmap fspath entry) : NoDup (children p m).
Proof.
  unfold children. apply NoDup_omap_inj; [|apply NoDup_elements].
  intros q1 q2 n H1%child_name_Some H2%child_name_Some. congruence.
Qed.

Lemma parent_of_snoc (q : fspath) (n : string) : parent_of (q ++ [n]) = q.
Proof.
  unfold parent_of. rewrite length_app. simpl.
  replace (length q + 1 - 1) with (length q) by lia.
  by rewrite take_app_length.
Qed.

Lemma tree_closed_parent (m : gmap fspath entry) (q : fspath) (n : string) :
  tree_closed m → is_Some (m !! (q ++ [n])) → m !! q = Some Dir.
Proof.
  intros Hm [e He]. destruct (Hm _ _ He) as [Hnil|Hp].
  - by destruct q.
  - by rewrite parent_of_snoc in Hp.
Qed.

Lemma tree_closed_ancestor (m : gmap fspath entry) (x r : fspath) :
  tree_closed m → r ≠ [] → is_Some (m !! (x ++ r)) → m !! x = Some Dir.
Proof.
  intros Hm. induction r as [|n r IH] using rev_ind; [done|].
  intros _ Hsome. rewrite app_assoc in Hsome.
  apply tree_closed_parent in Hsome; [|done].
  destruct r as [|y r]; [by rewrite app_nil_r in Hsome|].
  apply IH; [done|]. by rewrite Hsome.
Qed.

Lemma lookup_remove_tree (p : fspath) (m : gmap fspath entry) (q : fspath) :
  remove_tree p m !! q = if decide (p `prefix_of` q) then None else m !! q.
Proof.
  unfold remove_tree. case_decide as Hp.
  - apply map_lookup_filter_None. right. intros e _ Hn. by apply Hn.
  - destruct (m !! q) as [e|] eqn:E.
    + by apply map_lookup_filter_Some.
    + apply map_lookup_filter_None. by left.
Qed.

Lemma prefix_parent_of (p q : fspath) : q ≠ [] → p `prefix_of` parent_of q → p `prefix_of` q.
Proof.
  intros Hq Hp. etransitivity; [exact Hp|].
  unfold parent_of. exists (drop (length q - 1) q). by rewrite take_drop.
Qed.

Lemma remove_tree_wf (p : fspath) (m : gmap fspath entry) : wf_fs m → wf_fs (remove_tree p m).
Proof.
  intros [Hclosed Hnames]. split.
  - intros q e. rewrite lookup_remove_tree. case_decide as Hp; [done|].
    intros He. destruct (Hclosed _ _ He) as [->|Hpar]; [by left|].
    right. rewrite lookup_remove_tree. case_decide as Hp'; [|done].
    exfalso. apply Hp. destruct (decide (q = [])) as [->|Hq]; [exact Hp'|].
    by apply prefix_parent_of.
  - intros q e. rewrite lookup_remove_tree. case_decide; [done|]. apply Hnames.
Qed.

(** Deleting what cannot hold anything is deleting its whole tree. *)
Lemma delete_leaf_remove_tree (m : gmap fspath entry) (x : fspath) (e : entry) :
  tree_closed m → m !! x = Some e → e ≠ Dir → delete x m = remove_tree x m.
Proof.
  intros Hm Hx He. apply map_eq. intros q.
  rewrite lookup_remove_tree, lookup_delete. case_decide as Hxq.
  - subst q. by rewrite decide_True.
  - case_decide as Hp; [|done]. destruct Hp as [r ->].
    destruct (m !! (x ++ r)) as [e'|] eqn:E; [|done].
    assert (r ≠ []) by (intros ->; by rewrite app_nil_r in Hxq).
    assert (m !! x = Some Dir) by (apply (tree_closed_ancestor m x r); eauto).
    congruence.
Qed.

Lemma stat_entry_child w d n :
  isAbsolute d = true → valid_name n →
  stat_entry w (Path_join d n) = fs w !! (resolve [] d ++ [n]).
Proof.
  intros Habs Hn. unfold stat_entry.
  rewrite bool_decide_eq_false_2
    by (apply isAbsolute_nonempty; by apply isAbsolute_Path_join).
  rewrite resolve_Path_join_name, trailingSeparator_Path_join_name by done.
  by destruct (fs w !! (resolve [] d ++ [n])) as [[]|].
Qed.

Lemma stat_entry_Dir w d :
  isAbsolute d = true → fs w !! resolve [] d = Some Dir → stat_entry w d = Some Dir.
Proof.
  intros Habs Hd. unfold stat_entry.
  rewrite bool_decide_eq_false_2 by by apply isAbsolute_nonempty.
  by rewrite (resolve_absolute _ d), Hd.
Qed.

(** ** Recursive removal *)

Lemma snoc_prefix_snoc (p : fspath) (c n : string) (q : fspath) :
  (p ++ [c]) `prefix_of` q → (p ++ [n]) `prefix_of` q → c = n.
Proof.
  intros [r1 ->] [r2 H]. rewrite <- !app_assoc in H.
  apply (inj (app p)) in H. by injection H.
Qed.

Lemma snoc_not_prefix (p : fspath) (c : string) : ¬ (p ++ [c]) `prefix_of` p.
Proof.
  intros H%prefix_length. rewrite length_app in H. simpl in H. lia.
Qed.

Lemma regular_under_leaf (m : gmap fspath entry) (x : fspath) (e : entry) :
  tree_closed m → m !! x = Some e → e ≠ Dir → e ≠ Other → regular_under x m.
Proof.
  intros Hm Hx Hd Ho q e' Hq [r ->].
  destruct r as [|n r].
  - rewrite app_nil_r in Hq. congruence.
  - assert (m !! x = Some Dir); [|congruence].
    apply (tree_closed_ancestor m x (n :: r)); eauto.
Qed.

Lemma regular_under_remove_tree (m : gmap fspath entry) (x p : fspath) :
  regular_under p m → regular_under p (remove_tree x m).
Proof.
  intros H q e. rewrite lookup_remove_tree. case_decide; [done|]. apply H.
Qed.

Lemma regular_under_sibling (m : gmap fspath entry) (p : fspath) (c n : string) :
  c ≠ n →
  regular_under (p ++ [n]) (remove_tree (p ++ [c]) m) →
  regular_under (p ++ [n]) m.
Proof.
  intros Hcn H q e Hq Hpre. apply (H q e); [|done].
  rewrite lookup_remove_tree, decide_False; [done|].
  intros Hc. by apply Hcn, (snoc_prefix_snoc p c n q).
Qed.

Lemma regular_under_below (m : gmap fspath entry) (p q : fspath) :
  p `prefix_of` q → regular_under p m → regular_under q m.
Proof.
  intros Hpq H x e Hx Hqx. apply (H x e Hx). by etransitivity.
Qed.

Lemma lookup_remove_entries (p : fspath) (names : list string)
    (m : gmap fspath entry) (q : fspath) :
  remove_entries p names m !! q
  = if decide (Exists (λ n, (p ++ [n]) `prefix_of` q) names) then None
    else m !! q.
Proof.
  unfold remove_entries. revert m.
  induction names as [|n names IH]; intros m; simpl.
  - reflexivity.
  - rewrite IH, lookup_remove_tree.
    destruct (decide (Exists (λ n, (p ++ [n]) `prefix_of` q) names)) as [Ht|Ht].
    + rewrite decide_True; [done|]. by right.
    + destruct (decide ((p ++ [n]) `prefix_of` q)) as [Hn|Hn].
      * rewrite decide_True; [done|]. by left.
      * rewrite decide_False; [done|]. by intros [?|?]%Exists_cons.
Qed.

Lemma rm_item_spec f dirPath c w :
  rm_spec f → isAbsolute dirPath = true → wf_fs (fs w) →
  is_Some (fs w !! (resolve [] dirPath ++ [c])) →
  (∀ q, (resolve [] dirPath ++ [c]) `prefix_of` q → is_Some (fs w !! q) →
        length q < length (resolve [] dirPath) + 1 + f) →
  (regular_under (resolve [] dirPath ++ [c]) (fs w) →
     rmDirectoryRecursive_item (rmDirectoryRecursive f) dirPath c w
     = (Val tt, set_fs (remove_tree (resolve [] dirPath ++ [c]) (fs w)) w))
  ∧ (¬ regular_under (resolve [] dirPath ++ [c]) (fs w) →
     ∃ itemPath w',
       rmDirectoryRecursive_item (rmDirectoryRecursive f) dirPath c w
       = (Throw (Error_ (cannot_remove itemPath)), w')).
Proof.
  intros IH Habs [Hclosed Hnames] [e He] Hheight.
  set (p := resolve [] dirPath) in *.
  assert (Hc : valid_name c).
  { pose proof (Hnames _ _ He) as Hv. simpl in Hv.
    apply Forall_app in Hv as [_ Hv]. by inversion Hv. }
  assert (Hstat : stat_entry w (Path_join dirPath c) = Some e).
  { rewrite stat_entry_child by done. exact He. }
  unfold rmDirectoryRecursive_item.
  rewrite bind_eq, (fsStat_some _ _ _ Hstat).
  destruct e as [content| |]; simpl.
  - assert (Hun : fsUnlink (Path_join dirPath c) w
                  = (Val tt, set_fs (remove_tree (p ++ [c]) (fs w)) w)).
    { unfold fsUnlink. rewrite Hstat, resolve_Path_join_name by done.
      fold p. by erewrite delete_leaf_remove_tree. }
    split; [done|]. intros Hn. destruct Hn.
    by eapply regular_under_leaf.
  - destruct (IH (Path_join dirPath c) w) as [Hok Herr].
    + by apply isAbsolute_Path_join.
    + done.
    + by rewrite resolve_Path_join_name.
    + rewrite resolve_Path_join_name by done. by intros [_ ?]%app_eq_nil.
    + rewrite resolve_Path_join_name by done. fold p. intros q Hq Hsome.
      rewrite length_app. simpl. apply Hheight; done.
    + rewrite resolve_Path_join_name in Hok, Herr by done. by split.
  - split.
    + intros Hr. by destruct (Hr _ _ He).
    + intros _. by eexists _, _.
Qed.

Lemma rm_loop_spec f dirPath names :
  rm_spec f → isAbsolute dirPath = true →
  ∀ w, wf_fs (fs w) → NoDup names →
    (∀ n, n ∈ names → is_Some (fs w !! (resolve [] dirPath ++ [n]))) →
    (∀ q, resolve [] dirPath `prefix_of` q → is_Some (fs w !! q) →
          length q < length (resolve [] dirPath) + S f) →
    (Forall (λ n, regular_under (resolve [] dirPath ++ [n]) (fs w)) names →
       forM_ names (rmDirectoryRecursive_item (rmDirectoryRecursive f) dirPath) w
       = (Val tt, set_fs (remove_entries (resolve [] dirPath) names (fs w)) w))
    ∧ (Exists (λ n, ¬ regular_under (resolve [] dirPath ++ [n]) (fs w)) names →
       ∃ itemPath w',
         forM_ names (rmDirectoryRecursive_item (rmDirectoryRecursive f) dirPath) w
         = (Throw (Error_ (cannot_remove itemPath)), w')).
Proof.
  intros IH Habs. set (p := resolve [] dirPath).
  induction names as [|c names IHnames]; intros w Hwf Hdup Hin Hheight.
  { split; [by destruct w|]. by intros ?%Exists_nil. }
  apply NoDup_cons in Hdup as [Hc Hdup].
  destruct (rm_item_spec f dirPath c w IH Habs Hwf) as [Hok Herr].
  { apply Hin. by left. }
  { fold p. intros q Hq Hsome.
    replace (length p + 1 + f) with (length p + S f) by lia.
    apply Hheight; [|done]. by eapply prefix_app_l. }
  fold p in Hok, Herr.
  destruct (decide (regular_under (p ++ [c]) (fs w))) as [Hr|Hr].
  - specialize (Hok Hr). rewrite forM_cons, (bind_val _ _ _ _ _ Hok).
    set (w1 := set_fs (remove_tree (p ++ [c]) (fs w)) w).
    assert (Hsib : ∀ n, n ∈ names → ¬ (p ++ [c]) `prefix_of` (p ++ [n])).
    { intros n Hn Hpre. apply Hc.
      by rewrite (snoc_prefix_snoc p c n (p ++ [n]) Hpre). }
    destruct (IHnames w1) as [IHok IHerr].
    + by apply remove_tree_wf.
    + done.
    + intros n Hn. simpl. rewrite lookup_remove_tree, decide_False by auto.
      apply Hin. by right.
    + intros q Hq. simpl. rewrite lookup_remove_tree.
      case_decide; [by intros []|]. by apply Hheight.
    + split.
      * intros [_ Hall]%Forall_cons. rewrite IHok; [done|].
        eapply Forall_impl; [exact Hall|]. intros n Hn.
        by apply regular_under_remove_tree.
      * intros [?|Hex]%Exists_cons; [done|]. apply IHerr.
        apply Exists_exists in Hex as (n & Hn & Hbad).
        apply Exists_exists. exists n. split; [done|].
        intros Hreg. apply Hbad. apply (regular_under_sibling _ p c n); [|done].
        intros ->. done.
  - destruct (Herr Hr) as (itemPath & w' & Hthrow). split.
    + by intros [? _]%Forall_cons.
    + intros _. exists itemPath, w'. rewrite forM_cons. by apply bind_throw.
Qed.

Lemma rm_spec_all fuel : rm_spec fuel.
Proof.
  induction fuel as [|f IH]; intros dirPath w Habs Hwf Hdir Hroot Hheight.
  { specialize (Hheight (resolve [] dirPath)). rewrite Hdir in Hheight.
    assert (length (resolve [] dirPath) < length (resolve [] dirPath) + 0);
      [by apply Hheight|lia]. }
  set (p := resolve [] dirPath) in *.
  set (names := children p (fs w)).
  assert (Hread : fsReaddir dirPath w = (Val names, w)).
  { unfold fsReaddir. rewrite stat_entry_Dir by done.
    by rewrite (resolve_absolute _ dirPath). }
  destruct (rm_loop_spec f dirPath names IH Habs w Hwf) as [Hok Herr].
  { apply NoDup_children. }
  { intros n Hn. by apply elem_of_children. }
  { done. }
  fold p in Hok, Herr. simpl.
  rewrite (bind_val _ _ _ _ _ Hread). split.
  - intros Hreg. rewrite bind_eq, Hok.
    2:{ apply Forall_forall. intros n _.
        apply (regular_under_below _ p); [by apply prefix_app_r|done]. }
    set (m' := remove_entries p names (fs w)).
    assert (Hp : m' !! p = Some Dir).
    { unfold m'. rewrite lookup_remove_entries, decide_False; [done|].
      intros (n & _ & Hn)%Exists_exists. by apply snoc_not_prefix in Hn. }
    assert (Hempty : children p m' = []).
    { apply elem_of_nil_inv. intros n [e Hn]%elem_of_children.
      unfold m' in Hn. rewrite lookup_remove_entries in Hn.
      case_decide as Hex; [done|]. apply Hex, Exists_exists.
      exists n. split; [|done]. apply elem_of_children. by rewrite Hn. }
    unfold fsRmdir.
    rewrite stat_entry_Dir by (by rewrite ?(resolve_absolute _ dirPath)).
    simpl. rewrite (resolve_absolute _ dirPath) by done. fold p.
    rewrite bool_decide_eq_false_2 by done.
    rewrite bool_decide_eq_true_2 by done.
    change ((Val tt, set_fs (delete p m') w)
            = (Val tt, set_fs (remove_tree p (fs w)) w)).
    do 2 f_equal. apply map_eq. intros q.
    rewrite lookup_delete, lookup_remove_tree.
    destruct (decide (p = q)) as [<-|Hpq].
    { by rewrite decide_True. }
    unfold m'. rewrite lookup_remove_entries.
    destruct (decide (p `prefix_of` q)) as [[r ->]|Hpre].
    + destruct r as [|n r]; [by rewrite app_nil_r in Hpq|].
      destruct (fs w !! (p ++ n :: r)) as [e|] eqn:E; [|by case_decide].
      rewrite decide_True; [done|]. apply Exists_exists. exists n. split.
      * apply elem_of_children.
        destruct r as [|n' r]; [by rewrite E|].
        assert (fs w !! (p ++ [n]) = Some Dir) as ->; [|done].
        apply (tree_closed_ancestor _ _ (n' :: r)); [apply Hwf|done|].
        rewrite <- app_assoc. simpl. by rewrite E.
      * exists r. by rewrite <- app_assoc.
    + rewrite decide_False; [done|].
      intros (n & _ & Hn)%Exists_exists. apply Hpre.
      by eapply prefix_app_l.
  - intros Hirr. apply map_not_Forall in Hirr as (q & e & Hq & Hbad); [|apply _].
    assert (Hpq : p `prefix_of` q ∧ e = Other).
    { destruct (decide (p `prefix_of` q)) as [Hpre|Hpre];
        [|by destruct Hbad].
      split; [done|]. destruct (decide (e = Other)); [done|]. by destruct Hbad. }
    destruct Hpq as [[r ->] ->].
    destruct r as [|n r]; [rewrite app_nil_r in Hq; congruence|].
    destruct Herr as (itemPath & w' & Hthrow).
    { apply Exists_exists. exists n. split.
      - apply elem_of_children.
        destruct r as [|n' r]; [by rewrite Hq|].
        assert (fs w !! (p ++ [n]) = Some Dir) as ->; [|done].
        apply (tree_closed_ancestor _ _ (n' :: r)); [apply Hwf|done|].
        rewrite <- app_assoc. simpl. by rewrite Hq.
      - intros Hreg. apply (Hreg _ _ Hq); [|done].
        exists r. by rewrite <- app_assoc. }
    exists itemPath, w'. rewrite bind_eq, Hthrow. reflexivity.
Qed.

(** ** Failure ends the run *)

Lemma copyBefore_failure_aborts fuel config w e w' :
  stage_copyBefore host fuel code_label config w = (Throw e, w') →
  processConfig host fuel config w = (Throw e, w').
Proof.
  intros H. rewrite processConfig_spec_pipeline. unfold spec_pipeline.
  by apply bind_throw.
Qed.

Lemma later_stage_failure_aborts fuel config w w1 pre s post w2 e w' :
  stage_copyBefore host fuel code_label config w = (Val tt, w1) →
  later_stages = pre ++ s :: post →
  forM_ pre (run_stage host fuel code_label config (timeText (now w1))) w1
    = (Val tt, w2) →
  run_stage host fuel code_label config (timeText (now w1)) s w2 = (Throw e, w') →
  processConfig host fuel config w = (Throw e, w').
Proof.
  intros H1 Hsplit Hpre Hs. rewrite processConfig_spec_pipeline.
  unfold spec_pipeline. rewrite (bind_val _ _ _ _ _ H1), new_Date_bind.
  apply bind_throw. rewrite Hsplit, forM_app, (bind_val _ _ _ _ _ Hpre).
  rewrite forM_cons. by apply bind_throw.
Qed.

Lemma actions_failure_fails_stage fuel stageName workingPath actions w w0 e w' :
  chdir workingPath
    (add_log (mkLog actionLogger TRACE ("chdir to " +:+ quoted workingPath)) w)
    = (Val tt, w0) →
  forM_ actions (processAction host fuel stageName workingPath) w0 = (Throw e, w') →
  processActions host fuel stageName workingPath actions w = (Throw e, w').
Proof.
  intros Hcd Hloop. unfold processActions.
  rewrite log_to_bind, (bind_val _ _ _ _ _ Hcd). exact Hloop.
Qed.

Lemma cleanup_failure_aborts fuel config w w1 w2 e w' :
  stage_copyBefore host fuel code_label config w = (Val tt, w1) →
  forM_ later_stages (run_stage host fuel code_label config (timeText (now w1))) w1
    = (Val tt, w2) →
  cleanup host fuel config (timeText (now w1)) w2 = (Throw e, w') →
  processConfig host fuel config w = (Throw e, w').
Proof.
  intros H1 H2 Hc. rewrite processConfig_spec_pipeline. unfold spec_pipeline.
  rewrite (bind_val _ _ _ _ _ H1), new_Date_bind, (bind_val _ _ _ _ _ H2).
  by apply bind_throw.
Qed.

(** C8: when the shell fails on a [command] action (a non-zero exit or
    no spawn at all), the loop of actions rejects with that failure in the
    world the command left, whatever actions follow; the stage that ran the
    loop rejects with it; and a rejected stage, [copyBefore] or any later
    one, ends [processConfig] on the spot: no later stage is started. *)
Theorem failed_command_halts_run fuel :
  (∀ stageName workingPath pre commandLine rest post w w1 m d msg,
     forM_ pre (processAction host fuel stageName workingPath) w = (Val tt, w1) →
     host_exec host commandLine workingPath (add_log (command_line commandLine) w1)
       = ExecFail m d msg →
     forM_ (pre ++ ("command" :: commandLine :: rest) :: post)
           (processAction host fuel stageName workingPath) w
       = (Throw (ExecError msg),
          set_now d (set_fs m (add_log (command_line commandLine) w1))))
  ∧ (∀ stageName workingPath actions w w0 e w',
       chdir workingPath
         (add_log (mkLog actionLogger TRACE ("chdir to " +:+ quoted workingPath)) w)
         = (Val tt, w0) →
       forM_ actions (processAction host fuel stageName workingPath) w0
         = (Throw e, w') →
       processActions host fuel stageName workingPath actions w = (Throw e, w'))
  ∧ (∀ config w e w',
       stage_copyBefore host fuel code_label config w = (Throw e, w') →
       processConfig host fuel config w = (Throw e, w'))
  ∧ (∀ config w w1 pre s post w2 e w',
       stage_copyBefore host fuel code_label config w = (Val tt, w1) →
       later_stages = pre ++ s :: post →
       forM_ pre (run_stage host fuel code_label config (timeText (now w1))) w1
         = (Val tt, w2) →
       run_stage host fuel code_label config (timeText (now w1)) s w2
         = (Throw e, w') →
       processConfig host fuel config w = (Throw e, w')).
Proof.
  split; [|split; [|split]].
  - intros. by eapply command_failure_stops_loop.
  - intros. by eapply actions_failure_fails_stage.
  - intros. by apply copyBefore_failure_aborts.
  - intros. by eapply later_stage_failure_aborts.
Qed.

(** ** Sources that are neither file nor directory *)


(** ** What the copy stage writes *)

Lemma frame_refl t w : names_ok (fs w) → frame t w w.
Proof. by split. Qed.

Lemma frame_trans t w1 w2 w3 : frame t w1 w2 → frame t w2 w3 → frame t w1 w3.
Proof.
  intros [_ H12] [Hn H23]. split; [done|]. intros q Hq.
  by rewrite H23, H12.
Qed.

Lemma frame_weaken (t t' : fspath) w w' :
  t `prefix_of` t' → frame t' w w' → frame t w w'.
Proof.
  intros Htt [Hn H]. split; [done|]. intros q Hq. apply H.
  intros Ht'. apply Hq. by etransitivity.
Qed.

Lemma frame_same_fs t w w' : names_ok (fs w) → fs w' = fs w → frame t w w'.
Proof. intros Hn E. split; by rewrite E. Qed.

Lemma names_ok_insert (m : gmap fspath entry) s e :
  names_ok m → names_ok (<[resolve [] s := e]> m).
Proof.
  intros Hm. apply map_Forall_insert_2; [apply resolve_valid|done].
Qed.

Lemma frame_insert w s e :
  names_ok (fs w) →
  frame (resolve [] s) w (set_fs (<[resolve [] s := e]> (fs w)) w).
Proof.
  intros Hn. split; [by apply names_ok_insert|].
  intros q Hq. simpl. rewrite lookup_insert_ne; [done|]. by intros <-.
Qed.

Lemma fsMkdir_frame d w o w' :
  isAbsolute d = true → names_ok (fs w) →
  fsMkdir d w = (o, w') → frame (resolve [] d) w w'.
Proof.
  intros Habs Hn. unfold fsMkdir. rewrite (resolve_absolute _ d) by done.
  case_bool_decide; [intros [= <- <-]; by apply frame_refl|].
  destruct (fs w !! resolve [] d); [intros [= <- <-]; by apply frame_refl|].
  destruct (fs w !! parent_of (resolve [] d)) as [[]|];
    intros [= <- <-]; try by apply frame_refl.
  by apply frame_insert.
Qed.

Lemma fsCopyFile_frame s d w o w' :
  isAbsolute d = true → names_ok (fs w) →
  fsCopyFile s d w = (o, w') → frame (resolve [] d) w w'.
Proof.
  intros Habs Hn. unfold fsCopyFile. rewrite (resolve_absolute _ d) by done.
  destruct (stat_entry w s) as [[]|]; try (intros [= <- <-]; by apply frame_refl).
  case_bool_decide; [intros [= <- <-]; by apply frame_refl|].
  destruct (fs w !! resolve [] d) as [[]|];
    try destruct (trailingSeparator d);
    try (intros [= <- <-]; by apply frame_refl).
  - intros [= <- <-]. by apply frame_insert.
  - destruct (fs w !! parent_of (resolve [] d)) as [[]|];
      intros [= <- <-]; try by apply frame_refl.
    by apply frame_insert.
Qed.

Lemma children_valid (m : gmap fspath entry) (p : fspath) :
  names_ok m → Forall valid_name (children p m).
Proof.
  intros Hm. apply Forall_forall. intros n [e He]%elem_of_children.
  pose proof (Hm _ _ He) as Hv. simpl in Hv.
  apply Forall_app in Hv as [_ Hv]. by inversion Hv.
Qed.

Lemma fsReaddir_names d w o w' :
  names_ok (fs w) → fsReaddir d w = (o, w') →
  w' = w ∧ ∀ names, o = Val names → Forall valid_name names.
Proof.
  intros Hn. unfold fsReaddir.
  destruct (stat_entry w d) as [[]|]; intros [= <- <-]; split; try done.
  intros names [= <-]. by apply children_valid.
Qed.

Lemma fsStat_same_world p w o w' : fsStat p w = (o, w') → w' = w.
Proof. unfold fsStat. by destruct (stat_entry w p); intros [= <- <-]. Qed.

Lemma copyDirectory_item_frame rec sourcePath targetPath n w o w' :
  (∀ s t w o w', isAbsolute s = true → isAbsolute t = true → names_ok (fs w) →
     rec s t w = (o, w') → frame (resolve [] t) w w') →
  isAbsolute sourcePath = true → isAbsolute targetPath = true →
  valid_name n → names_ok (fs w) →
  copyDirectory_item rec sourcePath targetPath n w = (o, w') →
  frame (resolve [] targetPath) w w'.
Proof.
  intros Hrec Hs Ht Hname Hn. unfold copyDirectory_item. rewrite bind_eq.
  destruct (fsStat (Path_join sourcePath n) w) as [o1 w1] eqn:Est.
  apply fsStat_same_world in Est as ->.
  assert (Hbelow : resolve [] targetPath
                   `prefix_of` resolve [] (Path_join targetPath n)).
  { rewrite resolve_Path_join_name by done. by apply prefix_app_r. }
  destruct o1 as [st|e|e|]; try (intros [= <- <-]; by apply frame_refl).
  destruct (isFile st).
  { intros H. eapply frame_weaken; [exact Hbelow|].
    eapply fsCopyFile_frame; [| |exact H]; [by apply isAbsolute_Path_join|done]. }
  destruct (isDirectory st).
  { intros H. eapply frame_weaken; [exact Hbelow|].
    eapply Hrec; [| | |exact H]; try done; by apply isAbsolute_Path_join. }
  intros [= <- <-]. by apply frame_refl.
Qed.

Lemma copyDirectory_loop_frame rec sourcePath targetPath names :
  (∀ s t w o w', isAbsolute s = true → isAbsolute t = true → names_ok (fs w) →
     rec s t w = (o, w') → frame (resolve [] t) w w') →
  isAbsolute sourcePath = true → isAbsolute targetPath = true →
  Forall valid_name names →
  ∀ w o w', names_ok (fs w) →
    forM_ names (copyDirectory_item rec sourcePath targetPath) w = (o, w') →
    frame (resolve [] targetPath) w w'.
Proof.
  intros Hrec Hs Ht. induction 1 as [|n names Hname _ IH]; intros w o w' Hn.
  { intros [= <- <-]. by apply frame_refl. }
  rewrite forM_cons, bind_eq.
  destruct (copyDirectory_item rec sourcePath targetPath n w)
    as [o1 w1] eqn:Eitem.
  pose proof (copyDirectory_item_frame _ _ _ _ _ _ _ Hrec Hs Ht Hname Hn Eitem)
    as Hitem.
  destruct o1 as [[]|e|e|]; try (intros [= <- <-]; exact Hitem).
  intros Hrest. eapply frame_trans; [exact Hitem|].
  eapply IH; [|exact Hrest]. apply Hitem.
Qed.

Lemma ensure_directory_frame targetPath w o w' :
  isAbsolute targetPath = true → names_ok (fs w) →
  (targetExists ← fsExist targetPath;
   if (targetExists : bool) then mret tt else fsMkdir targetPath) w = (o, w') →
  frame (resolve [] targetPath) w w'.
Proof.
  intros Ht Hn. rewrite bind_eq, fsExist_eq. case_bool_decide.
  - intros [= <- <-]. by apply frame_refl.
  - by apply fsMkdir_frame.
Qed.

Lemma copyDirectory_frame fuel sourcePath targetPath w o w' :
  isAbsolute sourcePath = true → isAbsolute targetPath = true →
  names_ok (fs w) →
  copyDirectory fuel sourcePath targetPath w = (o, w') →
  frame (resolve [] targetPath) w w'.
Proof.
  revert sourcePath targetPath w o w'.
  induction fuel as [|fuel IH]; intros sourcePath targetPath w o w' Hs Ht Hn.
  { intros [= <- <-]. by apply frame_refl. }
  simpl. rewrite <- bind_assoc, bind_eq.
  destruct ((targetExists ← fsExist targetPath;
             if (targetExists : bool) then mret tt else fsMkdir targetPath) w)
    as [o1 w1] eqn:Emk.
  pose proof (ensure_directory_frame _ _ _ _ Ht Hn Emk) as Hmk.
  destruct o1 as [[]|e|e|]; try (intros [= <- <-]; exact Hmk).
  rewrite bind_eq.
  destruct (fsReaddir sourcePath w1) as [o2 w2] eqn:Erd.
  destruct (fsReaddir_names _ _ _ _ (proj1 Hmk) Erd) as [-> Hnames].
  destruct o2 as [names|e|e|]; try (intros [= <- <-]; exact Hmk).
  intros Hloop. eapply frame_trans; [exact Hmk|].
  eapply copyDirectory_loop_frame; [exact IH| | | | |exact Hloop]; try done.
  - by apply Hnames.
  - apply Hmk.
Qed.

Lemma processCopy_item_frame fuel workingPath targetPath itemName w o w' :
  isAbsolute workingPath = true → isAbsolute targetPath = true →
  ".." ∉ split_slash itemName → names_ok (fs w) →
  processCopy_item fuel workingPath targetPath itemName w = (o, w') →
  frame (resolve [] targetPath) w w'.
Proof.
  intros Hs Ht Hdots Hn. unfold processCopy_item.
  rewrite bind_eq, fsExist_eq.
  assert (Hbelow : resolve [] targetPath
                   `prefix_of` resolve [] (Path_join targetPath itemName))
    by by apply resolve_Path_join_below.
  case_bool_decide as Hex.
  2:{ intros [= <- <-]. by apply frame_same_fs. }
  rewrite bind_eq.
  destruct (fsStat (Path_join workingPath itemName) w) as [o1 w1] eqn:Est.
  apply fsStat_same_world in Est as ->.
  destruct o1 as [st|e|e|]; try (intros [= <- <-]; by apply frame_refl).
  destruct (isFile st).
  { rewrite log_to_bind. intros Hcp. eapply frame_weaken; [exact Hbelow|].
    eapply frame_trans; [|eapply fsCopyFile_frame; [| |exact Hcp]].
    - by apply frame_same_fs.
    - by apply isAbsolute_Path_join.
    - done. }
  destruct (isDirectory st).
  { rewrite log_to_bind. intros Hcp. eapply frame_weaken; [exact Hbelow|].
    eapply frame_trans; [|eapply copyDirectory_frame; [| | |exact Hcp]].
    - by apply frame_same_fs.
    - by apply isAbsolute_Path_join.
    - by apply isAbsolute_Path_join.
    - done. }
  intros [= <- <-]. by apply frame_same_fs.
Qed.

Lemma processCopy_frame fuel workingPath targetPath files w o w' :
  isAbsolute workingPath = true → isAbsolute targetPath = true →
  Forall (λ itemName, ".." ∉ split_slash itemName) files → names_ok (fs w) →
  processCopy fuel workingPath targetPath files w = (o, w') →
  frame (resolve [] targetPath) w w'.
Proof.
  intros Hs Ht Hfiles Hn. unfold processCopy. rewrite <- bind_assoc, bind_eq.
  destruct ((targetExists ← fsExist targetPath;
             if (targetExists : bool) then mret tt else fsMkdir targetPath) w)
    as [o1 w1] eqn:Emk.
  pose proof (ensure_directory_frame _ _ _ _ Ht Hn Emk) as Hmk.
  destruct o1 as [[]|e|e|]; try (intros [= <- <-]; exact Hmk).
  intros Hloop. eapply frame_trans; [exact Hmk|].
  destruct Hmk as [Hn1 _]. clear Emk Hn. revert w1 Hn1 Hloop.
  induction Hfiles as [|itemName files Hdots _ IH]; intros w1 Hn1.
  { intros [= <- <-]. by apply frame_refl. }
  rewrite forM_cons, bind_eq.
  destruct (processCopy_item fuel workingPath targetPath itemName w1)
    as [o2 w2] eqn:Eitem.
  pose proof (processCopy_item_frame _ _ _ _ _ _ _ Hs Ht Hdots Hn1 Eitem) as Hitem.
  destruct o2 as [[]|e|e|]; try (intros [= <- <-]; exact Hitem).
  intros Hrest. eapply frame_trans; [exact Hitem|].
  apply IH; [apply Hitem|exact Hrest].
Qed.


(** ** Paths that are normalised already *)

Lemma no_slash_app a b : no_slash (a +:+ b) = no_slash a && no_slash b.
Proof.
  induction a as [|c a IH]; [done|].
  change (no_slash (String c (a +:+ b)) = no_slash (String c a) && no_slash b).
  simpl. by rewrite IH, andb_assoc.
Qed.

Lemma no_slash_replicate_char n c :
  is_slash c = false → no_slash (replicate_char n c) = true.
Proof. intros Hc. induction n as [|n IH]; simpl; [done|]. by rewrite Hc, IH. Qed.

Lemma no_slash_pretty_N_char x : is_slash (pretty_N_char x) = false.
Proof. unfold pretty_N_char. by repeat case_match. Qed.

Lemma no_slash_pretty_N_go x s :
  no_slash s = true → no_slash (pretty_N_go x s) = true.
Proof.
  revert s. induction (N.lt_wf_0 x) as [x _ IH]; intros s Hs.
  destruct (decide (x = 0)%N) as [->|Hx]; [by rewrite pretty_N_go_0|].
  rewrite pretty_N_go_step by lia. apply IH.
  - apply N.div_lt; lia.
  - simpl. by rewrite no_slash_pretty_N_char, Hs.
Qed.

Lemma no_slash_toString n : no_slash (toString n) = true.
Proof.
  unfold toString, pretty, pretty_nat, pretty, pretty_N.
  case_decide; [done|]. by apply no_slash_pretty_N_go.
Qed.

Lemma no_slash_padStart n s :
  no_slash s = true → no_slash (padStart n "0" s) = true.
Proof.
  intros Hs. unfold padStart.
  by rewrite no_slash_app, no_slash_replicate_char, Hs.
Qed.

Lemma no_slash_timeText timeNow : no_slash (timeText timeNow) = true.
Proof.
  unfold timeText.
  rewrite !no_slash_app, !no_slash_padStart, no_slash_toString;
    auto using no_slash_toString.
Qed.

Lemma string_length_app a b :
  String.length (a +:+ b) = String.length a + String.length b.
Proof.
  induction a as [|c a IH]; [done|].
  change (S (String.length (a +:+ b)) = S (String.length a + String.length b)).
  by rewrite IH.
Qed.

(** The archive's file name is a name. *)
Lemma archive_name_valid name timestamp :
  no_slash name = true → no_slash timestamp = true →
  valid_name (name +:+ "." +:+ timestamp +:+ ".zip").
Proof.
  intros Hname Hts.
  assert (Hlen : (5 ≤ String.length (name +:+ "." +:+ timestamp +:+ ".zip"))%nat).
  { rewrite !string_length_app. simpl. lia. }
  repeat split.
  - intros E. rewrite E in Hlen. simpl in Hlen. lia.
  - intros E. rewrite E in Hlen. simpl in Hlen. lia.
  - intros E. rewrite E in Hlen. simpl in Hlen. lia.
  - by rewrite !no_slash_app, Hname, Hts.
Qed.

Lemma join_slash_snoc_eq names n :
  names ≠ [] → join_slash (names ++ [n]) = join_slash names +:+ "/" +:+ n.
Proof.
  induction names as [|x names IH]; [done|]. intros _.
  destruct names as [|y names]; [done|].
  change (x +:+ "/" +:+ join_slash ((y :: names) ++ [n])
          = (x +:+ "/" +:+ join_slash (y :: names)) +:+ "/" +:+ n).
  rewrite IH by done. by rewrite !string_app_assoc.
Qed.

Lemma trailingSeparator_rendered names :
  Forall valid_name names → names ≠ [] →
  trailingSeparator ("/" +:+ join_slash names) = false.
Proof.
  intros Hnames Hne.
  destruct names as [|x names] using rev_ind; [done|]. clear IHnames.
  apply Forall_app in Hnames as [_ Hx].
  assert (Hvx : valid_name x) by by inversion Hx.
  destruct (join_slash_snoc names x) as (before & ->).
  unfold trailingSeparator. rewrite string_app_assoc.
  rewrite last_char_app by apply Hvx. by apply trailingSeparator_name.
Qed.

(** A path that is a separator and names joined by separators is its own
    normal form. *)
Lemma Path_normalize_rendered names :
  Forall valid_name names → names ≠ [] →
  Path_normalize ("/" +:+ join_slash names) = "/" +:+ join_slash names.
Proof.
  intros Hnames Hne. unfold Path_normalize.
  rewrite bool_decide_eq_false_2 by by intros [? _]%string_app_eq_empty.
  change (isAbsolute ("/" +:+ join_slash names)) with true. simpl negb.
  rewrite trailingSeparator_rendered by done.
  assert (Hsplit : split_slash ("/" +:+ join_slash names) = "" :: names).
  { change ("/" +:+ join_slash names) with ("" +:+ String "/" (join_slash names)).
    rewrite split_slash_app, split_slash_join;
      [done|by apply valid_name_no_slash|done]. }
  rewrite Hsplit. change ("" :: names) with ([""] ++ names).
  rewrite norm_stack_app. change (norm_stack false [] [""]) with (@nil string).
  rewrite norm_stack_names by done. rewrite app_nil_r, rev_involutive.
  rewrite bool_decide_eq_false_2.
  - by rewrite string_app_empty_r.
  - intros E. by apply join_slash_empty in E.
Qed.

(** On a normalised absolute directory and a name, [Path.join] is the two
    with a separator between. *)
Lemma Path_join_rendered names n :
  Forall valid_name names → names ≠ [] → valid_name n →
  Path_join ("/" +:+ join_slash names) n = ("/" +:+ join_slash names) +:+ "/" +:+ n.
Proof.
  intros Hnames Hne Hn. unfold Path_join. cbv zeta.
  rewrite (bool_decide_eq_false_2 ("/" +:+ join_slash names = ""))
    by by intros [? _]%string_app_eq_empty.
  rewrite (bool_decide_eq_false_2 (n = "")) by apply Hn.
  rewrite bool_decide_eq_false_2 by by intros [? _]%string_app_eq_empty.
  replace (("/" +:+ join_slash names) +:+ "/" +:+ n)
    with ("/" +:+ join_slash (names ++ [n])).
  - apply Path_normalize_rendered.
    + apply Forall_app. split; [done|]. by constructor.
    + by destruct names.
  - rewrite join_slash_snoc_eq by done. by rewrite !string_app_assoc.
Qed.

End Proofs.

(** * The properties at work on the demo project *)

Example Path_join_examples :
  Path_join "/proj" "a.txt" = "/proj/a.txt"
  ∧ Path_join "/tmp/stage" "../x" = "/tmp/x"
  ∧ Path_join "/out/" "d.zip" = "/out/d.zip"
  ∧ Path_join "" "d.zip" = "d.zip"
  ∧ Path_join "a/../.." "d/" = "../d/".
Proof. vm_compute. repeat split. Qed.

(** The demo run announces all six stages, in order. *)
Example demo_run_announces_six_stages :
  announced (log (processConfig demo_host 5 demo_config demo_world).2)
  = spec_announcements.
Proof. vm_compute. reflexivity. Qed.

(** C2, at Friday 15 March 2024, 10:20:30: the program's timestamp has
    the month index 02 where the calendar month is 03 and the weekday 05
    where the day of the month is 15. *)
Theorem timeText_has_month_index_and_weekday :
  timeText demo_now = "20240205102030"
  ∧ spec_timestamp demo_now = "20240315102030".
Proof. vm_compute. split; reflexivity. Qed.

(** C4, with the unknown action [noop] in [packBefore]: the run
    succeeds, and its one warning names the stage [copyBefore]. *)
Theorem unknown_packBefore_action_is_reported_as_copyBefore :
  (processConfig (demo_host_with noop_config) 5 noop_config demo_world).1
    = Val "/out/demo.20240205102030.zip"
  ∧ filter (λ ev, level ev = WARN)
      (log (processConfig (demo_host_with noop_config) 5 noop_config demo_world).2)
    = [mkLog mainLogger WARN ("unknown action " +:+ quoted "noop" +:+ " in copyBefore")].
Proof. vm_compute. split; reflexivity. Qed.


(** Witness of C7: deleting [nope.txt], which the project does not have. *)
Lemma delete_missing_witness :
  processAction demo_host 3 "copyBefore" "/proj" ["delete"; "nope.txt"] demo_world
    = (Val tt, add_log (delete_line "nope.txt") demo_world)
  ∧ forM_ [["delete"; "nope.txt"]; ["delete"; "a.txt"]]
          (processAction demo_host 3 "copyBefore" "/proj") demo_world
    = forM_ [["delete"; "a.txt"]]
          (processAction demo_host 3 "copyBefore" "/proj")
          (add_log (delete_line "nope.txt") demo_world).
Proof.
  apply (delete_missing_is_silent_noop demo_host 3 "copyBefore" "/proj" "nope.txt"
           [] [["delete"; "a.txt"]] demo_world).
  vm_compute. reflexivity.
Defined.

(** Witness of C8: the command [false] fails; the [delete] after it is not
    run, and [processConfig] rejects with the failure of the command. *)
Lemma failed_command_witness :
  forM_ [["command"; "false"]; ["delete"; "a.txt"]]
        (processAction demo_host 3 "copyBefore" "/proj") demo_world
    = (Throw (ExecError "Command failed"),
       set_now demo_now (set_fs demo_fs (add_log (command_line "false") demo_world)))
  ∧ processConfig (demo_host_with failing_config) 3 failing_config demo_world
    = (Throw (ExecError "Command failed"),
       (stage_copyBefore (demo_host_with failing_config) 3 code_label
          failing_config demo_world).2).
Proof.
  split.
  - apply (proj1 (failed_command_halts_run demo_host 3) "copyBefore" "/proj" []
             "false" [] [["delete"; "a.txt"]] demo_world demo_world).
    + reflexivity.
    + vm_compute. reflexivity.
  - apply (proj1 (proj2 (proj2 (failed_command_halts_run
                                  (demo_host_with failing_config) 3)))).
    vm_compute. reflexivity.
Defined.



(** * More properties of the runner, the walkers and the start of a run *)

Section ActionRunner.

Variable host : Host.

(** ** Actions *)

(** X1: an action whose tag is neither [delete] nor [command], a missing
    tag included, is not run: the runner logs one warning on the main
    logger, with the stage name it was handed and the tag, changes nothing
    else and goes on with the next action. *)
Theorem unknown_action_warns_and_continues fuel stageName workingPath
    (action : list string) actions w :
  action !! 0%nat ≠ Some "delete" → action !! 0%nat ≠ Some "command" →
  processAction host fuel stageName workingPath action w
    = (Val tt, add_log (unknown_line stageName (action !! 0%nat)) w)
  ∧ forM_ (action :: actions) (processAction host fuel stageName workingPath) w
    = forM_ actions (processAction host fuel stageName workingPath)
        (add_log (unknown_line stageName (action !! 0%nat)) w).
Proof.
  intros Hd Hc.
  assert (Hstep : processAction host fuel stageName workingPath action w
            = (Val tt, add_log (unknown_line stageName (action !! 0%nat)) w)).
  { unfold processAction. rewrite !bool_decide_eq_false_2 by done. reflexivity. }
  split; [exact Hstep|]. by rewrite forM_cons, (bind_val _ _ _ _ _ Hstep).
Qed.

(** X2: a [delete] or [command] action without its argument announces
    itself with [undefined] and is rejected with a [TypeError]; the actions
    after it are not run. *)
Theorem action_without_argument_is_rejected fuel stageName workingPath actions w :
  forM_ (["delete"] :: actions) (processAction host fuel stageName workingPath) w
    = (Throw TypeError, add_log (delete_line "undefined") w)
  ∧ forM_ (["command"] :: actions) (processAction host fuel stageName workingPath) w
    = (Throw TypeError, add_log (command_line "undefined") w).
Proof. split; reflexivity. Qed.

(** X3: a [delete] action on a path that exists but is neither file nor
    directory deletes nothing and is not an error: it adds its own line and
    one warning to the log, and the loop goes on. *)
Theorem delete_of_other_entry_warns fuel stageName workingPath itemName rest
    actions w :
  stat_entry w (Path_join workingPath itemName) = Some Other →
  processAction host fuel stageName workingPath ("delete" :: itemName :: rest) w
    = (Val tt,
       add_log (not_deletable_line (Path_join workingPath itemName))
         (add_log (delete_line itemName) w))
  ∧ forM_ (("delete" :: itemName :: rest) :: actions)
          (processAction host fuel stageName workingPath) w
    = forM_ actions (processAction host fuel stageName workingPath)
        (add_log (not_deletable_line (Path_join workingPath itemName))
           (add_log (delete_line itemName) w)).
Proof.
  intros Hst.
  assert (Hstep : processAction host fuel stageName workingPath
                    ("delete" :: itemName :: rest) w
            = (Val tt,
               add_log (not_deletable_line (Path_join workingPath itemName))
                 (add_log (delete_line itemName) w))).
  { unfold processAction. simpl.
    rewrite log_to_bind, ret_bind. fold (delete_line itemName).
    assert (Hst' : stat_entry (add_log (delete_line itemName) w)
                     (Path_join workingPath itemName) = Some Other) by exact Hst.
    rewrite (bind_val _ _ _ _ _ (fsExist_some _ _ _ Hst')).
    rewrite (bind_val _ _ _ _ _ (fsStat_some _ _ _ Hst')). reflexivity. }
  split; [exact Hstep|]. by rewrite forM_cons, (bind_val _ _ _ _ _ Hstep).
Qed.

(** X4: a [delete] action on a file or on a directory of files and
    directories removes that path with all below it, and nothing else:
    every other entry, the rest of its parent directory included, is as it
    was. *)
Theorem delete_action_removes_exactly_the_item fuel stageName workingPath
    itemName rest w :
  isAbsolute workingPath = true → wf_fs (fs w) →
  is_Some (stat_entry w (Path_join workingPath itemName)) →
  resolve [] (Path_join workingPath itemName) ≠ [] →
  depth_within (resolve [] (Path_join workingPath itemName)) fuel (fs w) →
  regular_under (resolve [] (Path_join workingPath itemName)) (fs w) →
  processAction host fuel stageName workingPath ("delete" :: itemName :: rest) w
    = (Val tt,
       set_fs (remove_tree (resolve [] (Path_join workingPath itemName)) (fs w))
         (add_log (delete_line itemName) w))
  ∧ ∀ q, ¬ resolve [] (Path_join workingPath itemName) `prefix_of` q →
         remove_tree (resolve [] (Path_join workingPath itemName)) (fs w) !! q
         = fs w !! q.
Proof.
  intros Habs Hwf [e Hst] Hroot Hdepth Hreg.
  set (itemPath := Path_join workingPath itemName) in *.
  set (p := resolve [] itemPath) in *.
  assert (Habs' : isAbsolute itemPath = true) by by apply isAbsolute_Path_join.
  assert (He : fs w !! p = Some e).
  { unfold stat_entry in Hst. case_bool_decide; [done|].
    rewrite (resolve_absolute _ itemPath) in Hst by done. fold p in Hst.
    destruct (fs w !! p) as [[]|]; try done;
      by destruct (trailingSeparator itemPath). }
  split.
  2:{ intros q Hq. by rewrite lookup_remove_tree, decide_False. }
  set (w1 := add_log (delete_line itemName) w).
  assert (Hst1 : stat_entry w1 itemPath = Some e) by exact Hst.
  unfold processAction. simpl.
  rewrite log_to_bind, ret_bind. fold (delete_line itemName). fold itemPath w1.
  rewrite (bind_val _ _ _ _ _ (fsExist_some _ _ _ Hst1)).
  rewrite (bind_val _ _ _ _ _ (fsStat_some _ _ _ Hst1)).
  destruct e as [content| |]; simpl.
  - unfold fsUnlink. rewrite Hst1, (resolve_absolute _ itemPath) by done.
    fold p. simpl. by erewrite delete_leaf_remove_tree; [| apply Hwf | exact He |].
  - assert (Hheight : ∀ q, p `prefix_of` q → is_Some (fs w1 !! q) →
                           length q < length p + fuel).
    { intros q Hq [e' He']. exact (Hdepth q e' He' Hq). }
    by apply (rm_spec_all fuel itemPath w1 Habs' Hwf He Hroot Hheight).
  - by destruct (Hreg _ _ He).
Qed.

Lemma processAction_same_cwd (fuel : nat) (stageName workingPath : string)
    (action : list string) :
  post same_cwd (processAction host fuel stageName workingPath action).
Proof.
  unfold processAction.
  repeat first
    [ apply post_bind; try apply _; [|intros ?]
    | apply post_ret; apply _ | apply post_throw; apply _
    | apply rmDirectoryRecursive_same_cwd
    | match goal with
      | |- post _ (if ?b then _ else _) => destruct b
      | |- post _ (match ?x with _ => _ end) => destruct x
      | |- post _ (Path_join_js _ ?x) => destruct x
      end
    | apply post_pure; intros w0;
      (reflexivity
       || (unfold fsStat; by destruct (stat_entry w0 _))
       || (unfold fsUnlink; by destruct (stat_entry w0 _) as [[]|])
       || (unfold childProcessExec; by destruct (host_exec host _ _ w0))) ].
Qed.

Lemma action_loop_same_cwd (fuel : nat) (stageName workingPath : string)
    (actions : list (list string)) :
  post same_cwd (forM_ actions (processAction host fuel stageName workingPath)).
Proof.
  apply post_forM; try apply _. intros action. apply processAction_same_cwd.
Qed.

(** In an existing directory the runner is the trace line, the change of
    directory and the loop of its actions. *)
Lemma processActions_in_directory (fuel : nat) (stageName workingPath : string)
    (actions : list (list string)) w :
  stat_entry w workingPath = Some Dir →
  processActions host fuel stageName workingPath actions w
  = forM_ actions (processAction host fuel stageName workingPath)
      (set_cwd (resolve (cwd w) workingPath) (add_log (chdir_line workingPath) w)).
Proof.
  intros Hdir. unfold processActions. rewrite log_to_bind.
  fold (chdir_line workingPath). rewrite bind_eq. unfold chdir.
  assert (Hst : stat_entry (add_log (chdir_line workingPath) w) workingPath
                = Some Dir) by exact Hdir.
  by rewrite Hst.
Qed.

(** X5: the runner changes the working directory of the process before
    its first action and does not change it back: in an existing
    directory the loop of actions starts with the working directory
    already there, and after any number of its actions, however the last
    of them ended, the working directory is still there. *)
Theorem processActions_runs_its_actions_in_workingPath (fuel : nat)
    (stageName workingPath : string) (actions : list (list string)) w :
  stat_entry w workingPath = Some Dir →
  processActions host fuel stageName workingPath actions w
  = forM_ actions (processAction host fuel stageName workingPath)
      (set_cwd (resolve (cwd w) workingPath) (add_log (chdir_line workingPath) w))
  ∧ cwd (set_cwd (resolve (cwd w) workingPath) (add_log (chdir_line workingPath) w))
    = resolve (cwd w) workingPath
  ∧ ∀ pre rest o w1,
      actions = pre ++ rest →
      forM_ pre (processAction host fuel stageName workingPath)
        (set_cwd (resolve (cwd w) workingPath) (add_log (chdir_line workingPath) w))
      = (o, w1) →
      cwd w1 = resolve (cwd w) workingPath.
Proof.
  intros Hdir. split; [by apply processActions_in_directory|]. split; [done|].
  intros pre rest o w1 _ Hrun.
  by rewrite (action_loop_same_cwd fuel stageName workingPath pre _ _ _ Hrun).
Qed.

(** X6: when the directory the runner is given is not an existing
    directory, the stage is rejected at the change of directory, with only
    the trace line logged: not one of its actions is run. *)
Theorem processActions_rejects_missing_directory fuel stageName workingPath
    actions w :
  stat_entry w workingPath ≠ Some Dir →
  ∃ e, (e = ENOENT ∨ e = ENOTDIR)
       ∧ processActions host fuel stageName workingPath actions w
         = (Throw e, add_log (chdir_line workingPath) w).
Proof.
  intros Hdir. unfold processActions. rewrite log_to_bind.
  fold (chdir_line workingPath).
  assert (Hst : stat_entry (add_log (chdir_line workingPath) w) workingPath
                = stat_entry w workingPath) by reflexivity.
  rewrite bind_eq. unfold chdir. rewrite Hst.
  destruct (stat_entry w workingPath) as [[]|]; try done; eauto.
Qed.

End ActionRunner.
(** ** Copying a directory tree *)

Lemma fresh_at_lookup (t : fspath) (m : gmap fspath entry) (q : fspath) :
  fresh_at t m → t `prefix_of` q → m !! q = None.
Proof.
  intros Hf Hp. destruct (m !! q) eqn:E; [|done]. by destruct (Hf _ _ E).
Qed.

Lemma staged_below (S T : fspath) (names : list string) (m : gmap fspath entry) (x : fspath) :
  staged S T names m (T ++ x)
  = match x with
    | [] => Some Dir
    | n :: r => if decide (n ∈ names) then mirror_entry (m !! (S ++ n :: r)) else None
    end.
Proof.
  unfold staged. rewrite decide_True by by apply prefix_app_r.
  by rewrite drop_app_length.
Qed.

Lemma staged_outside (S T : fspath) (names : list string) (m : gmap fspath entry) (q : fspath) :
  ¬ T `prefix_of` q → staged S T names m q = m !! q.
Proof. intros Hq. unfold staged. by rewrite decide_False. Qed.

Lemma apart_below (S T x : fspath) :
  ¬ S `prefix_of` T → ¬ T `prefix_of` S → ¬ T `prefix_of` (S ++ x).
Proof.
  intros HST HTS [y Hy]. apply app_eq_inv in Hy as [[k [-> _]]|[k [-> _]]].
  - apply HTS. by apply prefix_app_r.
  - apply HST. by apply prefix_app_r.
Qed.

Lemma parent_of_cons_snoc (T : fspath) (n : string) (r : fspath) (z : string) :
  parent_of (T ++ n :: r ++ [z]) = T ++ n :: r.
Proof.
  replace (T ++ n :: r ++ [z]) with ((T ++ n :: r) ++ [z])
    by by rewrite <- app_assoc.
  apply parent_of_snoc.
Qed.

Section Staging.

Variables (S T : fspath) (m0 : gmap fspath entry).
Hypothesis Hwf : wf_fs m0.
Hypothesis HT : Forall valid_name T.
Hypothesis Hpar : m0 !! parent_of T = Some Dir.
Hypothesis Hfresh : fresh_at T m0.
Hypothesis HST : ¬ S `prefix_of` T.
Hypothesis HTS : ¬ T `prefix_of` S.

Lemma staging_not_root : T ≠ [].
Proof.
  intros ->. assert (Hn : m0 !! ([] : fspath) = None)
    by by apply (fresh_at_lookup []).
  unfold parent_of in Hpar. simpl in Hpar. congruence.
Qed.

Lemma parent_outside : ¬ T `prefix_of` parent_of T.
Proof.
  intros Hp%prefix_length. unfold parent_of in Hp. rewrite length_take in Hp.
  pose proof staging_not_root. destruct T; [done|]. simpl in Hp. lia.
Qed.

Lemma below_source_none (n : string) (r : fspath) :
  m0 !! (S ++ [n]) ≠ Some Dir → r ≠ [] → m0 !! (S ++ n :: r) = None.
Proof.
  intros Hn Hr. destruct (m0 !! (S ++ n :: r)) eqn:E; [|done]. destruct Hn.
  apply (tree_closed_ancestor m0 (S ++ [n]) r); [apply Hwf|done|].
  rewrite <- app_assoc. simpl. by rewrite E.
Qed.

(** Whatever agrees with [staged] is a well-formed filesystem. *)
Lemma wf_staged (names : list string) (m : gmap fspath entry) :
  (∀ q, m !! q = staged S T names m0 q) → wf_fs m.
Proof.
  intros Hm. destruct Hwf as [Hclosed Hnames]. split.
  - intros q e Hq. destruct (decide (q = [])) as [|Hne]; [by left|right].
    rewrite Hm in Hq. rewrite Hm.
    destruct (decide (T `prefix_of` q)) as [[x ->]|Hout].
    + rewrite staged_below in Hq. destruct x as [|n r].
      * rewrite app_nil_r. rewrite staged_outside by apply parent_outside. done.
      * destruct (decide (n ∈ names)) as [Hin|]; [|done].
        destruct r as [|z r _] using rev_ind.
        -- rewrite parent_of_snoc. rewrite <- (app_nil_r T) at 2.
           by rewrite staged_below.
        -- rewrite parent_of_cons_snoc, staged_below, decide_True by done.
           assert (Hd : m0 !! (S ++ n :: r) = Some Dir).
           { apply (tree_closed_parent m0 _ z); [done|].
             rewrite <- app_assoc. simpl.
             destruct (m0 !! (S ++ n :: r ++ [z])); [by eexists|done]. }
           by rewrite Hd.
    + rewrite staged_outside in Hq by done.
      destruct (Hclosed _ _ Hq) as [|Hp]; [done|].
      rewrite staged_outside; [done|].
      intros Hpre. apply Hout. etrans; [exact Hpre|].
      unfold parent_of. apply prefix_take.
  - intros q e Hq. rewrite Hm in Hq.
    destruct (decide (T `prefix_of` q)) as [[x ->]|Hout].
    + rewrite staged_below in Hq. apply Forall_app. split; [done|].
      destruct x as [|n r]; [done|].
      destruct (decide (n ∈ names)); [|done].
      destruct (m0 !! (S ++ n :: r)) as [e'|] eqn:E; [|done].
      by apply Hnames, Forall_app in E as [_ ?].
    + rewrite staged_outside in Hq by done. by apply (Hnames _ _ Hq).
Qed.

(** Passing over a name that is not there, or is no file or directory. *)
Lemma staged_skip (names : list string) (n : string) (q : fspath) :
  m0 !! (S ++ [n]) = None ∨ m0 !! (S ++ [n]) = Some Other →
  staged S T (names ++ [n]) m0 q = staged S T names m0 q.
Proof.
  intros Hn. destruct (decide (T `prefix_of` q)) as [[x ->]|Hout].
  2:{ by rewrite !staged_outside. }
  rewrite !staged_below. destruct x as [|k r]; [done|].
  destruct (decide (k ∈ names)) as [Hin|Hnin].
  { rewrite decide_True; [done|]. apply elem_of_app. by left. }
  destruct (decide (k ∈ names ++ [n])) as [Hin'|]; [|done].
  apply elem_of_app in Hin' as [? | ->%list_elem_of_singleton]; [done|].
  destruct r as [|z r].
  - by destruct Hn as [-> | ->].
  - rewrite (below_source_none n (z :: r)); [done| |done].
    by destruct Hn as [-> | ->].
Qed.

(** The step of a file: one insertion under the new directory. *)
Lemma staged_file (names : list string) (n : string) (c : string) (m : gmap fspath entry)
    (q : fspath) :
  (∀ q, m !! q = staged S T names m0 q) →
  m0 !! (S ++ [n]) = Some (File c) →
  <[T ++ [n] := File c]> m !! q = staged S T (names ++ [n]) m0 q.
Proof.
  intros Hm Hn. destruct (decide (q = T ++ [n])) as [->|Hne].
  - rewrite lookup_insert_eq, staged_below, decide_True, Hn; [done|].
    apply elem_of_app. right. by apply list_elem_of_singleton.
  - rewrite lookup_insert_ne, Hm by done.
    destruct (decide (T `prefix_of` q)) as [[x ->]|Hout].
    2:{ by rewrite !staged_outside. }
    rewrite !staged_below. destruct x as [|k r]; [done|].
    destruct (decide (k ∈ names)) as [Hin|Hnin].
    { rewrite decide_True; [done|]. apply elem_of_app. by left. }
    destruct (decide (k ∈ names ++ [n])) as [Hin'|]; [|done].
    apply elem_of_app in Hin' as [? | ->%list_elem_of_singleton]; [done|].
    destruct r as [|z r]; [done|].
    rewrite (below_source_none n (z :: r)); [done| |done]. by rewrite Hn.
Qed.

(** The step of a directory: what a mirror of it under the new directory
    comes to. *)
Lemma staged_directory (names : list string) (n : string) (m m' : gmap fspath entry) (q : fspath) :
  (∀ q, m !! q = staged S T names m0 q) →
  (∀ q, m' !! q = staged (S ++ [n]) (T ++ [n]) (children (S ++ [n]) m) m q) →
  m0 !! (S ++ [n]) = Some Dir →
  m' !! q = staged S T (names ++ [n]) m0 q.
Proof.
  intros Hm Hm' Hn. rewrite Hm'.
  assert (Hsrc : ∀ x, m !! (S ++ n :: x) = m0 !! (S ++ n :: x)).
  { intros x. rewrite Hm, staged_outside; [done|]. by apply apart_below. }
  destruct (decide ((T ++ [n]) `prefix_of` q)) as [[x ->]|Hout].
  - rewrite staged_below. rewrite <- (app_assoc T). simpl.
    rewrite staged_below, decide_True
      by (apply elem_of_app; right; by apply list_elem_of_singleton).
    destruct x as [|k r].
    + by rewrite Hn.
    + rewrite <- (app_assoc S). simpl. rewrite Hsrc.
      destruct (decide (k ∈ children (S ++ [n]) m)) as [Hin|Hnin]; [done|].
      destruct (m0 !! (S ++ n :: k :: r)) as [e|] eqn:E; [|done].
      destruct Hnin. apply elem_of_children.
      rewrite <- app_assoc. simpl. rewrite Hsrc.
      destruct r as [|z r _] using rev_ind; [by rewrite E|].
      exists Dir.
      apply (tree_closed_ancestor m0 (S ++ [n; k]) (r ++ [z])); [apply Hwf| |].
      * by destruct r.
      * rewrite <- app_assoc. simpl. by rewrite E.
  - rewrite staged_outside, Hm by done.
    destruct (decide (T `prefix_of` q)) as [[x ->]|Hout'].
    2:{ by rewrite !staged_outside. }
    rewrite !staged_below. destruct x as [|k r]; [done|].
    destruct (decide (k ∈ names)) as [Hin|Hnin].
    { rewrite decide_True; [done|]. apply elem_of_app. by left. }
    destruct (decide (k ∈ names ++ [n])) as [Hin'|]; [|done].
    apply elem_of_app in Hin' as [? | ->%list_elem_of_singleton]; [done|].
    destruct Hout. exists r. by rewrite <- app_assoc.
Qed.

End Staging.

Lemma staged_ext (S T : fspath) (l1 l2 : list string) (m : gmap fspath entry)
    (q : fspath) :
  (∀ n, n ∈ l1 ↔ n ∈ l2) → staged S T l1 m q = staged S T l2 m q.
Proof.
  intros Hl. unfold staged. destruct (decide (T `prefix_of` q)); [|done].
  destruct (drop (length T) q) as [|n r]; [done|].
  destruct (decide (n ∈ l1)) as [H1|H1], (decide (n ∈ l2)) as [H2|H2];
    try done; by apply Hl in H1 || apply Hl in H2.
Qed.

Lemma staged_start (S T : fspath) (m : gmap fspath entry) (q : fspath) :
  fresh_at T m → <[T := Dir]> m !! q = staged S T [] m q.
Proof.
  intros Hfresh. destruct (decide (q = T)) as [->|Hne].
  - rewrite lookup_insert_eq. rewrite <- (app_nil_r T) at 2. by rewrite staged_below.
  - rewrite lookup_insert_ne by done.
    destruct (decide (T `prefix_of` q)) as [[x ->]|Hout].
    + rewrite staged_below. destruct x as [|n r].
      * by rewrite app_nil_r in Hne.
      * rewrite decide_False by apply not_elem_of_nil.
        apply (fresh_at_lookup T); [done|]. by apply prefix_app_r.
    + by rewrite staged_outside.
Qed.

Lemma staged_all_mirrored (S T : fspath) (m : gmap fspath entry) (q : fspath) :
  tree_closed m → m !! S = Some Dir →
  staged S T (children S m) m q = mirrored S T m q.
Proof.
  intros Hclosed HS. unfold staged, mirrored.
  destruct (decide (T `prefix_of` q)); [|done].
  destruct (drop (length T) q) as [|n r].
  - by rewrite app_nil_r, HS.
  - destruct (decide (n ∈ children S m)) as [Hin|Hnin]; [done|].
    destruct (m !! (S ++ n :: r)) as [e|] eqn:E; [|done].
    destruct Hnin. apply elem_of_children.
    destruct r as [|z r _] using rev_ind; [by rewrite E|].
    exists Dir. apply (tree_closed_ancestor m (S ++ [n]) (r ++ [z])); [done| |].
    + by destruct r.
    + rewrite <- app_assoc. simpl. by rewrite E.
Qed.

Lemma stat_entry_absent w (p : string) :
  isAbsolute p = true → fs w !! resolve [] p = None → stat_entry w p = None.
Proof.
  intros Hp Hn. unfold stat_entry. case_bool_decide; [done|].
  by rewrite (resolve_absolute _ p), Hn.
Qed.

Lemma fsMkdir_fresh w (p : string) :
  isAbsolute p = true → fs w !! resolve [] p = None →
  fs w !! parent_of (resolve [] p) = Some Dir →
  fsMkdir p w = (Val tt, set_fs (<[resolve [] p := Dir]> (fs w)) w).
Proof.
  intros Hp Hn Hpar. unfold fsMkdir.
  rewrite bool_decide_eq_false_2 by by apply isAbsolute_nonempty.
  by rewrite (resolve_absolute _ p), Hn, Hpar.
Qed.

Lemma snoc_prefix_snoc_inv (S T : fspath) (n : string) :
  (S ++ [n]) `prefix_of` (T ++ [n]) → S `prefix_of` T.
Proof.
  intros [x Hx]. destruct x as [|z x _] using rev_ind.
  - rewrite app_nil_r in Hx. by apply app_inj_tail in Hx as [-> _].
  - rewrite !app_assoc in Hx. apply app_inj_tail in Hx as [-> _].
    rewrite <- app_assoc. by apply prefix_app_r.
Qed.

Section Copying.

Variables (s t : string) (m0 : gmap fspath entry).
Hypothesis Hs : isAbsolute s = true.
Hypothesis Ht : isAbsolute t = true.
Hypothesis Hwf : wf_fs m0.
Hypothesis Hpar : m0 !! parent_of (resolve [] t) = Some Dir.
Hypothesis Hfresh : fresh_at (resolve [] t) m0.
Hypothesis HST : ¬ resolve [] s `prefix_of` resolve [] t.
Hypothesis HTS : ¬ resolve [] t `prefix_of` resolve [] s.

Variables (names : list string) (w : World).
Hypothesis Hw : ∀ q, fs w !! q = staged (resolve [] s) (resolve [] t) names m0 q.

Lemma source_as_it_was (x : fspath) :
  fs w !! (resolve [] s ++ x) = m0 !! (resolve [] s ++ x).
Proof. rewrite Hw, staged_outside; [done|]. by apply apart_below. Qed.

Lemma target_item_absent (n : string) (r : fspath) :
  n ∉ names → fs w !! (resolve [] t ++ n :: r) = None.
Proof. intros Hn. by rewrite Hw, staged_below, decide_False. Qed.

Lemma target_is_directory : fs w !! resolve [] t = Some Dir.
Proof. rewrite Hw. rewrite <- (app_nil_r (resolve [] t)) at 2. by rewrite staged_below. Qed.

Lemma wf_while_copying : wf_fs (fs w).
Proof.
  eapply (wf_staged (resolve [] s) (resolve [] t) m0); eauto using resolve_valid.
Qed.

Lemma fsStat_source (n : string) (e : entry) :
  valid_name n → m0 !! (resolve [] s ++ [n]) = Some e →
  fsStat (Path_join s n) w = (Val (stats_of e), w).
Proof.
  intros Hn He. apply fsStat_some. by rewrite stat_entry_child, source_as_it_was.
Qed.

Lemma fsCopyFile_staged (n : string) (c : string) :
  valid_name n → n ∉ names → m0 !! (resolve [] s ++ [n]) = Some (File c) →
  ∃ w', fsCopyFile (Path_join s n) (Path_join t n) w = (Val tt, w')
        ∧ ∀ q, fs w' !! q = staged (resolve [] s) (resolve [] t) (names ++ [n]) m0 q.
Proof.
  intros Hn Hnew Hfile. eexists. split.
  - unfold fsCopyFile. rewrite stat_entry_child, source_as_it_was, Hfile by done.
    rewrite bool_decide_eq_false_2
      by by apply isAbsolute_nonempty, isAbsolute_Path_join.
    rewrite resolve_Path_join_name, target_item_absent by done.
    rewrite trailingSeparator_Path_join_name, parent_of_snoc by done.
    by rewrite target_is_directory.
  - intros q. simpl. by apply staged_file.
Qed.

Lemma copyDirectory_staged (fuel : nat) (n : string) :
  copy_spec fuel →
  valid_name n → n ∉ names → m0 !! (resolve [] s ++ [n]) = Some Dir →
  depth_within (resolve [] s ++ [n]) fuel m0 →
  ∃ w', copyDirectory fuel (Path_join s n) (Path_join t n) w = (Val tt, w')
        ∧ ∀ q, fs w' !! q = staged (resolve [] s) (resolve [] t) (names ++ [n]) m0 q.
Proof.
  intros Hspec Hn Hnew Hdir Hdepth.
  destruct (Hspec (Path_join s n) (Path_join t n) w) as (w' & Hrun & Hw').
  - by apply isAbsolute_Path_join.
  - by apply isAbsolute_Path_join.
  - apply wf_while_copying.
  - by rewrite resolve_Path_join_name, source_as_it_was.
  - rewrite resolve_Path_join_name, parent_of_snoc by done. apply target_is_directory.
  - rewrite resolve_Path_join_name by done. intros q e Hq [x ->].
    rewrite <- app_assoc in Hq. simpl in Hq. by rewrite target_item_absent in Hq.
  - rewrite !resolve_Path_join_name by done. by intros ?%snoc_prefix_snoc_inv.
  - rewrite resolve_Path_join_name by done. intros q e Hq [x ->].
    rewrite <- app_assoc in Hq. rewrite source_as_it_was in Hq.
    rewrite app_assoc in Hq. apply (Hdepth _ _ Hq). by apply prefix_app_r.
  - exists w'. split; [done|]. intros q.
    rewrite !resolve_Path_join_name in Hw' by done.
    by apply (staged_directory _ _ m0 Hwf HST HTS names n (fs w)).
Qed.

End Copying.

Lemma copyDirectory_loop (fuel : nat) (s t : string) (m0 : gmap fspath entry) (todo : list string) :
  copy_spec fuel →
  isAbsolute s = true → isAbsolute t = true → wf_fs m0 →
  m0 !! parent_of (resolve [] t) = Some Dir → fresh_at (resolve [] t) m0 →
  ¬ resolve [] s `prefix_of` resolve [] t →
  ¬ resolve [] t `prefix_of` resolve [] s →
  ∀ (names : list string) w,
    Forall valid_name todo → NoDup (names ++ todo) →
    Forall (λ n, is_Some (m0 !! (resolve [] s ++ [n]))) todo →
    Forall (λ n, depth_within (resolve [] s ++ [n]) fuel m0) todo →
    (∀ q, fs w !! q = staged (resolve [] s) (resolve [] t) names m0 q) →
    ∃ w', forM_ todo (copyDirectory_item (copyDirectory fuel) s t) w = (Val tt, w')
          ∧ ∀ q, fs w' !! q
                 = staged (resolve [] s) (resolve [] t) (names ++ todo) m0 q.
Proof.
  intros Hspec Hs Ht Hwf Hpar Hfresh HST HTS.
  induction todo as [|n todo IH]; intros names w Hvalid Hnodup Hthere Hdepth Hw.
  { exists w. split; [done|]. by rewrite app_nil_r. }
  apply Forall_cons in Hvalid as [Hn Hvalid].
  apply Forall_cons in Hthere as [[e He] Hthere].
  apply Forall_cons in Hdepth as [Hdn Hdepth].
  assert (Hnew : n ∉ names).
  { apply NoDup_app in Hnodup as (_ & Hnot & _). intros Hin.
    apply (Hnot _ Hin). by left. }
  assert (Hitem : ∃ w1, copyDirectory_item (copyDirectory fuel) s t n w = (Val tt, w1)
            ∧ ∀ q, fs w1 !! q
                   = staged (resolve [] s) (resolve [] t) (names ++ [n]) m0 q).
  { unfold copyDirectory_item.
    rewrite (bind_val _ _ _ _ _
               (fsStat_source s t m0 Hs HST HTS names w Hw n e Hn He)).
    destruct e as [c| |]; simpl.
    - by eapply fsCopyFile_staged.
    - by eapply copyDirectory_staged.
    - exists w. split; [done|]. intros q.
      rewrite (staged_skip _ _ m0 Hwf names n q) by by right. apply Hw. }
  destruct Hitem as (w1 & Hrun1 & Hw1).
  destruct (IH (names ++ [n]) w1) as (w' & Hrun & Hw'); try done.
  { by rewrite <- app_assoc. }
  exists w'. split.
  - by rewrite forM_cons, (bind_val _ _ _ _ _ Hrun1).
  - intros q. rewrite Hw'. by rewrite <- app_assoc.
Qed.

Lemma copy_spec_all (fuel : nat) : copy_spec fuel.
Proof.
  induction fuel as [|fuel IH];
    intros s t w Hs Ht Hwf Hsrc Hpar Hfresh HST Hdepth.
  { specialize (Hdepth _ _ Hsrc (reflexivity _)). lia. }
  assert (HTS : ¬ resolve [] t `prefix_of` resolve [] s).
  { intros Hp. by rewrite (fresh_at_lookup _ _ _ Hfresh Hp) in Hsrc. }
  assert (Hnone : fs w !! resolve [] t = None) by by apply (fresh_at_lookup (resolve [] t)).
  set (w1 := set_fs (<[resolve [] t := Dir]> (fs w)) w).
  assert (Hw1 : ∀ q, fs w1 !! q = staged (resolve [] s) (resolve [] t) [] (fs w) q).
  { intros q. by apply staged_start. }
  assert (Hsame : ∀ x, fs w1 !! (resolve [] s ++ x) = fs w !! (resolve [] s ++ x)).
  { intros x. by apply (source_as_it_was s t (fs w) HST HTS [] w1). }
  assert (Hwf1 : wf_fs (fs w1)).
  { eapply (wf_staged (resolve [] s) (resolve [] t) (fs w));
      eauto using resolve_valid. }
  assert (Hkids : ∀ n, n ∈ children (resolve [] s) (fs w1)
                       ↔ n ∈ children (resolve [] s) (fs w)).
  { intros n. by rewrite !elem_of_children, Hsame. }
  destruct (copyDirectory_loop fuel s t (fs w) (children (resolve [] s) (fs w1))
              IH Hs Ht Hwf Hpar Hfresh HST HTS [] w1) as (w' & Hrun & Hw'); try done.
  - apply children_valid, Hwf1.
  - apply NoDup_children.
  - apply Forall_forall. intros n Hn. apply Hkids in Hn. by apply elem_of_children.
  - apply Forall_forall. intros n _ q e Hq Hp.
    assert (Hlen := Hdepth q e Hq (transitivity (prefix_app_r _ _ [n] (reflexivity _)) Hp)).
    rewrite length_app. simpl. lia.
  - exists w'. split.
    + simpl. rewrite (bind_val _ _ _ _ _ (fsExist_none _ _ (stat_entry_absent _ _ Ht Hnone))).
      rewrite (bind_val _ _ _ _ _ (fsMkdir_fresh w t Ht Hnone Hpar)).
      fold w1.
      assert (Hread : fsReaddir s w1 = (Val (children (resolve [] s) (fs w1)), w1)).
      { unfold fsReaddir. rewrite (stat_entry_Dir w1 s Hs).
        - by rewrite (resolve_absolute _ s).
        - specialize (Hsame []). rewrite app_nil_r in Hsame. by rewrite Hsame. }
      by rewrite (bind_val _ _ _ _ _ Hread).
    + intros q. rewrite Hw'. simpl. by apply staged_ext.
Qed.

Lemma processCopy_loop (fuel : nat) (s t : string) (m0 : gmap fspath entry)
    (todo : list string) :
  isAbsolute s = true → isAbsolute t = true → wf_fs m0 →
  m0 !! parent_of (resolve [] t) = Some Dir → fresh_at (resolve [] t) m0 →
  ¬ resolve [] s `prefix_of` resolve [] t →
  ¬ resolve [] t `prefix_of` resolve [] s →
  ∀ (names : list string) w,
    Forall valid_name todo → NoDup (names ++ todo) →
    Forall (λ n, depth_within (resolve [] s ++ [n]) fuel m0) todo →
    (∀ q, fs w !! q = staged (resolve [] s) (resolve [] t) names m0 q) →
    ∃ w', forM_ todo (processCopy_item fuel s t) w = (Val tt, w')
          ∧ ∀ q, fs w' !! q
                 = staged (resolve [] s) (resolve [] t) (names ++ todo) m0 q.
Proof.
  intros Hs Ht Hwf Hpar Hfresh HST HTS.
  induction todo as [|n todo IH]; intros names w Hvalid Hnodup Hdepth Hw.
  { exists w. split; [done|]. by rewrite app_nil_r. }
  apply Forall_cons in Hvalid as [Hn Hvalid].
  apply Forall_cons in Hdepth as [Hdn Hdepth].
  assert (Hnew : n ∉ names).
  { apply NoDup_app in Hnodup as (_ & Hnot & _). intros Hin.
    apply (Hnot _ Hin). by left. }
  assert (Hitem : ∃ w1, processCopy_item fuel s t n w = (Val tt, w1)
            ∧ ∀ q, fs w1 !! q
                   = staged (resolve [] s) (resolve [] t) (names ++ [n]) m0 q).
  { unfold processCopy_item.
    assert (Hst : stat_entry w (Path_join s n) = m0 !! (resolve [] s ++ [n])).
    { rewrite stat_entry_child by done.
      by apply (source_as_it_was s t m0 HST HTS names w). }
    destruct (m0 !! (resolve [] s ++ [n])) as [e|] eqn:He.
    - rewrite (bind_val _ _ _ _ _ (fsExist_some _ _ _ Hst)).
      rewrite (bind_val _ _ _ _ _ (fsStat_some _ _ _ Hst)).
      destruct e as [c| |]; simpl.
      + rewrite log_to_bind. eapply (fsCopyFile_staged s t m0); eauto.
      + rewrite log_to_bind.
        eapply (copyDirectory_staged s t m0); eauto using copy_spec_all.
      + eexists. split; [reflexivity|]. intros q. simpl.
        rewrite (staged_skip _ _ m0 Hwf names n q) by by right. apply Hw.
    - rewrite (bind_val _ _ _ _ _ (fsExist_none _ _ Hst)).
      eexists. split; [reflexivity|]. intros q. simpl.
      rewrite (staged_skip _ _ m0 Hwf names n q) by by left. apply Hw. }
  destruct Hitem as (w1 & Hrun1 & Hw1).
  destruct (IH (names ++ [n]) w1) as (w' & Hrun & Hw'); try done.
  { by rewrite <- app_assoc. }
  exists w'. split.
  - by rewrite forM_cons, (bind_val _ _ _ _ _ Hrun1).
  - intros q. rewrite Hw'. by rewrite <- app_assoc.
Qed.


Lemma processCopy_staged (fuel : nat)
    (workingPath targetPath : string) (files : list string) w :
  isAbsolute workingPath = true → isAbsolute targetPath = true →
  wf_fs (fs w) →
  fs w !! parent_of (resolve [] targetPath) = Some Dir →
  fresh_at (resolve [] targetPath) (fs w) →
  ¬ resolve [] workingPath `prefix_of` resolve [] targetPath →
  ¬ resolve [] targetPath `prefix_of` resolve [] workingPath →
  Forall valid_name files → NoDup files →
  Forall (λ n, depth_within (resolve [] workingPath ++ [n]) fuel (fs w)) files →
  ∃ w', processCopy fuel workingPath targetPath files w = (Val tt, w')
        ∧ ∀ q, fs w' !! q
               = staged (resolve [] workingPath) (resolve [] targetPath)
                   files (fs w) q.
Proof.
  intros Hs Ht Hwf Hpar Hfresh HST HTS Hvalid Hnodup Hdepth.
  assert (Hnone : fs w !! resolve [] targetPath = None)
    by by apply (fresh_at_lookup (resolve [] targetPath)).
  set (w1 := set_fs (<[resolve [] targetPath := Dir]> (fs w)) w).
  destruct (processCopy_loop fuel workingPath targetPath (fs w) files
              Hs Ht Hwf Hpar Hfresh HST HTS [] w1) as (w' & Hrun & Hw'); try done.
  { intros q. by apply staged_start. }
  exists w'. split; [|done].
  unfold processCopy.
  rewrite (bind_val _ _ _ _ _ (fsExist_none _ _ (stat_entry_absent _ _ Ht Hnone))).
  by rewrite (bind_val _ _ _ _ _ (fsMkdir_fresh w targetPath Ht Hnone Hpar)).
Qed.


(** ** Removing a directory tree, whatever comes of it *)

Lemma only_removed_below_refl (t : fspath) w : only_removed_below t w w.
Proof. split; [|done]. intros q. by left. Qed.

Lemma only_removed_below_trans (t : fspath) w1 w2 w3 :
  only_removed_below t w1 w2 → only_removed_below t w2 w3 →
  only_removed_below t w1 w3.
Proof.
  intros (H12 & Hl12 & Hc12) (H23 & Hl23 & Hc23). split; [|split; congruence].
  intros q. destruct (H23 q) as [E23|[Hp E23]]; [|by right].
  rewrite E23. apply H12.
Qed.

Lemma only_removed_below_weaken (t t' : fspath) w w' :
  t `prefix_of` t' → only_removed_below t' w w' → only_removed_below t w w'.
Proof.
  intros Htt (H & Hl & Hc). split; [|done]. intros q.
  destruct (H q) as [E|[Hp E]]; [by left|right]. split; [by etrans|done].
Qed.

Lemma only_removed_below_delete (t : fspath) w :
  only_removed_below t w (set_fs (delete t (fs w)) w).
Proof.
  split; [|done]. intros q. simpl. destruct (decide (q = t)) as [->|Hne].
  - right. by rewrite lookup_delete_eq.
  - left. by rewrite lookup_delete_ne.
Qed.

Lemma names_ok_delete (m : gmap fspath entry) (p : fspath) :
  names_ok m → names_ok (delete p m).
Proof. apply map_Forall_delete. Qed.

Lemma fsUnlink_only_removes (p : string) w o w' :
  isAbsolute p = true → names_ok (fs w) → fsUnlink p w = (o, w') →
  only_removed_below (resolve [] p) w w' ∧ names_ok (fs w').
Proof.
  intros Hp Hok. unfold fsUnlink. rewrite (resolve_absolute _ p) by done.
  destruct (stat_entry w p) as [[]|]; intros [= <- <-];
    (split; [first [apply only_removed_below_delete | apply only_removed_below_refl]|]);
    try done; by apply names_ok_delete.
Qed.

Lemma fsRmdir_only_removes (p : string) w o w' :
  isAbsolute p = true → names_ok (fs w) → fsRmdir p w = (o, w') →
  only_removed_below (resolve [] p) w w' ∧ names_ok (fs w').
Proof.
  intros Hp Hok. unfold fsRmdir. rewrite (resolve_absolute _ p) by done.
  destruct (stat_entry w p) as [[]|]; repeat case_bool_decide; intros [= <- <-];
    (split; [first [apply only_removed_below_delete | apply only_removed_below_refl]|]);
    try done; by apply names_ok_delete.
Qed.

Lemma rm_item_only_removes (rec : string → M unit) (dirPath n : string) w o w' :
  (∀ p w o w', isAbsolute p = true → names_ok (fs w) → rec p w = (o, w') →
     only_removed_below (resolve [] p) w w' ∧ names_ok (fs w')) →
  isAbsolute dirPath = true → valid_name n → names_ok (fs w) →
  rmDirectoryRecursive_item rec dirPath n w = (o, w') →
  only_removed_below (resolve [] dirPath) w w' ∧ names_ok (fs w').
Proof.
  intros Hrec Hd Hn Hok. unfold rmDirectoryRecursive_item. rewrite bind_eq.
  assert (Hbelow : resolve [] dirPath `prefix_of` resolve [] (Path_join dirPath n)).
  { rewrite resolve_Path_join_name by done. by apply prefix_app_r. }
  assert (Habs : isAbsolute (Path_join dirPath n) = true)
    by by apply isAbsolute_Path_join.
  destruct (fsStat _ w) as [[st|e|e|] w1] eqn:Hst;
    apply fsStat_same_world in Hst as ->;
    try (intros [= <- <-]; split; [apply only_removed_below_refl|done]).
  destruct (isFile st).
  { intros H. destruct (fsUnlink_only_removes _ _ _ _ Habs Hok H). split; [|done].
    by eapply only_removed_below_weaken. }
  destruct (isDirectory st).
  { intros H. destruct (Hrec _ _ _ _ Habs Hok H). split; [|done].
    by eapply only_removed_below_weaken. }
  intros [= <- <-]. split; [apply only_removed_below_refl|done].
Qed.

Lemma rm_loop_only_removes (rec : string → M unit) (dirPath : string)
    (names : list string) :
  (∀ p w o w', isAbsolute p = true → names_ok (fs w) → rec p w = (o, w') →
     only_removed_below (resolve [] p) w w' ∧ names_ok (fs w')) →
  isAbsolute dirPath = true → Forall valid_name names →
  ∀ w o w', names_ok (fs w) →
    forM_ names (rmDirectoryRecursive_item rec dirPath) w = (o, w') →
    only_removed_below (resolve [] dirPath) w w' ∧ names_ok (fs w').
Proof.
  intros Hrec Hd. induction names as [|n names IH]; intros Hvalid w o w' Hok.
  { intros [= <- <-]. split; [apply only_removed_below_refl|done]. }
  apply Forall_cons in Hvalid as [Hn Hvalid]. rewrite forM_cons, bind_eq.
  destruct (rmDirectoryRecursive_item rec dirPath n w) as [[[]|e|e|] w1] eqn:Hitem;
    destruct (rm_item_only_removes _ _ _ _ _ _ Hrec Hd Hn Hok Hitem) as [H1 Hok1];
    try (by intros [= <- <-]).
  intros Hrest. destruct (IH Hvalid _ _ _ Hok1 Hrest) as [H2 Hok2].
  split; [|done]. by eapply only_removed_below_trans.
Qed.

Lemma rm_only_removes (fuel : nat) (dirPath : string) w o w' :
  isAbsolute dirPath = true → names_ok (fs w) →
  rmDirectoryRecursive fuel dirPath w = (o, w') →
  only_removed_below (resolve [] dirPath) w w' ∧ names_ok (fs w').
Proof.
  revert dirPath w o w'. induction fuel as [|fuel IH]; intros dirPath w o w' Hd Hok.
  { intros [= <- <-]. split; [apply only_removed_below_refl|done]. }
  simpl. rewrite bind_eq.
  destruct (fsReaddir dirPath w) as [[names|e|e|] w1] eqn:Hread;
    destruct (fsReaddir_names _ _ _ _ Hok Hread) as [-> Hnames];
    try (intros [= <- <-]; split; [apply only_removed_below_refl|done]).
  rewrite bind_eq.
  destruct (forM_ names _ w) as [[[]|e|e|] w2] eqn:Hloop;
    destruct (rm_loop_only_removes _ dirPath names IH Hd (Hnames _ eq_refl)
                _ _ _ Hok Hloop) as [H1 Hok1];
    try (by intros [= <- <-]).
  intros Hrm. destruct (fsRmdir_only_removes _ _ _ _ Hd Hok1 Hrm) as [H2 Hok2].
  split; [|done]. by eapply only_removed_below_trans.
Qed.

(** ** The name of the staging directory *)

Lemma staging_name_valid (name timestamp : string) :
  no_slash name = true → no_slash timestamp = true →
  valid_name (name +:+ "-" +:+ timestamp).
Proof.
  intros Hname Hts. repeat split.
  - by intros [_ [? _]%string_app_eq_empty]%string_app_eq_empty.
  - destruct name as [|c [|c' r]]; [done|done|].
    change (String c (String c' (r +:+ "-" +:+ timestamp)) ≠ ".").
    done.
  - destruct name as [|c [|c' r]]; [done|done|].
    change (String c (String c' (r +:+ "-" +:+ timestamp)) ≠ "..").
    intros [= _ _ [_ [? _]%string_app_eq_empty]%string_app_eq_empty]. done.
  - by rewrite !no_slash_app, Hname, Hts.
Qed.

Section StartAndStages.

Variable host : Host.

(** X10: a run that finds no configuration file, a directory in its
    place or a file that does not parse does
    nothing: its one trace is an error line of the main logger, and the
    process still ends with code 0.  Where the file is missing the line is
    the program's own message. *)
Theorem run_without_usable_configuration (fuel : nat) w :
  stat_entry w (Path_join (workingPath host) configFileName) ≠ Some Other →
  (∀ c, stat_entry w (Path_join (workingPath host) configFileName) = Some (File c) →
        host_JSON_parse host c = None) →
  ∃ err, run host fuel w
         = Some (add_log (mkLog mainLogger ERROR (error_text err)) w, 0%nat)
         ∧ (stat_entry w (Path_join (workingPath host) configFileName) = None →
            err = Error_ (quoted "zmpack.json" +:+ " is required")).
Proof.
  intros Hfile Hparse.
  assert (Hread : ∃ err, readConfig host configFileName w = (Throw err, w)
            ∧ (stat_entry w (Path_join (workingPath host) configFileName) = None →
               err = Error_ (quoted "zmpack.json" +:+ " is required"))).
  { unfold readConfig. rewrite bind_eq, fsExist_eq.
    destruct (stat_entry w _) as [e|] eqn:Hst.
    - rewrite bool_decide_eq_true_2 by by eexists.
      rewrite bind_eq. unfold fsReadFile. rewrite Hst.
      destruct e as [c| |]; [|by eexists|done].
      rewrite (Hparse c eq_refl). by eexists.
    - rewrite bool_decide_eq_false_2 by by intros [? ?]. by eexists. }
  destruct Hread as (err & Hread & Herr). exists err. split; [|done].
  unfold run, main. by rewrite (bind_throw _ _ _ _ _ Hread).
Qed.

(** X11: a listed item the project does not have is announced as
    skipped, with the path it was looked up at, and the copy stage goes on
    with the next item. *)
Theorem missing_copy_source_is_skipped (fuel : nat) (workingPath targetPath : string)
    (itemName : string) (files : list string) w :
  stat_entry w (Path_join workingPath itemName) = None →
  processCopy_item fuel workingPath targetPath itemName w
    = (Val tt, add_log (not_exists_line (Path_join workingPath itemName)) w)
  ∧ forM_ (itemName :: files) (processCopy_item fuel workingPath targetPath) w
    = forM_ files (processCopy_item fuel workingPath targetPath)
        (add_log (not_exists_line (Path_join workingPath itemName)) w).
Proof.
  intros Hst.
  assert (Hstep : processCopy_item fuel workingPath targetPath itemName w
            = (Val tt, add_log (not_exists_line (Path_join workingPath itemName)) w)).
  { unfold processCopy_item. by rewrite (bind_val _ _ _ _ _ (fsExist_none _ _ Hst)). }
  split; [exact Hstep|]. by rewrite forM_cons, (bind_val _ _ _ _ _ Hstep).
Qed.

(** X12: the staging directory is created one level deep: where its
    parent is not a directory the copy stage is rejected before it looks
    at any item, and nothing has changed. *)
Theorem processCopy_needs_the_parent_directory (fuel : nat)
    (workingPath targetPath : string) (files : list string) w :
  isAbsolute targetPath = true →
  fs w !! resolve [] targetPath = None →
  fs w !! parent_of (resolve [] targetPath) ≠ Some Dir →
  ∃ e, (e = ENOENT ∨ e = ENOTDIR)
       ∧ processCopy fuel workingPath targetPath files w = (Throw e, w).
Proof.
  intros Ht Hnone Hpar. unfold processCopy.
  rewrite (bind_val _ _ _ _ _ (fsExist_none _ _ (stat_entry_absent _ _ Ht Hnone))).
  rewrite bind_eq. unfold fsMkdir.
  rewrite bool_decide_eq_false_2 by by apply isAbsolute_nonempty.
  rewrite (resolve_absolute _ targetPath), Hnone by done.
  destruct (fs w !! parent_of _) as [[]|]; try done; eauto.
Qed.

(** X13: the pack stage logs a change of directory it does not make:
    whatever the archiver does, [processPack] begins its log with the
    trace line and leaves the working directory where it was. *)
Theorem processPack_logs_chdir_but_stays (workingPath targetFilePath : string)
    w o w' :
  processPack host workingPath targetFilePath w = (o, w') →
  cwd w' = cwd w ∧ ∃ l, log w' = log w ++ chdir_line workingPath :: l.
Proof.
  unfold processPack. rewrite log_to_bind. fold (chdir_line workingPath).
  set (w0 := add_log (chdir_line workingPath) w).
  assert (Hstep : ∀ (m : M unit),
            post (λ w1 w2, cwd w2 = cwd w1 ∧ ∃ l, log w2 = log w1 ++ l) m →
            m w0 = (o, w') →
            cwd w' = cwd w ∧ ∃ l, log w' = log w ++ chdir_line workingPath :: l).
  { intros m Hm Hrun. destruct (Hm _ _ _ Hrun) as [Hc [l Hl]]. split; [done|].
    exists l. rewrite Hl. simpl. by rewrite <- app_assoc. }
  apply Hstep.
  assert (Hlog : ∀ lg lv msg,
            post (λ w1 w2, cwd w2 = cwd w1 ∧ ∃ l, log w2 = log w1 ++ l)
              (log_to lg lv msg)).
  { intros lg lv msg w1 o1 w2 [= <- <-]. split; [done|]. by eexists. }
  assert (Hrefl : Reflexive (λ w1 w2 : World, cwd w2 = cwd w1 ∧ ∃ l, log w2 = log w1 ++ l)).
  { intros w1. split; [done|]. exists []. by rewrite app_nil_r. }
  assert (Htrans : Transitive (λ w1 w2 : World, cwd w2 = cwd w1 ∧ ∃ l, log w2 = log w1 ++ l)).
  { intros w1 w2 w3 [Hc1 [l1 Hl1]] [Hc2 [l2 Hl2]]. split; [congruence|].
    exists (l1 ++ l2). by rewrite Hl2, Hl1, app_assoc. }
  apply post_bind; try apply _.
  { intros w1 o1 w2. unfold archiver_events.
    destruct (host_archiver host _ _ w1); intros [= <- <-];
      (split; [done|]); exists []; by rewrite app_nil_r. }
  intros events. apply post_bind; try apply _.
  { apply post_forM; try apply _. intros msg. apply Hlog. }
  intros _. destruct (snd events) as [[bytes|]|msg].
  - apply Hlog.
  - apply post_ret; apply _.
  - apply post_bind; try apply _; [apply Hlog|]. intros _. apply post_uncaught; apply _.
Qed.

(** X14: with a project name that holds no separator the staging
    directory is a direct child of the temporary directory, named after
    the project and the timestamp, wherever the process stands. *)
Theorem staging_directory_is_a_child_of_tmpdir (config : Configuration)
    (timeNow : Date) (base : fspath) :
  isAbsolute (host_tmpdir host) = true → no_slash (name config) = true →
  resolve base (stagingDirectory host config (timeText timeNow))
  = resolve [] (host_tmpdir host) ++ [name config +:+ "-" +:+ timeText timeNow].
Proof.
  intros Htmp Hname. unfold stagingDirectory.
  apply resolve_Path_join_name; [done|].
  apply staging_name_valid; [done|apply no_slash_timeText].
Qed.

End StartAndStages.

(** ** Staging, then cleaning up *)

Lemma rm_staged (fuel : nat) (s t : string) (m0 : gmap fspath entry)
    (names : list string) w :
  isAbsolute t = true → wf_fs m0 →
  m0 !! parent_of (resolve [] t) = Some Dir → fresh_at (resolve [] t) m0 →
  ¬ resolve [] s `prefix_of` resolve [] t →
  ¬ resolve [] t `prefix_of` resolve [] s →
  (∀ q, fs w !! q = staged (resolve [] s) (resolve [] t) names m0 q) →
  (∀ n r, n ∈ names → is_Some (m0 !! (resolve [] s ++ n :: r)) →
          length (n :: r) < fuel) →
  (0 < fuel)%nat →
  rmDirectoryRecursive fuel t w = (Val tt, set_fs m0 w).
Proof.
  intros Ht Hwf Hpar Hfresh HST HTS Hw Hdepth Hfuel.
  assert (Hwf1 : wf_fs (fs w)).
  { eapply (wf_staged (resolve [] s) (resolve [] t) m0); eauto using resolve_valid. }
  assert (Hdir : fs w !! resolve [] t = Some Dir).
  { rewrite Hw. rewrite <- (app_nil_r (resolve [] t)) at 2. by rewrite staged_below. }
  assert (Hroot : resolve [] t ≠ []).
  { intros E. rewrite E in Hfresh, Hpar.
    by rewrite (fresh_at_lookup [] m0 (parent_of []) Hfresh (prefix_nil _)) in Hpar. }
  destruct (rm_spec_all fuel t w Ht Hwf1 Hdir Hroot) as [Hrm _].
  { intros q [x ->] [e He]. rewrite Hw, staged_below in He. rewrite length_app.
    destruct x as [|n r]; [simpl; lia|].
    destruct (decide (n ∈ names)) as [Hin|]; [|done].
    assert (Hlen : length (n :: r) < fuel).
    { apply Hdepth; [done|].
      destruct (m0 !! (resolve [] s ++ n :: r)); [by eexists|done]. }
    lia. }
  rewrite Hrm.
  - f_equal. f_equal. apply map_eq. intros q. rewrite lookup_remove_tree.
    destruct (decide (resolve [] t `prefix_of` q)) as [Hp|Hp].
    + symmetry. by apply (fresh_at_lookup (resolve [] t)).
    + by rewrite Hw, staged_outside.
  - intros q e He [x ->]. rewrite Hw, staged_below in He.
    destruct x as [|n r]; [by injection He as <-|].
    destruct (decide (n ∈ names)); [|done].
    destruct (m0 !! (resolve [] s ++ n :: r)) as [[]|]; simpl in He; congruence.
Qed.



(** ** The width of the timestamp *)

Lemma two_digits (n : nat) :
  n < 100 → String.length (padStart 2 "0" (toString n)) = 2%nat.
Proof.
  intros Hn.
  assert (Hall : forallb (λ k, Nat.eqb (String.length (padStart 2 "0" (toString k))) 2)
                   (seq 0 100) = true) by (vm_compute; reflexivity).
  rewrite forallb_forall in Hall. apply Nat.eqb_eq, Hall, in_seq. lia.
Qed.

(** X17: with the fields in their ranges the timestamp is the year
    followed by ten characters: the two-digit padding fixes the width of
    every field after the year. *)
Theorem timeText_is_year_and_ten_characters (timeNow : Date) :
  getMonth timeNow < 12 → getDay timeNow < 7 → getHours timeNow < 24 →
  getMinutes timeNow < 60 → getSeconds timeNow < 60 →
  ∃ rest, timeText timeNow = toString (getFullYear timeNow) +:+ rest
          ∧ String.length rest = 10%nat.
Proof.
  intros Hmo Hd Hh Hmi Hs. eexists. split; [reflexivity|].
  rewrite !string_length_app, !two_digits by lia. done.
Qed.
(** * Removal on the filesystem with symbolic links *)

(** ** Path strings *)

Lemma path_string_absolute (q : fspath) : isAbsolute (path_string q) = true.
Proof. reflexivity. Qed.

Lemma resolve_path_string (base q : fspath) :
  Forall valid_name q → resolve base (path_string q) = q.
Proof.
  intros Hq. unfold path_string.
  rewrite <- (string_app_empty_r (join_slash q)).
  apply (resolve_rendered base q false Hq).
Qed.

Lemma split_slash_path_string (q : fspath) :
  Forall valid_name q → q ≠ [] → split_slash (path_string q) = "" :: q.
Proof.
  intros Hq Hne. destruct q as [|n q]; [done|].
  change (split_slash (path_string (n :: q)))
    with ("" :: split_slash (join_slash (n :: q))).
  by rewrite split_slash_join_names.
Qed.

Lemma Path_join_path_string (q : fspath) (n : string) :
  Forall valid_name q → q ≠ [] → valid_name n →
  Path_join (path_string q) n = path_string (q ++ [n]).
Proof.
  intros Hq Hne Hn. unfold path_string.
  rewrite Path_join_rendered, join_slash_snoc_eq by done.
  by rewrite !string_app_assoc.
Qed.

Lemma stat_entry_path_string w (q : fspath) :
  Forall valid_name q → q ≠ [] → stat_entry w (path_string q) = fs w !! q.
Proof.
  intros Hq Hne. unfold stat_entry.
  rewrite bool_decide_eq_false_2 by done.
  rewrite resolve_path_string by done.
  unfold path_string. rewrite trailingSeparator_rendered by done.
  by destruct (fs w !! q) as [[]|].
Qed.

(** ** The walk along a path without symbolic links *)

Lemma linked_walk_nil (b : nat) lw (follow : bool) (cur : fspath) :
  Links.walk (S b) lw follow cur [] = inr cur.
Proof. reflexivity. Qed.

Lemma linked_walk_skip (b : nat) lw (follow : bool) (cur : fspath)
    (rest : list string) :
  Links.walk (S b) lw follow cur ("" :: rest) = Links.walk (S b) lw follow cur rest.
Proof. reflexivity. Qed.

Lemma linked_walk_name (b : nat) lw (follow : bool) (cur : fspath) (c : string)
    (rest : list string) :
  valid_name c →
  Links.walk (S b) lw follow cur (c :: rest)
  = match Links.node_at lw (cur ++ [c]) with
    | Some (Links.Object Dir) => Links.walk (S b) lw follow (cur ++ [c]) rest
    | Some (Links.Object _) =>
        if bool_decide (rest = []) then inr (cur ++ [c]) else inl ENOTDIR
    | Some (Links.Symlink target) =>
        if bool_decide (rest = []) && negb follow then inr (cur ++ [c])
        else if bool_decide (target = "") then inl ENOENT
        else Links.walk b lw follow (if isAbsolute target then [] else cur)
               (split_slash target ++ rest)
    | None => if bool_decide (rest = []) then inr (cur ++ [c]) else inl ENOENT
    end.
Proof.
  intros (Hne & Hdot & Hdotdot & _). simpl.
  rewrite (bool_decide_eq_false_2 (c = "" ∨ c = ".")) by by intros [|].
  rewrite (bool_decide_eq_false_2 (c = "..")) by done.
  reflexivity.
Qed.

Lemma linked_walk_down (b : nat) lw (follow : bool) (names : list string) :
  Forall valid_name names →
  ∀ cur : fspath,
    (∀ pre c post, names = pre ++ c :: post → post ≠ [] →
       Links.node_at lw (cur ++ pre ++ [c]) = Some (Links.Object Dir)) →
    (∀ target, Links.node_at lw (cur ++ names) ≠ Some (Links.Symlink target)) →
    Links.walk (S b) lw follow cur names = inr (cur ++ names).
Proof.
  induction 1 as [|c rest Hc Hrest IH]; intros cur Hdirs Hlast.
  { by rewrite app_nil_r. }
  rewrite linked_walk_name by done.
  destruct rest as [|c' rest].
  - destruct (Links.node_at lw (cur ++ [c])) as [[[]|target]|] eqn:E; try done.
    by destruct (Hlast target).
  - assert (Hd := Hdirs [] c (c' :: rest) eq_refl ltac:(done)).
    simpl in Hd. rewrite Hd, IH.
    + by rewrite <- app_assoc.
    + intros pre x post Hsplit Hpost. rewrite <- app_assoc.
      apply (Hdirs (c :: pre) x post); [|done]. simpl. by rewrite Hsplit.
    + intros target. rewrite <- app_assoc. apply Hlast.
Qed.

Lemma trim_names (names : list string) :
  Forall valid_name names → Links.trim names = names.
Proof.
  induction 1 as [|c rest Hc Hrest IH]; [done|]. simpl. rewrite IH.
  destruct rest; [|done].
  rewrite bool_decide_eq_false_2; [done|]. by destruct Hc.
Qed.

Lemma no_link_near_lookup (p q : fspath) lw :
  Links.no_link_near p lw → q `prefix_of` p ∨ p `prefix_of` q →
  Links.links lw !! q = None.
Proof.
  intros Hnl Hq. destruct (Links.links lw !! q) as [t|] eqn:E; [|done].
  destruct (Hnl _ _ E) as [H1 H2]. by destruct Hq.
Qed.

Lemma no_link_near_snoc (p : fspath) (n : string) lw :
  Links.no_link_near p lw → Links.no_link_near (p ++ [n]) lw.
Proof.
  intros Hnl q t Hq. destruct (Hnl _ _ Hq) as [H1 H2]. split.
  - intros Hpre. destruct (decide (q = p ++ [n])) as [->|Hne].
    + apply H2. by apply prefix_app_r.
    + apply H1. destruct Hpre as [x Hx].
      destruct x as [|z x _] using rev_ind.
      * rewrite app_nil_r in Hx. by destruct Hne.
      * rewrite app_assoc in Hx. apply app_inj_tail in Hx as [-> _].
        by apply prefix_app_r.
  - intros Hpre. apply H2. etrans; [|exact Hpre]. by apply prefix_app_r.
Qed.

Lemma node_at_unlinked lw (q : fspath) :
  Links.links lw !! q = None →
  Links.node_at lw q = Links.Object <$> fs (Links.plain lw) !! q.
Proof. intros Hq. unfold Links.node_at. by rewrite Hq. Qed.

(** A place is reached as its path string spells it when the directories
    above it are directories and no link is on the way. *)
Lemma linked_namei_path_string (follow : bool) lw (q : fspath) :
  Forall valid_name q → q ≠ [] →
  (∀ p, p `prefix_of` q → p ≠ q → fs (Links.plain lw) !! p = Some Dir) →
  Links.no_link_near q lw →
  Links.namei follow lw (path_string q) = inr q.
Proof.
  intros Hq Hne Hdirs Hnl. unfold Links.namei.
  rewrite bool_decide_eq_false_2 by done.
  rewrite path_string_absolute, split_slash_path_string by done.
  assert (Htrim : Links.trim ("" :: q) = "" :: q).
  { simpl. rewrite trim_names by done. by destruct q. }
  assert (Hwalk : Links.walk (S Links.MAXSYMLINKS) lw follow [] ("" :: q) = inr q).
  { rewrite linked_walk_skip.
    rewrite (linked_walk_down _ lw follow q Hq []); [done| |].
    - intros pre c post Hsplit Hpost. simpl.
      rewrite node_at_unlinked.
      + rewrite Hdirs; [done| |].
        * exists post. rewrite Hsplit. by rewrite <- app_assoc.
        * rewrite Hsplit. intros E. apply (f_equal length) in E.
          rewrite !length_app in E. simpl in E. destruct post; [done|].
          simpl in E. lia.
      + apply (no_link_near_lookup q); [done|]. left.
        exists post. rewrite Hsplit. by rewrite <- app_assoc.
    - intros target. simpl. rewrite node_at_unlinked.
      + by destruct (fs (Links.plain lw) !! q).
      + apply (no_link_near_lookup q); [done|]. by left. }
  destruct follow; [done|]. by rewrite Htrim.
Qed.

Lemma link_names_nil (q : fspath) lw :
  Links.no_link_near q lw → Links.link_names q lw = [].
Proof.
  intros Hnl. unfold Links.link_names.
  destruct (omap (child_name q) (elements (dom (Links.links lw))))
    as [|n l] eqn:E; [done|].
  assert (Hin : n ∈ omap (child_name q) (elements (dom (Links.links lw)))).
  { rewrite E. by left. }
  apply list_elem_of_omap in Hin as (p & Hp & Hchild).
  apply elem_of_elements, elem_of_dom in Hp as [t Ht].
  apply child_name_Some in Hchild as ->.
  rewrite (no_link_near_lookup q (q ++ [n]) lw Hnl) in Ht; [done|].
  right. by apply prefix_app_r.
Qed.

(** ** The calls agree where no link is met *)

Section Agreement.

Variables (q : fspath) (w : World) (ls : gmap fspath string).
Hypothesis Hq : Forall valid_name q.
Hypothesis Hne : q ≠ [].
Hypothesis Hdirs : ∀ p, p `prefix_of` q → p ≠ q → fs w !! p = Some Dir.
Hypothesis Hnl : Links.no_link_near q (Links.mkLinked w ls).

Lemma linked_node_at_place :
  Links.node_at (Links.mkLinked w ls) q = Links.Object <$> fs w !! q.
Proof.
  rewrite node_at_unlinked; [done|].
  apply (no_link_near_lookup q); [done|]. by left.
Qed.

Lemma linked_fsStat_agrees :
  Links.fsStat (path_string q) (Links.mkLinked w ls)
  = Links.lift ls (fsStat (path_string q) w).
Proof.
  unfold Links.fsStat, Links.stat_entry, fsStat.
  rewrite linked_namei_path_string, linked_node_at_place by done.
  rewrite stat_entry_path_string by done.
  by destruct (fs w !! q).
Qed.

Lemma linked_fsReaddir_agrees :
  Links.fsReaddir (path_string q) (Links.mkLinked w ls)
  = Links.lift ls (fsReaddir (path_string q) w).
Proof.
  unfold Links.fsReaddir, fsReaddir.
  rewrite linked_namei_path_string, linked_node_at_place by done.
  rewrite stat_entry_path_string, resolve_path_string by done.
  destruct (fs w !! q) as [[]|]; try done. simpl.
  unfold Links.entries. rewrite link_names_nil by done.
  by rewrite app_nil_r.
Qed.

Lemma linked_fsUnlink_agrees :
  Links.fsUnlink (path_string q) (Links.mkLinked w ls)
  = Links.lift ls (fsUnlink (path_string q) w).
Proof.
  unfold Links.fsUnlink, fsUnlink.
  rewrite linked_namei_path_string, linked_node_at_place by done.
  rewrite stat_entry_path_string, resolve_path_string by done.
  unfold path_string. rewrite trailingSeparator_rendered by done.
  by destruct (fs w !! q) as [[]|].
Qed.

Lemma linked_fsRmdir_agrees :
  Links.fsRmdir (path_string q) (Links.mkLinked w ls)
  = Links.lift ls (fsRmdir (path_string q) w).
Proof.
  unfold Links.fsRmdir, fsRmdir.
  rewrite linked_namei_path_string, linked_node_at_place by done.
  rewrite stat_entry_path_string, resolve_path_string by done.
  destruct (fs w !! q) as [[]|]; try done. simpl.
  rewrite (bool_decide_eq_false_2 (q = [])) by done.
  unfold Links.entries. rewrite link_names_nil by done.
  rewrite app_nil_r. simpl. by case_bool_decide.
Qed.

End Agreement.

(** ** The walk agrees where no link is met *)

Lemma linked_rm_unfold (fuel : nat) (dirPath : string) lw :
  Links.rmDirectoryRecursive (S fuel) dirPath lw
  = match Links.fsReaddir dirPath lw with
    | (Val files, lw1) =>
        match Links.forM_ files
                (Links.rmDirectoryRecursive_item
                   (Links.rmDirectoryRecursive fuel) dirPath) lw1 with
        | (Val _, lw2) => Links.fsRmdir dirPath lw2
        | (Throw e, lw2) => (Throw e, lw2)
        | (Uncaught e, lw2) => (Uncaught e, lw2)
        | (OutOfFuel, lw2) => (OutOfFuel, lw2)
        end
    | (Throw e, lw1) => (Throw e, lw1)
    | (Uncaught e, lw1) => (Uncaught e, lw1)
    | (OutOfFuel, lw1) => (OutOfFuel, lw1)
    end.
Proof. reflexivity. Qed.

Lemma linked_forM_cons {A : Type} (x : A) (l : list A) (body : A → Links.L unit) lw :
  Links.forM_ (x :: l) body lw
  = match body x lw with
    | (Val _, lw1) => Links.forM_ l body lw1
    | (Throw e, lw1) => (Throw e, lw1)
    | (Uncaught e, lw1) => (Uncaught e, lw1)
    | (OutOfFuel, lw1) => (OutOfFuel, lw1)
    end.
Proof. reflexivity. Qed.

Lemma linked_item_unfold (rec : string → Links.L unit) (dirPath itemName : string) lw :
  Links.rmDirectoryRecursive_item rec dirPath itemName lw
  = match Links.fsStat (Path_join dirPath itemName) lw with
    | (Val itemStat, lw1) =>
        if isFile itemStat then Links.fsUnlink (Path_join dirPath itemName) lw1
        else if isDirectory itemStat then rec (Path_join dirPath itemName) lw1
        else (Throw (Error_ (cannot_remove (Path_join dirPath itemName))), lw1)
    | (Throw e, lw1) => (Throw e, lw1)
    | (Uncaught e, lw1) => (Uncaught e, lw1)
    | (OutOfFuel, lw1) => (OutOfFuel, lw1)
    end.
Proof.
  unfold Links.rmDirectoryRecursive_item.
  change ((Links.fsStat (Path_join dirPath itemName) ≫= _) lw)
    with (match Links.fsStat (Path_join dirPath itemName) lw with
          | (Val a, lw') =>
              (if isFile a then Links.fsUnlink (Path_join dirPath itemName)
               else if isDirectory a then rec (Path_join dirPath itemName)
               else Links.throw (Error_ (cannot_remove (Path_join dirPath itemName))))
                lw'
          | (Throw e, lw') => (Throw e, lw')
          | (Uncaught e, lw') => (Uncaught e, lw')
          | (OutOfFuel, lw') => (OutOfFuel, lw')
          end).
  destruct (Links.fsStat _ lw) as [[st|e|e|] lw1]; try done.
  by destruct (isFile st), (isDirectory st).
Qed.

(** The step of an item changes nothing but at or below the item. *)
Lemma rm_item_only_removes_at (rec : string → M unit) (dirPath n : string) w o w' :
  (∀ p w o w', isAbsolute p = true → names_ok (fs w) → rec p w = (o, w') →
     only_removed_below (resolve [] p) w w' ∧ names_ok (fs w')) →
  isAbsolute dirPath = true → valid_name n → names_ok (fs w) →
  rmDirectoryRecursive_item rec dirPath n w = (o, w') →
  only_removed_below (resolve [] (Path_join dirPath n)) w w' ∧ names_ok (fs w').
Proof.
  intros Hrec Hd Hn Hok. unfold rmDirectoryRecursive_item. rewrite bind_eq.
  assert (Habs : isAbsolute (Path_join dirPath n) = true)
    by by apply isAbsolute_Path_join.
  destruct (fsStat _ w) as [[st|e|e|] w1] eqn:Hst;
    apply fsStat_same_world in Hst as ->;
    try (intros [= <- <-]; split; [apply only_removed_below_refl|done]).
  destruct (isFile st).
  { intros H. by apply (fsUnlink_only_removes _ _ _ _ Habs Hok H). }
  destruct (isDirectory st).
  { intros H. by apply (Hrec _ _ _ _ Habs Hok H). }
  intros [= <- <-]. split; [apply only_removed_below_refl|done].
Qed.

Lemma only_removed_below_above (t p : fspath) w w' :
  only_removed_below t w w' → ¬ t `prefix_of` p → fs w' !! p = fs w !! p.
Proof. intros [H _] Hp. by destruct (H p) as [|[? _]]. Qed.

Section Simulation.

Variable fuel : nat.
Hypothesis IH : ∀ (q : fspath) lw,
  Forall valid_name q → q ≠ [] → names_ok (fs (Links.plain lw)) →
  (∀ p, p `prefix_of` q → p ≠ q → fs (Links.plain lw) !! p = Some Dir) →
  Links.no_link_near q lw →
  Links.rmDirectoryRecursive fuel (path_string q) lw
  = Links.lift (Links.links lw)
      (rmDirectoryRecursive fuel (path_string q) (Links.plain lw)).

Variables (q : fspath) (ls : gmap fspath string).
Hypothesis Hq : Forall valid_name q.
Hypothesis Hne : q ≠ [].

Lemma linked_item_agrees (n : string) w :
  valid_name n → names_ok (fs w) →
  (∀ p, p `prefix_of` q → fs w !! p = Some Dir) →
  Links.no_link_near q (Links.mkLinked w ls) →
  Links.rmDirectoryRecursive_item (Links.rmDirectoryRecursive fuel)
    (path_string q) n (Links.mkLinked w ls)
  = Links.lift ls
      (rmDirectoryRecursive_item (rmDirectoryRecursive fuel) (path_string q) n w).
Proof.
  intros Hn Hok Hdirs Hnl.
  assert (Hqn : Forall valid_name (q ++ [n])).
  { apply Forall_app. split; [done|]. by apply Forall_singleton. }
  assert (Hqn_ne : q ++ [n] ≠ []) by by destruct q.
  assert (Hdirs' : ∀ p, p `prefix_of` (q ++ [n]) → p ≠ q ++ [n] →
                        fs w !! p = Some Dir).
  { intros p [x Hx] Hp. apply Hdirs.
    destruct x as [|z x _] using rev_ind.
    - rewrite app_nil_r in Hx. by destruct Hp.
    - rewrite app_assoc in Hx. apply app_inj_tail in Hx as [-> _].
      by apply prefix_app_r. }
  assert (Hnl' : Links.no_link_near (q ++ [n]) (Links.mkLinked w ls))
    by by apply no_link_near_snoc.
  rewrite linked_item_unfold. unfold rmDirectoryRecursive_item.
  rewrite Path_join_path_string by done. rewrite bind_eq.
  rewrite (linked_fsStat_agrees (q ++ [n]) w ls) by done.
  destruct (fsStat (path_string (q ++ [n])) w) as [[st|e|e|] w1] eqn:Hst;
    apply fsStat_same_world in Hst as ->; try done.
  unfold Links.lift at 1. simpl.
  destruct (isFile st); [by apply linked_fsUnlink_agrees|].
  destruct (isDirectory st); [|done].
  by apply (IH (q ++ [n]) (Links.mkLinked w ls)).
Qed.

Lemma linked_loop_agrees (names : list string) :
  Forall valid_name names →
  ∀ w, names_ok (fs w) →
    (∀ p, p `prefix_of` q → fs w !! p = Some Dir) →
    Links.no_link_near q (Links.mkLinked w ls) →
    Links.forM_ names
      (Links.rmDirectoryRecursive_item (Links.rmDirectoryRecursive fuel)
         (path_string q)) (Links.mkLinked w ls)
    = Links.lift ls
        (forM_ names
           (rmDirectoryRecursive_item (rmDirectoryRecursive fuel) (path_string q)) w).
Proof.
  induction 1 as [|n names Hn Hnames IHnames]; intros w Hok Hdirs Hnl; [done|].
  rewrite linked_forM_cons, forM_cons, bind_eq.
  rewrite linked_item_agrees by done.
  destruct (rmDirectoryRecursive_item (rmDirectoryRecursive fuel) (path_string q) n w)
    as [[[]|e|e|] w1] eqn:Hitem; try done.
  unfold Links.lift at 1. simpl.
  destruct (rm_item_only_removes_at _ _ _ _ _ _
              (rm_only_removes fuel) (path_string_absolute q) Hn Hok Hitem)
    as [Hframe Hok1].
  rewrite Path_join_path_string, resolve_path_string in Hframe; try done.
  2:{ apply Forall_app. split; [done|]. by apply Forall_singleton. }
  apply IHnames; [done| |done].
  intros p Hp. rewrite (only_removed_below_above _ p _ _ Hframe); [by apply Hdirs|].
  intros Hpre. apply (snoc_not_prefix q n). by etrans.
Qed.

End Simulation.

(** On a directory that no symbolic link leads to, lies at or lies below,
    the walk on the filesystem with links is the walk on the filesystem
    without them, with the links left where they are. *)
Lemma linked_rm_agrees (fuel : nat) (q : fspath) lw :
  Forall valid_name q → q ≠ [] → names_ok (fs (Links.plain lw)) →
  (∀ p, p `prefix_of` q → p ≠ q → fs (Links.plain lw) !! p = Some Dir) →
  Links.no_link_near q lw →
  Links.rmDirectoryRecursive fuel (path_string q) lw
  = Links.lift (Links.links lw)
      (rmDirectoryRecursive fuel (path_string q) (Links.plain lw)).
Proof.
  revert q lw. induction fuel as [|fuel IH]; intros q [w ls] Hq Hne Hok Hdirs Hnl.
  { done. }
  simpl Links.plain in *. simpl Links.links in *.
  rewrite linked_rm_unfold. simpl rmDirectoryRecursive. rewrite bind_eq.
  rewrite (linked_fsReaddir_agrees q w ls) by done.
  destruct (fsReaddir (path_string q) w) as [[names|e|e|] w1] eqn:Hread;
    destruct (fsReaddir_names _ _ _ _ Hok Hread) as [-> Hnames]; try done.
  unfold Links.lift at 1. simpl.
  assert (Hdir : fs w !! q = Some Dir).
  { unfold fsReaddir in Hread. rewrite stat_entry_path_string in Hread by done.
    by destruct (fs w !! q) as [[]|]. }
  assert (Hall : ∀ p, p `prefix_of` q → fs w !! p = Some Dir).
  { intros p Hp. destruct (decide (p = q)) as [->|]; [done|by apply Hdirs]. }
  rewrite (linked_loop_agrees fuel IH q ls Hq Hne names (Hnames _ eq_refl) w)
    by done.
  rewrite bind_eq.
  destruct (forM_ names _ w) as [[[]|e|e|] w2] eqn:Hloop; try done.
  unfold Links.lift at 1. simpl.
  destruct (rm_loop_only_removes _ (path_string q) names (rm_only_removes fuel)
              (path_string_absolute q) (Hnames _ eq_refl) _ _ _ Hok Hloop)
    as [Hframe Hok2].
  rewrite resolve_path_string in Hframe by done.
  apply linked_fsRmdir_agrees; try done.
  intros p Hp Hpq. rewrite (only_removed_below_above _ p _ _ Hframe);
    [by apply Hdirs|].
  intros Hqp. apply Hpq. by apply (anti_symm prefix).
Qed.

(** ** Nothing is added, whatever the links *)

Lemma linked_only_removed_refl lw : Links.only_removed lw lw.
Proof. repeat split; try done; intros p; by left. Qed.

Lemma linked_only_removed_trans lw1 lw2 lw3 :
  Links.only_removed lw1 lw2 → Links.only_removed lw2 lw3 →
  Links.only_removed lw1 lw3.
Proof.
  intros (Hf12 & Hl12 & ? & ? & ? & ?) (Hf23 & Hl23 & ? & ? & ? & ?).
  repeat split; try congruence.
  - intros p. destruct (Hf23 p) as [E|E]; [rewrite E; apply Hf12|by right].
  - intros p. destruct (Hl23 p) as [E|E]; [rewrite E; apply Hl12|by right].
Qed.

Lemma linked_only_removed_object lw (p : fspath) :
  Links.only_removed lw
    (Links.set_plain (set_fs (delete p (fs (Links.plain lw))) (Links.plain lw)) lw).
Proof.
  repeat split; try done; intros r; simpl; [|by left].
  destruct (decide (r = p)) as [->|Hne].
  - right. by rewrite lookup_delete_eq.
  - left. by rewrite lookup_delete_ne.
Qed.

Lemma linked_only_removed_link lw (p : fspath) :
  Links.only_removed lw (Links.set_links (delete p (Links.links lw)) lw).
Proof.
  repeat split; try done; intros r; simpl; [by left|].
  destruct (decide (r = p)) as [->|Hne].
  - right. by rewrite lookup_delete_eq.
  - left. by rewrite lookup_delete_ne.
Qed.

Lemma linked_fsStat_same (p : string) lw o lw' :
  Links.fsStat p lw = (o, lw') → lw' = lw.
Proof.
  unfold Links.fsStat. by destruct (Links.stat_entry lw p); intros [= <- <-].
Qed.

Lemma linked_fsReaddir_same (p : string) lw o lw' :
  Links.fsReaddir p lw = (o, lw') → lw' = lw.
Proof.
  unfold Links.fsReaddir. destruct (Links.namei true lw p) as [e|r].
  - by intros [= <- <-].
  - by destruct (Links.node_at lw r) as [[[]|]|]; intros [= <- <-].
Qed.

Lemma linked_fsUnlink_only_removes (p : string) lw o lw' :
  Links.fsUnlink p lw = (o, lw') → Links.only_removed lw lw'.
Proof.
  unfold Links.fsUnlink. destruct (Links.namei false lw p) as [e|r].
  { intros [= <- <-]. apply linked_only_removed_refl. }
  destruct (Links.node_at lw r) as [[[]|]|], (trailingSeparator p);
    intros [= <- <-];
    first [ apply linked_only_removed_refl
          | apply linked_only_removed_object
          | apply linked_only_removed_link ].
Qed.

Lemma linked_fsRmdir_only_removes (p : string) lw o lw' :
  Links.fsRmdir p lw = (o, lw') → Links.only_removed lw lw'.
Proof.
  unfold Links.fsRmdir. destruct (Links.namei false lw p) as [e|r].
  { intros [= <- <-]. apply linked_only_removed_refl. }
  destruct (Links.node_at lw r) as [[[]|]|]; repeat case_bool_decide;
    intros [= <- <-];
    first [ apply linked_only_removed_refl | apply linked_only_removed_object ].
Qed.

Lemma linked_item_only_removes (rec : string → Links.L unit)
    (dirPath n : string) lw o lw' :
  (∀ p lw o lw', rec p lw = (o, lw') → Links.only_removed lw lw') →
  Links.rmDirectoryRecursive_item rec dirPath n lw = (o, lw') →
  Links.only_removed lw lw'.
Proof.
  intros Hrec. rewrite linked_item_unfold.
  destruct (Links.fsStat _ lw) as [[st|e|e|] lw1] eqn:Hst;
    apply linked_fsStat_same in Hst as ->;
    try (intros [= <- <-]; apply linked_only_removed_refl).
  destruct (isFile st); [apply linked_fsUnlink_only_removes|].
  destruct (isDirectory st); [apply Hrec|].
  intros [= <- <-]. apply linked_only_removed_refl.
Qed.

Lemma linked_loop_only_removes (rec : string → Links.L unit) (dirPath : string)
    (names : list string) :
  (∀ p lw o lw', rec p lw = (o, lw') → Links.only_removed lw lw') →
  ∀ lw o lw',
    Links.forM_ names (Links.rmDirectoryRecursive_item rec dirPath) lw = (o, lw') →
    Links.only_removed lw lw'.
Proof.
  intros Hrec. induction names as [|n names IH]; intros lw o lw'.
  { intros [= <- <-]. apply linked_only_removed_refl. }
  rewrite linked_forM_cons.
  destruct (Links.rmDirectoryRecursive_item rec dirPath n lw)
    as [[[]|e|e|] lw1] eqn:Hitem;
    pose proof (linked_item_only_removes _ _ _ _ _ _ Hrec Hitem) as H1;
    try (by intros [= <- <-]).
  intros Hrest. eapply linked_only_removed_trans; [exact H1|]. by eapply IH.
Qed.

Lemma linked_rm_only_removes (fuel : nat) (dirPath : string) lw o lw' :
  Links.rmDirectoryRecursive fuel dirPath lw = (o, lw') →
  Links.only_removed lw lw'.
Proof.
  revert dirPath lw o lw'. induction fuel as [|fuel IH]; intros dirPath lw o lw'.
  { intros [= <- <-]. apply linked_only_removed_refl. }
  rewrite linked_rm_unfold.
  destruct (Links.fsReaddir dirPath lw) as [[names|e|e|] lw1] eqn:Hread;
    apply linked_fsReaddir_same in Hread as ->;
    try (intros [= <- <-]; apply linked_only_removed_refl).
  destruct (Links.forM_ names _ lw) as [[[]|e|e|] lw2] eqn:Hloop;
    pose proof (linked_loop_only_removes _ _ _ IH _ _ _ Hloop) as H1;
    try (by intros [= <- <-]).
  intros Hrm. eapply linked_only_removed_trans; [exact H1|].
  by eapply linked_fsRmdir_only_removes.
Qed.

Lemma dirs_above (m : gmap fspath entry) (dir p : fspath) :
  tree_closed m → is_Some (m !! dir) → p `prefix_of` dir → p ≠ dir →
  m !! p = Some Dir.
Proof.
  intros Hclosed Hdir [x ->] Hp.
  apply (tree_closed_ancestor m p x); [done| |done].
  intros ->. by rewrite app_nil_r in Hp.
Qed.

Section LinkedRemoval.

Variable host : Host.


End LinkedRemoval.

(** X9: whatever comes of [rmDirectoryRecursive], a return, an error
    half way or the end of the fuel, it has added and altered nothing:
    every file, directory and symbolic link is as it was or gone, and the
    log and the working directory are as they were.  On a directory of a
    well-formed filesystem that no symbolic link leads to, lies at or lies
    below, what is gone lay at or below the directory, and the links are
    all there. *)
Theorem rmDirectoryRecursive_only_removes (fuel : nat) (dirPath : string)
    lw o lw' :
  Links.rmDirectoryRecursive fuel dirPath lw = (o, lw') →
  Links.only_removed lw lw'
  ∧ ∀ dir : fspath,
      dirPath = path_string dir → Forall valid_name dir → dir ≠ [] →
      wf_fs (fs (Links.plain lw)) →
      is_Some (fs (Links.plain lw) !! dir) →
      Links.no_link_near dir lw →
      only_removed_below dir (Links.plain lw) (Links.plain lw')
      ∧ Links.links lw' = Links.links lw.
Proof.
  intros Hrun. split; [by eapply linked_rm_only_removes|].
  intros dir -> Hvalid Hne [Hclosed Hok] Hdir Hnl.
  rewrite linked_rm_agrees in Hrun; try done.
  2:{ intros p Hp Hpd. by apply (dirs_above _ dir p). }
  destruct (rmDirectoryRecursive fuel (path_string dir) (Links.plain lw))
    as [o1 w1] eqn:Hbase.
  injection Hrun as <- <-. simpl. split; [|done].
  destruct (rm_only_removes fuel (path_string dir) _ _ _
              (path_string_absolute dir) Hok Hbase) as [Hframe _].
  by rewrite resolve_path_string in Hframe.
Qed.

(** * The stages of the pipeline, one by one *)

Lemma forM_log_to (lg : Logger) (lv : Level) (msgs : list string) w :
  forM_ msgs (log_to lg lv) w
  = (Val tt,
     mkWorld (fs w) (cwd w) (now w) (log w ++ (mkLog lg lv <$> msgs)) (console w)).
Proof.
  revert w. induction msgs as [|msg msgs IH]; intros w.
  { simpl. rewrite app_nil_r. by destruct w. }
  rewrite forM_cons, log_to_bind, IH. simpl. by rewrite <- app_assoc.
Qed.

Lemma chdir_to_directory (directory : string) w :
  stat_entry w directory = Some Dir →
  chdir directory w = (Val tt, set_cwd (resolve (cwd w) directory) w).
Proof. intros Hdir. unfold chdir. by rewrite Hdir. Qed.

Section PipelineStages.

Variable host : Host.

Lemma action_stage_runs_in_directory (fuel : nat) (config : Configuration)
    (ts : string) (s : Stage) (dir : string) (actions : list (list string)) w0 :
  action_stage host config ts s = Some (dir, actions) →
  stat_entry w0 dir = Some Dir →
  run_stage host fuel code_label config ts s w0
  = forM_ actions (processAction host fuel (code_label (stage_name s)) dir)
      (in_directory dir (add_log (announcement (stage_name s)) w0)).
Proof.
  intros Hstage Hdir.
  destruct s; simplify_eq/=;
    by apply (processActions_in_directory host fuel _ _ _ (add_log _ w0)).
Qed.

Lemma pack_stage_is_the_archiver (fuel : nat) (config : Configuration)
    (ts : string) w0 :
  run_stage host fuel code_label config ts Pack w0
  = match host_archiver host (stagingDirectory host config ts)
            (targetArchivePath config ts)
            (add_log (chdir_line (stagingDirectory host config ts))
               (add_log (announcement "pack") w0)) with
    | ArchiveOk m d warnings closed =>
        (Val tt,
         mkWorld m (cwd w0) d
           (log w0
            ++ [announcement "pack"; chdir_line (stagingDirectory host config ts)]
            ++ archiver_lines warnings closed)
           (console w0))
    | ArchiveFail m d warnings msg =>
        (Uncaught (ArchiverError msg),
         mkWorld m (cwd w0) d
           (log w0
            ++ [announcement "pack"; chdir_line (stagingDirectory host config ts)]
            ++ (mkLog archiverLogger WARN <$> warnings)
            ++ [archiver_error_line msg])
           (console w0))
    end.
Proof.
  assert (Hrs : run_stage host fuel code_label config ts Pack w0
                = processPack host (stagingDirectory host config ts)
                    (targetArchivePath config ts)
                    (add_log (announcement "pack") w0)) by reflexivity.
  rewrite Hrs. unfold processPack. rewrite log_to_bind.
  fold (chdir_line (stagingDirectory host config ts)).
  rewrite bind_eq. unfold archiver_events.
  destruct (host_archiver host _ _ _) as [m d warnings closed|m d warnings msg].
  - simpl fst. simpl snd. rewrite bind_eq, forM_log_to.
    destruct closed as [bytes|]; unfold archiver_lines, log_to, mret, M_ret;
      unfold add_log; simpl; do 2 f_equal;
      rewrite <- ?app_assoc; simpl; by rewrite ?app_nil_r.
  - simpl fst. simpl snd. rewrite bind_eq, forM_log_to. rewrite log_to_bind.
    unfold uncaught, archiver_error_line, add_log. simpl. do 2 f_equal.
    by rewrite <- ?app_assoc.
Qed.

Lemma copy_stage_into_new_directory (fuel : nat) (config : Configuration)
    (ts : string) w0 :
  isAbsolute (projectRoot host) = true →
  isAbsolute (stagingDirectory host config ts) = true →
  wf_fs (fs w0) →
  fs w0 !! parent_of (resolve [] (stagingDirectory host config ts)) = Some Dir →
  fresh_at (resolve [] (stagingDirectory host config ts)) (fs w0) →
  ¬ resolve [] (projectRoot host)
      `prefix_of` resolve [] (stagingDirectory host config ts) →
  ¬ resolve [] (stagingDirectory host config ts)
      `prefix_of` resolve [] (projectRoot host) →
  Forall valid_name (files config) → NoDup (files config) →
  Forall (λ n, depth_within (resolve [] (projectRoot host) ++ [n]) fuel (fs w0))
    (files config) →
  ∃ w', run_stage host fuel code_label config ts Copy w0 = (Val tt, w')
        ∧ ∀ q, fs w' !! q
               = staged (resolve [] (projectRoot host))
                   (resolve [] (stagingDirectory host config ts))
                   (files config) (fs w0) q.
Proof.
  intros. by apply (processCopy_staged fuel (projectRoot host)
                      (stagingDirectory host config ts) (files config)
                      (add_log (announcement "copy") w0)).
Qed.

Lemma copy_stage_into_existing_directory (fuel : nat) (config : Configuration)
    (ts : string) w0 :
  is_Some (stat_entry w0 (stagingDirectory host config ts)) →
  run_stage host fuel code_label config ts Copy w0
  = forM_ (files config)
      (processCopy_item fuel (projectRoot host) (stagingDirectory host config ts))
      (add_log (announcement "copy") w0).
Proof.
  intros [e He].
  assert (Hrs : run_stage host fuel code_label config ts Copy w0
                = processCopy fuel (projectRoot host)
                    (stagingDirectory host config ts) (files config)
                    (add_log (announcement "copy") w0)) by reflexivity.
  rewrite Hrs. unfold processCopy.
  assert (He' : stat_entry (add_log (announcement "copy") w0)
                  (stagingDirectory host config ts) = Some e) by exact He.
  by rewrite (bind_val _ _ _ _ _ (fsExist_some _ _ _ He')).
Qed.

Lemma cleanup_removes_staging_directory (fuel : nat) (config : Configuration)
    (ts : string) w0 :
  stat_entry w0 (projectRoot host) = Some Dir →
  isAbsolute (stagingDirectory host config ts) = true →
  wf_fs (fs w0) →
  fs w0 !! resolve [] (stagingDirectory host config ts) = Some Dir →
  resolve [] (stagingDirectory host config ts) ≠ [] →
  regular_under (resolve [] (stagingDirectory host config ts)) (fs w0) →
  depth_within (resolve [] (stagingDirectory host config ts)) fuel (fs w0) →
  cleanup host fuel config ts w0
  = (Val tt,
     set_fs (remove_tree (resolve [] (stagingDirectory host config ts)) (fs w0))
       (set_cwd (resolve (cwd w0) (projectRoot host)) w0)).
Proof.
  intros Hroot Habs Hwf Hdir Hne Hreg Hdepth. unfold cleanup.
  rewrite (bind_val _ _ _ _ _ (chdir_to_directory _ _ Hroot)).
  apply (rm_spec_all fuel (stagingDirectory host config ts)
           (set_cwd (resolve (cwd w0) (projectRoot host)) w0)); try done.
  intros r Hr [e He]. exact (Hdepth r e He Hr).
Qed.


End PipelineStages.

(** * The end of a run whose stages have all succeeded *)

Section FinalStep.

Variable host : Host.

Lemma processConfig_after_stages (fuel : nat) (config : Configuration) w w1 w2 :
  stage_copyBefore host fuel code_label config w = (Val tt, w1) →
  forM_ later_stages (run_stage host fuel code_label config (timeText (now w1))) w1
    = (Val tt, w2) →
  processConfig host fuel config w
  = (cleanup host fuel config (timeText (now w1)) ;;
     mret (targetArchivePath config (timeText (now w1)))) w2.
Proof.
  intros H1 H2. rewrite processConfig_spec_pipeline. unfold spec_pipeline.
  rewrite (bind_val _ _ _ _ _ H1), new_Date_bind.
  by rewrite (bind_val _ _ _ _ _ H2).
Qed.

(** C3, amended: on a run in which every stage has succeeded, what
    [processConfig] comes to is what its final step comes to, the change
    back to the project root and the removal of the staging directory.
    When the final step succeeds, the run returns the archive path, named
    with the timestamp taken after [copyBefore], the staging directory no
    longer exists and the process stands in the project root; when it
    fails, the run fails with its error and returns no path.  The final
    step does succeed when the staging directory is still a directory of
    files and directories, no deeper than the fuel. *)
Theorem successful_run_returns_archive_and_cleans_up (fuel : nat)
    (config : Configuration) w w1 w2 :
  stage_copyBefore host fuel code_label config w = (Val tt, w1) →
  forM_ later_stages (run_stage host fuel code_label config (timeText (now w1))) w1
    = (Val tt, w2) →
  (∀ o w', cleanup host fuel config (timeText (now w1)) w2 = (o, w') →
     processConfig host fuel config w
     = (match o with
        | Val _ => Val (targetArchivePath config (timeText (now w1)))
        | Throw e => Throw e
        | Uncaught e => Uncaught e
        | OutOfFuel => OutOfFuel
        end, w'))
  ∧ (∀ w', cleanup host fuel config (timeText (now w1)) w2 = (Val tt, w') →
       stat_entry w' (stagingDirectory host config (timeText (now w1))) = None
       ∧ (isAbsolute (projectRoot host) = true →
          cwd w' = resolve [] (projectRoot host)))
  ∧ (∀ names,
       targetPath config = "/" +:+ join_slash names →
       Forall valid_name names → names ≠ [] → no_slash (name config) = true →
       targetArchivePath config (timeText (now w1))
       = targetPath config +:+ "/" +:+
         name config +:+ "." +:+ timeText (now w1) +:+ ".zip")
  ∧ (stat_entry w2 (projectRoot host) = Some Dir →
     isAbsolute (stagingDirectory host config (timeText (now w1))) = true →
     wf_fs (fs w2) →
     fs w2 !! resolve [] (stagingDirectory host config (timeText (now w1)))
       = Some Dir →
     resolve [] (stagingDirectory host config (timeText (now w1))) ≠ [] →
     regular_under (resolve [] (stagingDirectory host config (timeText (now w1))))
       (fs w2) →
     depth_within (resolve [] (stagingDirectory host config (timeText (now w1))))
       fuel (fs w2) →
     processConfig host fuel config w
     = (Val (targetArchivePath config (timeText (now w1))),
        set_fs (remove_tree
                  (resolve [] (stagingDirectory host config (timeText (now w1))))
                  (fs w2))
          (set_cwd (resolve (cwd w2) (projectRoot host)) w2))).
Proof.
  intros H1 H2. pose proof (processConfig_after_stages fuel config w w1 w2 H1 H2) as Hrun.
  split.
  { intros o w' Hclean. rewrite Hrun, bind_eq, Hclean. by destruct o as [[]| | |]. }
  split.
  { intros w' Hclean. unfold cleanup in Hclean. rewrite bind_eq in Hclean.
    destruct (chdir (projectRoot host) w2) as [[[]|e|e|] w3] eqn:Hcd;
      try discriminate.
    destruct (rmDirectoryRecursive_gone _ _ _ _ Hclean) as [Hgone Hcwd].
    split; [done|]. intros Habs. rewrite Hcwd. unfold chdir in Hcd.
    destruct (stat_entry w2 (projectRoot host)) as [[]|]; try discriminate.
    injection Hcd as <-. simpl. by apply resolve_absolute. }
  split.
  { intros names Htarget Hnames Hne Hname. unfold targetArchivePath.
    rewrite Htarget. apply Path_join_rendered; [done..|].
    apply archive_name_valid; [done|apply no_slash_timeText]. }
  intros Hroot Habs Hwf Hdir Hne Hreg Hdepth.
  rewrite Hrun, bind_eq.
  by rewrite (cleanup_removes_staging_directory host fuel config _ w2).
Qed.

End FinalStep.

(** * The process from start to exit *)

(** ** Where an exception can escape *)

Lemma settles_weaken (P : World → error → World → Prop) {A : Type} (m : M A) :
  uncaught_only_as (λ _ _ _, False) m → uncaught_only_as P m.
Proof. intros Hm w e w' H. by destruct (Hm _ _ _ H). Qed.

Lemma settles_bind {A B : Type} (m : M A) (f : A → M B) :
  uncaught_only_as (λ _ _ _, False) m →
  (∀ a, uncaught_only_as (λ _ _ _, False) (f a)) →
  uncaught_only_as (λ _ _ _, False) (m ≫= f).
Proof.
  intros Hm Hf w e w'. rewrite bind_eq.
  destruct (m w) as [[a|e1|e1|] w1] eqn:E; try discriminate.
  - apply Hf.
  - intros _. exact (Hm _ _ _ E).
Qed.

Lemma settles_forM {A : Type} (l : list A) (body : A → M unit) :
  (∀ x, uncaught_only_as (λ _ _ _, False) (body x)) →
  uncaught_only_as (λ _ _ _, False) (forM_ l body).
Proof.
  intros Hbody. induction l as [|x l IH]; [by intros w e w' [=]|].
  intros w e w'. rewrite forM_cons. by apply settles_bind.
Qed.

Ltac settles_call :=
  intros ? ? ?;
  unfold fsExist, fsStat, fsReadFile, fsReaddir, fsUnlink, fsRmdir, fsMkdir,
    fsCopyFile, chdir, childProcessExec, log_to, console_log, new_Date,
    Path_join_js, throw, out_of_fuel, mret, M_ret;
  repeat case_match; discriminate.

Ltac settles_step :=
  first
    [ apply settles_bind; [|intros ?]
    | apply settles_forM; intros ?
    | solve [eauto]
    | solve [settles_call]
    | match goal with
      | |- uncaught_only_as _ (if ?b then _ else _) => destruct b
      | |- uncaught_only_as _ (match ?x with _ => _ end) => destruct x
      end ].

Section Escape.

Variable host : Host.

Lemma settles_rmDirectoryRecursive (fuel : nat) (dirPath : string) :
  uncaught_only_as (λ _ _ _, False) (rmDirectoryRecursive fuel dirPath).
Proof.
  revert dirPath. induction fuel as [|fuel IH]; intros dirPath; simpl.
  - settles_call.
  - unfold rmDirectoryRecursive_item. repeat settles_step.
Qed.

Lemma settles_copyDirectory (fuel : nat) (sourcePath targetPath : string) :
  uncaught_only_as (λ _ _ _, False) (copyDirectory fuel sourcePath targetPath).
Proof.
  revert sourcePath targetPath.
  induction fuel as [|fuel IH]; intros sourcePath targetPath; simpl.
  - settles_call.
  - unfold copyDirectory_item. repeat settles_step.
Qed.

Lemma settles_processActions (fuel : nat) (stageName workingPath : string)
    (actions : list (list string)) :
  uncaught_only_as (λ _ _ _, False)
    (processActions host fuel stageName workingPath actions).
Proof.
  unfold processActions, processAction.
  repeat settles_step; try apply settles_rmDirectoryRecursive.
  all: settles_call.
Qed.

Lemma settles_processCopy (fuel : nat) (workingPath targetPath : string)
    (files : list string) :
  uncaught_only_as (λ _ _ _, False) (processCopy fuel workingPath targetPath files).
Proof.
  unfold processCopy, processCopy_item.
  repeat settles_step; try apply settles_copyDirectory.
Qed.

Lemma settles_readConfig (configName : string) :
  uncaught_only_as (λ _ _ _, False) (readConfig host configName).
Proof. unfold readConfig. repeat settles_step. Qed.

Lemma not_top_error_stage_event (ev : LogEvent) :
  is_stage_event ev → ¬ is_top_error ev.
Proof. intros Hev [Hl Hv]. specialize (Hev Hl). congruence. Qed.

Lemma escape_bind {A B : Type} (m : M A) (f : A → M B) :
  post (log_grows (λ ev, ¬ is_top_error ev)) m →
  uncaught_only_as archiver_failed m →
  (∀ a, uncaught_only_as archiver_failed (f a)) →
  uncaught_only_as archiver_failed (m ≫= f).
Proof.
  intros Hlog Hm Hf w e w'. rewrite bind_eq.
  destruct (m w) as [[a|e1|e1|] w1] eqn:E; try discriminate.
  - intros Hfa. destruct (Hf a _ _ _ Hfa) as (msg & l & -> & El & Hl).
    destruct (Hlog _ _ _ E) as (l1 & El1 & Hl1).
    exists msg, (l1 ++ l). split; [done|]. split; [|by apply Forall_app].
    by rewrite El, El1, <- !app_assoc.
  - intros [= <- <-]. exact (Hm _ _ _ E).
Qed.

Lemma escape_forM {A : Type} (l : list A) (body : A → M unit) :
  (∀ x, post (log_grows (λ ev, ¬ is_top_error ev)) (body x)) →
  (∀ x, uncaught_only_as archiver_failed (body x)) →
  uncaught_only_as archiver_failed (forM_ l body).
Proof.
  intros Hlog Hbody. induction l as [|x l IH]; [by intros w e w' [=]|].
  intros w e w'. rewrite forM_cons. by apply escape_bind.
Qed.

Lemma escape_processPack (workingPath targetFilePath : string) :
  uncaught_only_as archiver_failed (processPack host workingPath targetFilePath).
Proof.
  intros w e w'. unfold processPack. rewrite log_to_bind.
  fold (chdir_line workingPath). rewrite bind_eq. unfold archiver_events.
  destruct (host_archiver host _ _ _) as [m d warnings closed|m d warnings msg];
    simpl fst; simpl snd; rewrite bind_eq, forM_log_to.
  { by destruct closed. }
  rewrite log_to_bind. intros [= <- <-].
  exists msg, (chdir_line workingPath :: (mkLog archiverLogger WARN <$> warnings)).
  split; [done|]. split.
  - simpl. by rewrite <- !app_assoc.
  - constructor; [by intros [? _]|].
    apply Forall_fmap, Forall_true. by intros msg' [? _].
Qed.

Lemma run_stage_log (fuel : nat) (config : Configuration) (ts : string) (s : Stage) :
  post (log_grows (λ ev, ¬ is_top_error ev))
    (run_stage host fuel code_label config ts s).
Proof.
  unfold run_stage, announce. apply post_bind; try apply _.
  - apply post_log_to. by intros [_ ?].
  - intros _ w o w' H. eapply log_grows_mono; [apply not_top_error_stage_event|].
    by eapply stage_body_log.
Qed.

Lemma escape_run_stage (fuel : nat) (config : Configuration) (ts : string)
    (s : Stage) :
  uncaught_only_as archiver_failed (run_stage host fuel code_label config ts s).
Proof.
  unfold run_stage, announce. apply escape_bind.
  - apply post_log_to. by intros [_ ?].
  - apply settles_weaken. settles_call.
  - intros _. destruct s; simpl;
      first [ apply escape_processPack
            | apply settles_weaken;
              first [apply settles_processActions | apply settles_processCopy] ].
Qed.

Lemma escape_processConfig (fuel : nat) (config : Configuration) :
  uncaught_only_as archiver_failed (processConfig host fuel config).
Proof.
  intros w e w'. rewrite processConfig_spec_pipeline. revert w e w'.
  unfold spec_pipeline. apply escape_bind.
  { unfold stage_copyBefore, announce. apply post_bind; try apply _.
    - apply post_log_to. by intros [_ ?].
    - intros _. apply post_log_processActions. apply not_top_error_stage_event. }
  { unfold stage_copyBefore, announce. apply settles_weaken, settles_bind.
    - settles_call.
    - intros _. apply settles_processActions. }
  intros _. apply escape_bind.
  { apply post_log_new_Date. }
  { apply settles_weaken. settles_call. }
  intros timeNow. apply escape_bind.
  { apply post_forM; try apply _. intros s. apply run_stage_log. }
  { apply escape_forM; intros s; [apply run_stage_log|apply escape_run_stage]. }
  intros _. apply settles_weaken, settles_bind.
  - unfold cleanup. apply settles_bind; [settles_call|].
    intros _. apply settles_rmDirectoryRecursive.
  - intros _. settles_call.
Qed.

Lemma escape_main (fuel : nat) :
  uncaught_only_as archiver_failed (main host fuel).
Proof.
  unfold main. apply escape_bind.
  - apply readConfig_log.
  - apply settles_weaken, settles_readConfig.
  - intros config. apply escape_bind.
    + intros w o w' H.
      destruct (processConfig_log _ _ _ _ _ _ H) as (l & El & Hl & _).
      by exists l.
    + apply escape_processConfig.
    + intros targetFilePath. apply settles_weaken. settles_call.
Qed.


End Escape.

(** ** The further properties at work on the demo project *)

(** Witness of X1: an action of the unknown kind [noop]. *)
Lemma unknown_action_witness :
  processAction demo_host 1 "copyAfter" "/proj" ["noop"; "x"] demo_world
    = (Val tt, add_log (unknown_line "copyAfter" (["noop"; "x"] !! 0%nat)) demo_world)
  ∧ forM_ [["noop"; "x"]; ["delete"; "a.txt"]]
          (processAction demo_host 1 "copyAfter" "/proj") demo_world
    = forM_ [["delete"; "a.txt"]] (processAction demo_host 1 "copyAfter" "/proj")
        (add_log (unknown_line "copyAfter" (["noop"; "x"] !! 0%nat)) demo_world).
Proof.
  apply (unknown_action_warns_and_continues demo_host 1 "copyAfter" "/proj"
           ["noop"; "x"] [["delete"; "a.txt"]] demo_world).
  - apply (bool_decide_unpack _); vm_compute; exact I.
  - apply (bool_decide_unpack _); vm_compute; exact I.
Defined.

(** Witness of X3: deleting the pipe of the demo project. *)
Lemma delete_of_other_entry_witness :
  processAction demo_host 1 "copyBefore" "/proj" ["delete"; "pipe"] demo_world
    = (Val tt,
       add_log (not_deletable_line (Path_join "/proj" "pipe"))
         (add_log (delete_line "pipe") demo_world))
  ∧ forM_ [["delete"; "pipe"]; ["delete"; "a.txt"]]
          (processAction demo_host 1 "copyBefore" "/proj") demo_world
    = forM_ [["delete"; "a.txt"]] (processAction demo_host 1 "copyBefore" "/proj")
        (add_log (not_deletable_line (Path_join "/proj" "pipe"))
           (add_log (delete_line "pipe") demo_world)).
Proof.
  apply (delete_of_other_entry_warns demo_host 1 "copyBefore" "/proj" "pipe" []
           [["delete"; "a.txt"]] demo_world).
  vm_compute; reflexivity.
Defined.

(** Witness of X4: deleting the directory [sub] of the demo project. *)
Lemma delete_action_witness :
  processAction demo_host 2 "copyBefore" "/proj" ["delete"; "sub"] demo_world
    = (Val tt,
       set_fs (remove_tree (resolve [] (Path_join "/proj" "sub")) (fs demo_world))
         (add_log (delete_line "sub") demo_world))
  ∧ ∀ q, ¬ resolve [] (Path_join "/proj" "sub") `prefix_of` q →
         remove_tree (resolve [] (Path_join "/proj" "sub")) (fs demo_world) !! q
         = fs demo_world !! q.
Proof.
  apply (delete_action_removes_exactly_the_item demo_host 2 "copyBefore" "/proj"
           "sub" [] demo_world).
  - reflexivity.
  - apply (bool_decide_unpack _); vm_compute; exact I.
  - apply (bool_decide_unpack _); vm_compute; exact I.
  - apply (bool_decide_unpack _); vm_compute; exact I.
  - apply (bool_decide_unpack _); vm_compute; exact I.
  - apply (bool_decide_unpack _); vm_compute; exact I.
Defined.

(** Witness of X6: a stage in a directory that is not there. *)
Lemma processActions_missing_directory_witness :
  ∃ e, (e = ENOENT ∨ e = ENOTDIR)
       ∧ processActions demo_host 1 "packBefore" "/nowhere" [["delete"; "a.txt"]]
           demo_world
         = (Throw e, add_log (chdir_line "/nowhere") demo_world).
Proof.
  apply (processActions_rejects_missing_directory demo_host 1 "packBefore"
           "/nowhere" [["delete"; "a.txt"]] demo_world).
  apply (bool_decide_unpack _); vm_compute; exact I.
Defined.



(** Witness of X10: the demo project without its configuration file. *)
Lemma run_without_configuration_witness :
  ∃ err, run demo_host 5 bare_world
         = Some (add_log (mkLog mainLogger ERROR (error_text err)) bare_world, 0%nat)
         ∧ (stat_entry bare_world (Path_join (workingPath demo_host) configFileName)
            = None →
            err = Error_ (quoted "zmpack.json" +:+ " is required")).
Proof.
  apply (run_without_usable_configuration demo_host 5 bare_world).
  - apply (bool_decide_unpack _); vm_compute; exact I.
  - intros c Hc. vm_compute in Hc. discriminate Hc.
Defined.

(** Witness of X11: an item the demo project does not have. *)
Lemma missing_copy_source_witness :
  processCopy_item 2 "/proj" "/tmp/stage" "gone" demo_world
    = (Val tt, add_log (not_exists_line (Path_join "/proj" "gone")) demo_world)
  ∧ forM_ ["gone"; "a.txt"] (processCopy_item 2 "/proj" "/tmp/stage") demo_world
    = forM_ ["a.txt"] (processCopy_item 2 "/proj" "/tmp/stage")
        (add_log (not_exists_line (Path_join "/proj" "gone")) demo_world).
Proof.
  apply (missing_copy_source_is_skipped 2 "/proj" "/tmp/stage" "gone" ["a.txt"]
           demo_world).
  vm_compute; reflexivity.
Defined.

(** Witness of X12: a staging directory two levels below what is there. *)
Lemma processCopy_parent_witness :
  ∃ e, (e = ENOENT ∨ e = ENOTDIR)
       ∧ processCopy 2 "/proj" "/tmp/deep/stage" ["a.txt"] demo_world
         = (Throw e, demo_world).
Proof.
  apply (processCopy_needs_the_parent_directory 2 "/proj" "/tmp/deep/stage"
           ["a.txt"] demo_world).
  - reflexivity.
  - vm_compute; reflexivity.
  - apply (bool_decide_unpack _); vm_compute; exact I.
Defined.

(** Witness of X13: packing [/tmp] from the project root. *)
Lemma processPack_witness :
  cwd (processPack demo_host "/tmp" "/out/demo.zip" demo_world).2 = cwd demo_world
  ∧ ∃ l, log (processPack demo_host "/tmp" "/out/demo.zip" demo_world).2
         = log demo_world ++ chdir_line "/tmp" :: l.
Proof.
  apply (processPack_logs_chdir_but_stays demo_host "/tmp" "/out/demo.zip" demo_world
           (processPack demo_host "/tmp" "/out/demo.zip" demo_world).1).
  vm_compute; reflexivity.
Defined.

(** Witness of X14: the staging directory of the demo project. *)
Lemma staging_directory_witness :
  resolve ["proj"] (stagingDirectory demo_host demo_config (timeText demo_now))
  = resolve [] (host_tmpdir demo_host)
    ++ [name demo_config +:+ "-" +:+ timeText demo_now].
Proof.
  apply (staging_directory_is_a_child_of_tmpdir demo_host demo_config demo_now
           ["proj"]).
  - reflexivity.
  - reflexivity.
Defined.




(** ** The amended claims at work *)


(** Counterexample to C3 as stated: the last [packAfter] action deletes
    the staging directory; all six stages succeed, and the run is rejected
    by its final step, which finds no directory to remove: no path is
    returned. *)
Lemma run_fails_in_cleanup_after_all_stages :
  (stage_copyBefore (demo_host_with self_deleting_config) 5 code_label
     self_deleting_config demo_world).1 = Val tt
  ∧ (forM_ later_stages
       (run_stage (demo_host_with self_deleting_config) 5 code_label
          self_deleting_config (timeText demo_now))
       (stage_copyBefore (demo_host_with self_deleting_config) 5 code_label
          self_deleting_config demo_world).2).1 = Val tt
  ∧ now (stage_copyBefore (demo_host_with self_deleting_config) 5 code_label
           self_deleting_config demo_world).2 = demo_now
  ∧ announced
      (log (processConfig (demo_host_with self_deleting_config) 5
              self_deleting_config demo_world).2)
    = spec_announcements
  ∧ (processConfig (demo_host_with self_deleting_config) 5
       self_deleting_config demo_world).1 = Throw ENOENT.
Proof. vm_compute. repeat split. Qed.

(** Witness of C3: the stages of the demo run all succeed, and so does
    its final step: the run returns [/out/demo.20240205102030.zip], and
    the staging directory is gone. *)
Lemma successful_run_witness :
  processConfig demo_host 5 demo_config demo_world
  = (Val (targetArchivePath demo_config (timeText demo_now)),
     set_fs
       (remove_tree (resolve [] (stagingDirectory demo_host demo_config
                                   (timeText demo_now)))
          (fs (forM_ later_stages
                 (run_stage demo_host 5 code_label demo_config (timeText demo_now))
                 (stage_copyBefore demo_host 5 code_label demo_config
                    demo_world).2).2))
       (set_cwd
          (resolve
             (cwd (forM_ later_stages
                     (run_stage demo_host 5 code_label demo_config
                        (timeText demo_now))
                     (stage_copyBefore demo_host 5 code_label demo_config
                        demo_world).2).2)
             (projectRoot demo_host))
          (forM_ later_stages
             (run_stage demo_host 5 code_label demo_config (timeText demo_now))
             (stage_copyBefore demo_host 5 code_label demo_config demo_world).2).2))
  ∧ targetArchivePath demo_config (timeText demo_now)
    = "/out/demo.20240205102030.zip".
Proof.
  split; [|vm_compute; reflexivity].
  refine (proj2 (proj2 (proj2
    (successful_run_returns_archive_and_cleans_up demo_host 5 demo_config
       demo_world
       (stage_copyBefore demo_host 5 code_label demo_config demo_world).2
       (forM_ later_stages
          (run_stage demo_host 5 code_label demo_config (timeText demo_now))
          (stage_copyBefore demo_host 5 code_label demo_config demo_world).2).2
       _ _))) _ _ _ _ _ _ _).
  - vm_compute; reflexivity.
  - vm_compute; reflexivity.
  - vm_compute; reflexivity.
  - reflexivity.
  - apply (bool_decide_unpack _); vm_compute; exact I.
  - vm_compute; reflexivity.
  - apply (bool_decide_unpack _); vm_compute; exact I.
  - apply (bool_decide_unpack _); vm_compute; exact I.
  - apply (bool_decide_unpack _); vm_compute; exact I.
Defined.


(** The third way a run ends: the archiver fails, its error is the last
    line of the log, no top-level error is logged and the exit code is 1. *)
Example archiver_error_exits_one :
  (main failing_archiver_host 5 demo_world).1 = Uncaught (ArchiverError "disk full")
  ∧ (run failing_archiver_host 5 demo_world)
    = Some ((main failing_archiver_host 5 demo_world).2, 1%nat)
  ∧ last (log (main failing_archiver_host 5 demo_world).2)
    = Some (archiver_error_line "disk full")
  ∧ filter is_top_error (log (main failing_archiver_host 5 demo_world).2) = [].
Proof. vm_compute. repeat split. Qed.



(** Witness of X5: a stage run in [/tmp] from the project root. *)
Lemma processActions_workingPath_witness :
  processActions demo_host 1 "packBefore" "/tmp" [["noop"]; ["delete"; "x"]] demo_world
  = forM_ [["noop"]; ["delete"; "x"]] (processAction demo_host 1 "packBefore" "/tmp")
      (set_cwd (resolve (cwd demo_world) "/tmp")
         (add_log (chdir_line "/tmp") demo_world))
  ∧ cwd (set_cwd (resolve (cwd demo_world) "/tmp")
           (add_log (chdir_line "/tmp") demo_world))
    = resolve (cwd demo_world) "/tmp"
  ∧ ∀ pre rest o w1,
      [["noop"]; ["delete"; "x"]] = pre ++ rest →
      forM_ pre (processAction demo_host 1 "packBefore" "/tmp")
        (set_cwd (resolve (cwd demo_world) "/tmp")
           (add_log (chdir_line "/tmp") demo_world))
      = (o, w1) →
      cwd w1 = resolve (cwd demo_world) "/tmp".
Proof.
  apply (processActions_runs_its_actions_in_workingPath demo_host 1 "packBefore"
           "/tmp" [["noop"]; ["delete"; "x"]] demo_world).
  vm_compute; reflexivity.
Defined.

(** Witness of X9: removing the demo project, which stops at the FIFO,
    and the tree with the link, where a file outside the tree goes. *)
Lemma rmDirectoryRecursive_only_removes_witness :
  Links.only_removed linked_world
    (Links.rmDirectoryRecursive 3 "/proj/tree" linked_world).2
  ∧ only_removed_below ["proj"] (Links.plain demo_linked)
      (Links.plain (Links.rmDirectoryRecursive 3 (path_string ["proj"]) demo_linked).2)
  ∧ Links.links (Links.rmDirectoryRecursive 3 (path_string ["proj"]) demo_linked).2
    = Links.links demo_linked.
Proof.
  split.
  - refine (proj1 (rmDirectoryRecursive_only_removes 3 "/proj/tree" linked_world
                     (Links.rmDirectoryRecursive 3 "/proj/tree" linked_world).1
                     (Links.rmDirectoryRecursive 3 "/proj/tree" linked_world).2 _)).
    vm_compute; reflexivity.
  - refine (proj2 (rmDirectoryRecursive_only_removes 3 (path_string ["proj"])
                     demo_linked
                     (Links.rmDirectoryRecursive 3 (path_string ["proj"]) demo_linked).1
                     (Links.rmDirectoryRecursive 3 (path_string ["proj"]) demo_linked).2
                     _) ["proj"] _ _ _ _ _ _).
    + vm_compute; reflexivity.
    + reflexivity.
    + apply (bool_decide_unpack _); vm_compute; exact I.
    + apply (bool_decide_unpack _); vm_compute; exact I.
    + apply (bool_decide_unpack _); vm_compute; exact I.
    + apply (bool_decide_unpack _); vm_compute; exact I.
    + apply (bool_decide_unpack _); vm_compute; exact I.
Defined.

(** Witness of X17: the timestamp of the demo date. *)
Lemma timeText_width_witness :
  ∃ rest, timeText demo_now = toString (getFullYear demo_now) +:+ rest
          ∧ String.length rest = 10%nat.
Proof.
  apply (timeText_is_year_and_ten_characters demo_now); vm_compute; lia.
Defined.
